(** * KnowShowGo neurosymbolic engine: a shallow embedding and its properties

    This development embeds the Python modules
      - [knowshowgo/neuro/logic.py]   (the Lukasiewicz logic kernel),
      - [knowshowgo/neuro/types.py]   (the NeuroJSON records),
      - [knowshowgo/neuro/engine.py]  (class [NeuroEngine]),
      - [knowshowgo/neuro_service.py] (class [NeuroService], the graph bridge)
    and proves properties of them.

    Modelling conventions.
      - A Python [float] is a rational ([Q]); equalities between computed
        truth values are stated with [Qeq] ([==]).  The engine and the
        kernel of module [Logic] compute with exact arithmetic: they are used
        for the properties that do not depend on rounding (ranges, orderings,
        which state is written).  Module [Logic64] is the kernel with every
        arithmetic operation rounded to binary64 (module [Binary64]); the
        algebraic laws of the kernel, which do depend on rounding, are
        stated there.  Infinities and NaN are outside both models.
      - A Python [dict] that the code only reads by key is a [gmap]; a [dict]
        that the code iterates is an association list in insertion order
        (module [ODict]).
      - A [TypedDict] declared with [total=False] is a record of [option]
        fields; each [d.get(k, default)] is a [default] on the field.
      - A Python exception is the [Raise] branch of [result]. *)

From Stdlib Require Import QArith Qabs Lqa Qround Qpower String Ascii ZArith
  DecimalString DecimalNat.
From stdpp Require Import gmap strings list fin_maps.

(** ** Exceptions *)

Inductive exn : Type :=
| ValueError (msg : string)
| KeyError (key : string).

Inductive result (A : Type) : Type :=
| Ok (a : A)
| Raise (e : exn).
Arguments Ok {A} a.
Arguments Raise {A} e.

#[global] Instance result_ret : MRet result := λ A a, Ok a.
#[global] Instance result_bind : MBind result := λ A B k m,
  match m with
  | Ok a => k a
  | Raise e => Raise e
  end.

(** ** Ordered dictionaries

    Python dictionaries iterate in insertion order, and assigning to a key
    that is already present keeps the key at its place. *)

Module ODict.

Fixpoint set {V} (k : string) (v : V) (d : list (string * V)) : list (string * V) :=
  match d with
  | [] => [(k, v)]
  | (k', v') :: d' =>
      if String.eqb k' k then (k', v) :: d' else (k', v') :: set k v d'
  end.

Fixpoint get {V} (k : string) (d : list (string * V)) : option V :=
  match d with
  | [] => None
  | (k', v') :: d' => if String.eqb k' k then Some v' else get k d'
  end.

Definition keys {V} (d : list (string * V)) : list string := d.*1.
Definition values {V} (d : list (string * V)) : list V := d.*2.

(** [dict(items)]: the dictionary built by assigning the items in order. *)
Definition of_items {V} (items : list (string * V)) : list (string * V) :=
  fold_left (λ d kv, set kv.1 kv.2 d) items [].

End ODict.

(** ** logic.py *)

Module Logic.

Local Open Scope Q_scope.

Definition Qlt_bool (x y : Q) : bool := negb (Qle_bool y x).

(** Python's two-argument [min] and [max] return the first argument unless
    the second is strictly smaller (resp. larger). *)
Definition py_min (a b : Q) : Q := if Qlt_bool b a then b else a.
Definition py_max (a b : Q) : Q := if Qlt_bool a b then b else a.

(** [sum(xs)]: left-to-right, starting from 0. *)
Definition py_sum (xs : list Q) : Q := fold_left Qplus xs 0.

(** [len(xs)] as a number. *)
Definition py_len {A} (xs : list A) : Q := inject_Z (Z.of_nat (length xs)).

Definition clamp (value : Q) : Q := py_max 0 (py_min 1 value).

Definition is_valid_truth_value (value : Q) : bool :=
  Qle_bool 0 value && Qle_bool value 1.

Definition fuzzy_not (a : Q) : Q := clamp (1 - a).

Definition fuzzy_and (values : list Q) : Q :=
  match values with
  | [] => 1
  | [v] => clamp v
  | _ => clamp (py_sum values - (py_len values - 1))
  end.

Definition fuzzy_or (values : list Q) : Q :=
  match values with
  | [] => 0
  | [v] => clamp v
  | _ => clamp (py_sum values)
  end.

Definition implies (antecedent consequent : Q) : Q :=
  clamp (1 - antecedent + consequent).

Definition equivalent (a b : Q) : Q := clamp (1 - Qabs (a - b)).

Definition weighted_average (values : list (Q * Q)) : Q :=
  match values with
  | [] => 1 # 2
  | _ =>
      let total_weight := py_sum (values.*2) in
      if Qeq_bool total_weight 0 then 1 # 2
      else
        let weighted_sum := py_sum (map (λ vw, vw.1 * vw.2) values) in
        clamp (weighted_sum / total_weight)
  end.

Definition inhibit (target_value attacker_value weight : Q) : Q :=
  let inhibition_factor := attacker_value * weight in
  clamp (target_value * (1 - inhibition_factor)).

Definition support (target_value supporter_value weight : Q) : Q :=
  let support_factor := supporter_value * weight in
  clamp (target_value + (1 - target_value) * support_factor).

Definition mutex_normalize (values : list Q) : list Q :=
  match values with
  | [] => []
  | _ =>
      let total := py_sum values in
      if Qle_bool total 1 then map clamp values
      else map (λ v, clamp (v / total)) values
  end.

(** [str.upper()] on ASCII strings: the letters a-z are mapped to A-Z and
    every other character is left as it is.  Python also maps letters
    outside ASCII (the dotless i, for one, to I), so this definition is
    [str.upper()] on the strings of ASCII characters only; a statement that
    depends on an operator not being dispatched is made for such strings
    ([Spec.isascii]). *)
Definition upper_ascii (c : ascii) : ascii :=
  let n := nat_of_ascii c in
  if (97 <=? n)%nat && (n <=? 122)%nat then ascii_of_nat (n - 32) else c.

Fixpoint str_upper (s : string) : string :=
  match s with
  | EmptyString => EmptyString
  | String c s' => String (upper_ascii c) (str_upper s')
  end.

Definition apply_operation (op : string) (inputs : list Q)
    (weights : option (list Q)) : result Q :=
  let op := str_upper op in
  if String.eqb op "IDENTITY" then
    Ok (match inputs with x :: _ => clamp x | [] => 1 # 2 end)
  else if String.eqb op "AND" then Ok (fuzzy_and inputs)
  else if String.eqb op "OR" then Ok (fuzzy_or inputs)
  else if String.eqb op "NOT" then
    Ok (match inputs with x :: _ => fuzzy_not x | [] => 1 # 2 end)
  else if String.eqb op "WEIGHTED" then
    let mean :=
      match inputs with
      | [] => 1 # 2
      | _ => py_sum inputs / py_len inputs
      end in
    match weights with
    | Some (w :: ws) =>
        if Nat.eqb (length (w :: ws)) (length inputs)
        then Ok (weighted_average (combine inputs (w :: ws)))
        else Ok mean
    | _ => Ok mean
    end
  else Raise (ValueError ("Unknown operation: " ++ op)).

End Logic.

(** ** binary64 arithmetic

    A finite binary64 number is a rational [m * 2 ^ c] with [|m| < 2 ^ 53]
    and [c >= -1074].  Every arithmetic operation of Python on floats
    returns the exact result rounded to the nearest such number, ties to the
    one with an even [m].  Overflow is not modelled: the results are assumed
    to stay below [2 ^ 1024] in magnitude, which holds for the kernel on
    truth values. *)

Module Binary64.

Local Open Scope Q_scope.

(** [floor (log2 x)] for [x > 0]. *)
Definition ilog2 (x : Q) : Z :=
  let c := (Z.log2 (Qnum x) - Z.log2 (Zpos (Qden x)))%Z in
  if Qle_bool (2 ^ c) x then c else (c - 1)%Z.

(** The exponent of the unit in the last place of [x]: 53 significant
    bits, and the fixed grid [2 ^ -1074] of the subnormal numbers. *)
Definition cexp (x : Q) : Z := Z.max (ilog2 (Qabs x) - 52) (-1074).

(** The nearest integer, ties to even. *)
Definition rne (x : Q) : Z :=
  let f := Qfloor x in
  match Qcompare (x - inject_Z f) (1 # 2) with
  | Lt => f
  | Gt => (f + 1)%Z
  | Eq => if Z.even f then f else (f + 1)%Z
  end.

(** The binary64 number nearest to [x]. *)
Definition round (x : Q) : Q :=
  let x := Qred x in
  let c := cexp x in
  Qred (inject_Z (rne (x * 2 ^ (- c))) * 2 ^ c).

(** The operators [+], [-], [*] and [/] on floats. *)
Definition add (x y : Q) : Q := round (x + y).
Definition sub (x y : Q) : Q := round (x - y).
Definition mul (x y : Q) : Q := round (x * y).
Definition div (x y : Q) : Q := round (x / y).

(** The rationals that are binary64 numbers. *)
Definition is_float (x : Q) : Prop := round x == x.

End Binary64.

(** ** logic.py with binary64 arithmetic

    The functions of [Logic] whose algebraic laws are stated below, with
    each arithmetic operation of the source rounded as Python rounds it.
    Comparisons, [min], [max] and [abs] are exact on floats, so [clamp] is
    the one of [Logic]. *)

Module Logic64.

Import Logic Binary64.
Local Open Scope Q_scope.

(** [sum(xs)]: left to right, starting from the integer 0. *)
Definition py_sum (xs : list Q) : Q := fold_left add xs 0.

Definition fuzzy_not (a : Q) : Q := clamp (sub 1 a).

(** In [total - (len(values) - 1)] the integer [len(values) - 1] is
    converted to a float before the subtraction. *)
Definition fuzzy_and (values : list Q) : Q :=
  match values with
  | [] => 1
  | [v] => clamp v
  | _ => clamp (sub (py_sum values) (round (py_len values - 1)))
  end.

Definition fuzzy_or (values : list Q) : Q :=
  match values with
  | [] => 0
  | [v] => clamp v
  | _ => clamp (py_sum values)
  end.

Definition implies (antecedent consequent : Q) : Q :=
  clamp (add (sub 1 antecedent) consequent).

Definition equivalent (a b : Q) : Q := clamp (sub 1 (Qabs (sub a b))).

Definition mutex_normalize (values : list Q) : list Q :=
  match values with
  | [] => []
  | _ =>
      let total := py_sum values in
      if Qle_bool total 1 then map clamp values
      else map (λ v, clamp (div v total)) values
  end.

End Logic64.


(** [for x in xs: s = f(s, x)] where the body may raise. *)
Fixpoint for_each {A S} (f : S → A → result S) (xs : list A) (s : S) : result S :=
  match xs with
  | [] => Ok s
  | x :: xs' => s' ← f s x; for_each f xs' s'
  end.

(** ** types.py *)

Module Types.

(** [class Variable(TypedDict, total=False)]. *)
Record VariableDecl := {
  v_type : option string;
  v_prior : option Q;
  v_description : option string;
  v_locked : option bool;
}.

(** [class Rule(TypedDict, total=False)]; the engine reads [rule["id"]]
    unconditionally at load, so the identifier is always present here. *)
Record Rule := {
  r_id : string;
  r_type : option string;
  r_inputs : option (list string);
  r_output : option string;
  r_op : option string;
  r_weight : option Q;
  r_learnable : option bool;
}.

(** The [target] of a constraint is a name or a list of names. *)
Inductive Target :=
| TStr (name : string)
| TList (names : list string).

(** [class Constraint(TypedDict, total=False)], identifier as for rules. *)
Record Constraint := {
  c_id : string;
  c_type : option string;
  c_source : option string;
  c_target : option Target;
  c_weight : option Q;
}.

(** [class NeuroJSON(TypedDict, total=False)]: a missing [variables],
    [rules] or [constraints] key is read as the empty collection. *)
Record NeuroJSON := {
  version : option string;
  name : option string;
  variables : list (string * VariableDecl);
  rules : list Rule;
  constraints : list Constraint;
}.

Record VariableState := {
  value : Q;
  lower : Q;
  upper : Q;
  locked : bool;
  gradient : Q;
}.

(** [VariableState()] with the dataclass defaults. *)
Definition VariableState_default : VariableState :=
  {| value := 1 # 2; lower := 0; upper := 1; locked := false; gradient := 0 |}.

Definition with_value (st : VariableState) (v : Q) : VariableState :=
  {| value := v; lower := lower st; upper := upper st;
     locked := locked st; gradient := gradient st |}.

Definition with_locked (st : VariableState) (b : bool) : VariableState :=
  {| value := value st; lower := lower st; upper := upper st;
     locked := b; gradient := gradient st |}.

Record EngineConfig := {
  max_iterations : Z;
  convergence_threshold : Q;
  learning_rate : Q;
  damping_factor : Q;
}.

Definition create_default_config : EngineConfig :=
  {| max_iterations := 100; convergence_threshold := 1 # 1000;
     learning_rate := 1 # 10; damping_factor := 1 # 2 |}.

End Types.

(** ** engine.py *)

Module Engine.

Import Logic Types.
Local Open Scope Q_scope.

Abbreviation Evidence := (gmap string Q).
Abbreviation InferenceOutput := (gmap string Q).

Record TrainingData := {
  inputs : gmap string Q;
  targets : list (string * Q);
}.

Record NeuroEngine := {
  config : EngineConfig;
  _variables : list (string * VariableDecl);
  _rules : gmap string Rule;
  _constraints : list (string * Constraint);
  _states : gmap string VariableState;
  _var_to_input_rules : gmap string (list string);
  _var_to_output_rules : gmap string (list string);
}.

Definition set_states (self : NeuroEngine) (sts : gmap string VariableState) :=
  {| config := config self; _variables := _variables self;
     _rules := _rules self; _constraints := _constraints self;
     _states := sts;
     _var_to_input_rules := _var_to_input_rules self;
     _var_to_output_rules := _var_to_output_rules self |}.

Definition set_rules (self : NeuroEngine) (rs : gmap string Rule) :=
  {| config := config self; _variables := _variables self;
     _rules := rs; _constraints := _constraints self;
     _states := _states self;
     _var_to_input_rules := _var_to_input_rules self;
     _var_to_output_rules := _var_to_output_rules self |}.

(** [if var in index: index[var].append(rule_id)] *)
Definition index_append (index : gmap string (list string))
    (var rule_id : string) : gmap string (list string) :=
  match index !! var with
  | Some ids => <[var := ids ++ [rule_id]]> index
  | None => index
  end.

Definition load_variable (self : NeuroEngine) (nv : string * VariableDecl) :=
  let '(name, var) := nv in
  let prior := default (1 # 2) (v_prior var) in
  {| config := config self;
     _variables := ODict.set name var (_variables self);
     _rules := _rules self; _constraints := _constraints self;
     _states := <[name := {| value := prior; lower := 0; upper := 1;
                             locked := default false (v_locked var);
                             gradient := 0 |}]> (_states self);
     _var_to_input_rules := <[name := []]> (_var_to_input_rules self);
     _var_to_output_rules := <[name := []]> (_var_to_output_rules self) |}.

Definition load_rule (self : NeuroEngine) (rule : Rule) :=
  let rule_id := r_id rule in
  {| config := config self; _variables := _variables self;
     _rules := <[rule_id := rule]> (_rules self);
     _constraints := _constraints self; _states := _states self;
     _var_to_input_rules :=
       fold_left (λ index input_var, index_append index input_var rule_id)
         (default [] (r_inputs rule)) (_var_to_input_rules self);
     _var_to_output_rules :=
       match r_output rule with
       | Some output_var =>
           if String.eqb output_var "" then _var_to_output_rules self
           else index_append (_var_to_output_rules self) output_var rule_id
       | None => _var_to_output_rules self
       end |}.

Definition load_constraint (self : NeuroEngine) (constraint : Constraint) :=
  {| config := config self; _variables := _variables self;
     _rules := _rules self;
     _constraints := ODict.set (c_id constraint) constraint (_constraints self);
     _states := _states self;
     _var_to_input_rules := _var_to_input_rules self;
     _var_to_output_rules := _var_to_output_rules self |}.

Definition _load (self : NeuroEngine) (schema : NeuroJSON) : NeuroEngine :=
  let self := fold_left load_variable (variables schema) self in
  let self := fold_left load_rule (rules schema) self in
  fold_left load_constraint (constraints schema) self.

(** [NeuroEngine.__init__] *)
Definition init (schema : NeuroJSON) (cfg : option EngineConfig) : NeuroEngine :=
  _load {| config := default create_default_config cfg;
           _variables := []; _rules := ∅; _constraints := [];
           _states := ∅; _var_to_input_rules := ∅;
           _var_to_output_rules := ∅ |} schema.

Definition _reset_to_priors (self : NeuroEngine) : result NeuroEngine :=
  sts ← for_each (λ sts '(name, var),
      match sts !! name with
      | None => Raise (KeyError name)
      | Some state =>
          let state := with_value state (default (1 # 2) (v_prior var)) in
          let state := with_locked state (default false (v_locked var)) in
          Ok (<[name := state]> sts)
      end) (_variables self) (_states self);
  Ok (set_states self sts).

Definition _get_all_values (self : NeuroEngine) : gmap string Q :=
  value <$> _states self.

(** The evidence loop of [run]; each entry touches its own key only. *)
Definition lock_evidence (evidence : option Evidence)
    (sts : gmap string VariableState) : gmap string VariableState :=
  match evidence with
  | None => sts
  | Some ev =>
      map_fold (λ name v sts,
        match sts !! name with
        | Some state =>
            <[name := with_locked (with_value state (clamp v)) true]> sts
        | None => sts
        end) sts ev
  end.

Definition _evaluate_rule (sts : gmap string VariableState) (rule : Rule)
    : result (option Q) :=
  match mapM (λ input_name, value <$> sts !! input_name)
             (default [] (r_inputs rule)) with
  | None => Ok None
  | Some input_values =>
      let rule_type := default "IMPLICATION"%string (r_type rule) in
      let op := default "IDENTITY"%string (r_op rule) in
      let weight := default 1 (r_weight rule) in
      if String.eqb rule_type "IMPLICATION" then
        antecedent ← apply_operation op input_values None;
        Ok (Some (clamp (antecedent * weight)))
      else if String.eqb rule_type "CONJUNCTION" then
        Ok (Some (clamp (fuzzy_and input_values * weight)))
      else if String.eqb rule_type "DISJUNCTION" then
        Ok (Some (clamp (fuzzy_or input_values * weight)))
      else if String.eqb rule_type "EQUIVALENCE" then
        match input_values with
        | a :: b :: _ => Ok (Some (clamp (equivalent a b * weight)))
        | [a] => Ok (Some (clamp (a * weight)))
        | [] => Ok (Some (clamp ((1 # 2) * weight)))
        end
      else Ok None
  end.

(** The inner loop of [_forward_pass] over the rules that output to one
    variable: the parallel lists [contributions] and [weights]. *)
Definition collect_contributions (self : NeuroEngine)
    (sts : gmap string VariableState) (rule_ids : list string)
    : result (list Q * list Q) :=
  for_each (λ '(contributions, weights) rule_id,
      match _rules self !! rule_id with
      | None => Raise (KeyError rule_id)
      | Some rule =>
          rule_value ← _evaluate_rule sts rule;
          match rule_value with
          | Some v =>
              Ok (contributions ++ [v], weights ++ [default 1 (r_weight rule)])
          | None => Ok (contributions, weights)
          end
      end) rule_ids ([], []).

(** The body of the loop of [_forward_pass] for one variable. *)
Definition forward_var (self : NeuroEngine)
    (acc : gmap string VariableState * Q) (var_name : string)
    : result (gmap string VariableState * Q) :=
  let '(sts, max_delta) := acc in
  match default [] (_var_to_output_rules self !! var_name) with
  | [] => Ok acc
  | rule_ids =>
      match sts !! var_name with
      | None => Raise (KeyError var_name)
      | Some state =>
          if locked state then Ok acc
          else
            '(contributions, weights) ← collect_contributions self sts rule_ids;
            match contributions with
            | [] => Ok acc
            | _ =>
                let old_value := value state in
                let total_weight := py_sum weights in
                let weighted_sum :=
                  py_sum (map (λ cw, cw.1 * cw.2) (combine contributions weights)) in
                let new_contribution :=
                  if Qlt_bool 0 total_weight then weighted_sum / total_weight
                  else 1 # 2 in
                let damped_value :=
                  damping_factor (config self) * new_contribution +
                  (1 - damping_factor (config self)) * old_value in
                Ok (<[var_name := with_value state (clamp damped_value)]> sts,
                    py_max max_delta (Qabs (damped_value - old_value)))
            end
      end
  end.

Definition _forward_pass (self : NeuroEngine) : result (NeuroEngine * Q) :=
  '(sts, max_delta) ←
    for_each (forward_var self) (ODict.keys (_variables self)) (_states self, 0);
  Ok (set_states self sts, max_delta).

Definition targets_of (constraint : Constraint) : list string :=
  match default (TStr "") (c_target constraint) with
  | TStr target => [target]
  | TList target => target
  end.

(** The common body of [_apply_attack] (with [f := inhibit]) and
    [_apply_support] (with [f := support]).  [source_state] is the object
    stored under [source]: its value is read again at every target. *)
Definition apply_to_targets (f : Q → Q → Q → Q) (constraint : Constraint)
    (sts : gmap string VariableState) : gmap string VariableState * Q :=
  let source := default ""%string (c_source constraint) in
  match sts !! source with
  | None => (sts, 0)
  | Some source_state =>
      let weight := default 1 (c_weight constraint) in
      fold_left (λ '(sts, max_delta) target_name,
          match sts !! target_name with
          | None => (sts, max_delta)
          | Some target_state =>
              if locked target_state then (sts, max_delta)
              else
                let old_value := value target_state in
                let source_value :=
                  default (value source_state) (value <$> sts !! source) in
                let new_value := f old_value source_value weight in
                (<[target_name := with_value target_state new_value]> sts,
                 py_max max_delta (Qabs (new_value - old_value)))
          end) (targets_of constraint) (sts, 0)
  end.

Definition _apply_attack := apply_to_targets inhibit.
Definition _apply_support := apply_to_targets support.

Definition constraint_step (acc : gmap string VariableState * Q)
    (constraint : Constraint) : gmap string VariableState * Q :=
  let '(sts, max_delta) := acc in
  let c_type := default ""%string (c_type constraint) in
  if String.eqb c_type "ATTACK" then
    let '(sts, delta) := _apply_attack constraint sts in
    (sts, py_max max_delta delta)
  else if String.eqb c_type "SUPPORT" then
    let '(sts, delta) := _apply_support constraint sts in
    (sts, py_max max_delta delta)
  else acc.

Definition _apply_constraints (self : NeuroEngine) : NeuroEngine * Q :=
  let '(sts, max_delta) :=
    fold_left constraint_step (ODict.values (_constraints self))
              (_states self, 0) in
  (set_states self sts, max_delta).

(** The inference loop of [run]; the second component counts the
    iterations that were performed. *)
Fixpoint inference_loop (self : NeuroEngine) (n : nat)
    : result (NeuroEngine * nat) :=
  match n with
  | O => Ok (self, O)
  | S n' =>
      '(self, rule_delta) ← _forward_pass self;
      let '(self, constraint_delta) := _apply_constraints self in
      let total_delta := py_max rule_delta constraint_delta in
      if Qlt_bool total_delta (convergence_threshold (config self))
      then Ok (self, 1%nat)
      else '(self, k) ← inference_loop self n'; Ok (self, S k)
  end.

(** [x or y] on integers. *)
Definition int_or (x : option Z) (y : Z) : Z :=
  match x with
  | Some i => if Z.eqb i 0 then y else i
  | None => y
  end.

(** [run], also returning the number of iterations performed. *)
Definition run_counting (self : NeuroEngine) (evidence : option Evidence)
    (iterations : option Z) : result (NeuroEngine * InferenceOutput * nat) :=
  let max_iter := int_or iterations (max_iterations (config self)) in
  self ← _reset_to_priors self;
  let self := set_states self (lock_evidence evidence (_states self)) in
  '(self, k) ← inference_loop self (Z.to_nat max_iter);
  Ok (self, _get_all_values self, k).

Definition run (self : NeuroEngine) (evidence : option Evidence)
    (iterations : option Z) : result (NeuroEngine * InferenceOutput) :=
  '(self, output, _) ← run_counting self evidence iterations;
  Ok (self, output).

Definition query (self : NeuroEngine) (variable : string)
    (evidence : option Evidence) : result (NeuroEngine * Q) :=
  '(self, output) ← run self evidence None;
  Ok (self, default (1 # 2) (output !! variable)).

Definition with_weight (rule : Rule) (w : Q) : Rule :=
  {| r_id := r_id rule; r_type := r_type rule; r_inputs := r_inputs rule;
     r_output := r_output rule; r_op := r_op rule; r_weight := Some w;
     r_learnable := r_learnable rule |}.

Definition _update_weights (self : NeuroEngine) (target_var : string)
    (error : Q) (inputs : Evidence) : NeuroEngine :=
  let rule_ids := default [] (_var_to_output_rules self !! target_var) in
  fold_left (λ self rule_id,
      match _rules self !! rule_id with
      | None => self
      | Some rule =>
          match r_learnable rule with
          | Some false => self
          | _ =>
              let rule_inputs := default [] (r_inputs rule) in
              let input_strength :=
                fold_left (λ acc input_name,
                    acc + default
                            (value (default VariableState_default
                                      (_states self !! input_name)))
                            (inputs !! input_name))
                  rule_inputs 0 in
              let input_strength :=
                input_strength /
                  match rule_inputs with [] => 1 | _ => py_len rule_inputs end in
              let delta := error * learning_rate (config self) * input_strength in
              let new_weight := clamp (default 1 (r_weight rule) + delta) in
              set_rules self (<[rule_id := with_weight rule new_weight]> (_rules self))
          end
      end) rule_ids self.

(** The body of the loop over [data] in [train]. *)
Definition train_example (acc : NeuroEngine * Q) (example : TrainingData)
    : result (NeuroEngine * Q) :=
  let '(self, epoch_loss) := acc in
  '(self, output) ← run self (Some (inputs example)) None;
  Ok (fold_left (λ '(self, epoch_loss) '(target_var, target_value),
          let actual_value := default (1 # 2) (output !! target_var) in
          let error := target_value - actual_value in
          (_update_weights self target_var error (inputs example),
           epoch_loss + error * error))
        (targets example) (self, epoch_loss)).

Fixpoint train_epochs (self : NeuroEngine) (data : list TrainingData)
    (n : nat) (final_loss : Q) : result (NeuroEngine * Q) :=
  match n with
  | O => Ok (self, final_loss)
  | S n' =>
      '(self, epoch_loss) ← for_each train_example data (self, 0);
      let epoch_loss :=
        epoch_loss / match data with [] => 1 | _ => py_len data end in
      if Qlt_bool epoch_loss (1 # 1000) then Ok (self, epoch_loss)
      else train_epochs self data n' epoch_loss
  end.

Definition train (self : NeuroEngine) (data : list TrainingData)
    (epochs : Z) : result (NeuroEngine * Q) :=
  train_epochs self data (Z.to_nat epochs) 0.

(** *** Export and accessors *)

Definition export_state (self : NeuroEngine) : gmap string Q :=
  _get_all_values self.

Definition get_variables (self : NeuroEngine) : list string :=
  ODict.keys (_variables self).

(** [rule.get("weight") if rule else None]: a stored rule is never an empty
    dictionary, it has its identifier. *)
Definition get_rule_weight (self : NeuroEngine) (rule_id : string) : option Q :=
  match _rules self !! rule_id with
  | Some rule => r_weight rule
  | None => None
  end.

Definition set_rule_weight (self : NeuroEngine) (rule_id : string) (weight : Q)
    : NeuroEngine * bool :=
  match _rules self !! rule_id with
  | Some rule =>
      (set_rules self (<[rule_id := with_weight rule (clamp weight)]> (_rules self)),
       true)
  | None => (self, false)
  end.

Definition get_value (self : NeuroEngine) (variable : string) : option Q :=
  match _states self !! variable with
  | Some state => Some (value state)
  | None => None
  end.

Definition set_value (self : NeuroEngine) (variable : string) (v : Q)
    : NeuroEngine * bool :=
  match _states self !! variable with
  | Some state =>
      if locked state then (self, false)
      else (set_states self
              (<[variable := with_value state (clamp v)]> (_states self)),
            true)
  | None => (self, false)
  end.

Definition lock_variable (self : NeuroEngine) (variable : string) (v : Q)
    : NeuroEngine * bool :=
  match _states self !! variable with
  | Some state =>
      (set_states self
         (<[variable := with_locked (with_value state (clamp v)) true]>
            (_states self)),
       true)
  | None => (self, false)
  end.

End Engine.

(** ** models.py (the fields the bridge reads) and neuro_service.py *)

Module Service.

Import Logic Types Engine.
Local Open Scope Q_scope.

Record Node := {
  n_id : string;
  n_truth_value : Q;
  n_prior : Q;
  n_is_locked : bool;
}.

Record LogicMeta := {
  lm_type : string;
  lm_weight : Q;
  lm_op : string;
  lm_learnable : bool;
}.

Record Association := {
  a_id : string;
  a_source_id : string;
  a_target_id : string;
  a_relation : string;
  a_logic_meta : option LogicMeta;
}.

Record ContextGraph := {
  nodes : list (string * Node);
  associations : list (string * Association);
  center_node_id : string;
}.

(** [NeuroService]: the configuration dictionary has the four keys of
    [EngineConfig]; the storage handle [db] is not used by the synchronous
    methods below. *)
Record NeuroService := {
  svc_config : EngineConfig;
}.

(** [NeuroService.__init__] *)
Definition create_neuro_service : NeuroService :=
  {| svc_config := {| max_iterations := 50; convergence_threshold := 1 # 1000;
                      learning_rate := 1 # 10; damping_factor := 1 # 2 |} |}.

Definition extract_context (nodes : list Node) (associations : list Association)
    (center_node_id : string) : ContextGraph :=
  {| nodes := ODict.of_items (map (λ n, (n_id n, n)) nodes);
     associations := ODict.of_items (map (λ a, (a_id a, a)) associations);
     center_node_id := center_node_id |}.

(** The slice [s[n:]]. *)
Fixpoint str_drop (n : nat) (s : string) : string :=
  match n, s with
  | O, _ => s
  | S n', String _ s' => str_drop n' s'
  | S _, EmptyString => EmptyString
  end.

(** The slice [s[:n]].  A string is its sequence of bytes here, so this is
    Python's slice on ASCII identifiers; on others Python counts code
    points. *)
Definition str_take (n : nat) (s : string) : string := substring 0 n s.

(** [str(n)] for a counter. *)
Definition str_of_nat (n : nat) : string :=
  NilEmpty.string_of_uint (Nat.to_uint n).

Definition _node_to_var_name (node : Node) : string :=
  ("node_" ++ n_id node)%string.

Definition _var_name_to_node_id (var_name : string) : string :=
  if String.prefix "node_" var_name then str_drop 5 var_name else var_name.

(** The loop state of [to_neuro_json]. *)
Record Conversion := {
  cv_rules : list Rule;
  cv_constraints : list Constraint;
  rule_counter : nat;
  constraint_counter : nat;
}.

Definition convert_association (context : ContextGraph) (cv : Conversion)
    (kv : string * Association) : Conversion :=
  let assoc := kv.2 in
  match a_logic_meta assoc with
  | None => cv
  | Some logic =>
      match ODict.get (a_source_id assoc) (nodes context),
            ODict.get (a_target_id assoc) (nodes context) with
      | Some source_node, Some target_node =>
          let source_var := _node_to_var_name source_node in
          let target_var := _node_to_var_name target_node in
          let suffix := str_take 8 (a_id assoc) in
          let mk_rule (prefix : string) (n : nat) (w : Q) : Rule :=
            {| r_id := (prefix ++ str_of_nat n ++ "_" ++ suffix)%string;
               r_type := Some "IMPLICATION"%string;
               r_inputs := Some [source_var];
               r_output := Some target_var;
               r_op := Some (lm_op logic);
               r_weight := Some w;
               r_learnable := Some (lm_learnable logic) |} in
          let mk_constraint (prefix kind : string) (n : nat) : Constraint :=
            {| c_id := (prefix ++ str_of_nat n ++ "_" ++ suffix)%string;
               c_type := Some kind;
               c_source := Some source_var;
               c_target := Some (TStr target_var);
               c_weight := Some (lm_weight logic) |} in
          if String.eqb (lm_type logic) "IMPLIES" then
            let n := S (rule_counter cv) in
            {| cv_rules := cv_rules cv ++ [mk_rule "rule_" n (lm_weight logic)];
               cv_constraints := cv_constraints cv;
               rule_counter := n;
               constraint_counter := constraint_counter cv |}
          else if String.eqb (lm_type logic) "ATTACKS" then
            let n := S (constraint_counter cv) in
            {| cv_rules := cv_rules cv;
               cv_constraints :=
                 cv_constraints cv ++ [mk_constraint "attack_" "ATTACK" n];
               rule_counter := rule_counter cv;
               constraint_counter := n |}
          else if String.eqb (lm_type logic) "SUPPORTS" then
            let n := S (constraint_counter cv) in
            {| cv_rules := cv_rules cv;
               cv_constraints :=
                 cv_constraints cv ++ [mk_constraint "support_" "SUPPORT" n];
               rule_counter := rule_counter cv;
               constraint_counter := n |}
          else if String.eqb (lm_type logic) "DEPENDS" then
            let n := S (rule_counter cv) in
            {| cv_rules :=
                 cv_rules cv ++ [mk_rule "depends_" n (lm_weight logic * (1 # 2))];
               cv_constraints := cv_constraints cv;
               rule_counter := n;
               constraint_counter := constraint_counter cv |}
          else cv
      | _, _ => cv
      end
  end.

Definition to_neuro_json (context : ContextGraph) : NeuroJSON :=
  let variables :=
    fold_left (λ variables kv,
        ODict.set (_node_to_var_name kv.2)
          {| v_type := Some "bool"%string; v_prior := Some (n_prior kv.2);
             v_description := None; v_locked := Some (n_is_locked kv.2) |}
          variables) (nodes context) [] in
  let cv :=
    fold_left (convert_association context) (associations context)
      {| cv_rules := []; cv_constraints := [];
         rule_counter := 0; constraint_counter := 0 |} in
  {| version := Some "1.0"%string;
     name := Some ("context_" ++ str_take 8 (center_node_id context))%string;
     variables := variables;
     rules := cv_rules cv;
     constraints := cv_constraints cv |}.

(** The evidence translation of [run_inference]: node ids to variable
    names, dropping the ids that name no variable of the schema. *)
Definition to_var_evidence (schema : NeuroJSON) (evidence : option (gmap string Q))
    : gmap string Q :=
  match evidence with
  | None => ∅
  | Some ev =>
      map_fold (λ node_id v var_evidence,
          let var_name := ("node_" ++ node_id)%string in
          if ODict.get var_name (variables schema) is Some _
          then <[var_name := v]> var_evidence
          else var_evidence) ∅ ev
  end.

(** The result translation of [run_inference]. *)
Definition to_node_results (result : gmap string Q) : gmap string Q :=
  map_fold (λ var_name v node_results,
      <[_var_name_to_node_id var_name := v]> node_results) ∅ result.

(** The engine that [run_inference] builds for a context. *)
Definition engine_for (self : NeuroService) (context : ContextGraph)
    (iterations : option Z) : NeuroEngine :=
  Engine.init (to_neuro_json context)
    (Some {| max_iterations := int_or iterations (max_iterations (svc_config self));
             convergence_threshold := convergence_threshold (svc_config self);
             learning_rate := learning_rate (svc_config self);
             damping_factor := damping_factor (svc_config self) |}).

Definition run_inference (self : NeuroService) (context : ContextGraph)
    (evidence : option (gmap string Q)) (iterations : option Z)
    : result (gmap string Q) :=
  let schema := to_neuro_json context in
  let engine := engine_for self context iterations in
  let var_evidence := to_var_evidence schema evidence in
  '(_, result) ← run engine (Some var_evidence) iterations;
  Ok (to_node_results result).


(** [run_local_inference]: inference without a database, with a fresh
    service and the first node as centre. *)
Definition run_local_inference (nodes : list Node)
    (associations : list Association) (evidence : option (gmap string Q))
    : result (gmap string Q) :=
  match nodes with
  | [] => Ok ∅
  | first :: _ =>
      run_inference create_neuro_service
        (extract_context nodes associations (n_id first)) evidence None
  end.

End Service.

(** ** Concrete schemas and graphs used below *)

Module Scenarios.

Import Types Engine Service.
Local Open Scope string_scope.

Definition var_decl (p : Q) : VariableDecl :=
  {| v_type := Some "bool"; v_prior := Some p;
     v_description := None; v_locked := None |}.

Definition rule_of (id type : string) (ins : list string) (out op : string)
    (w : Q) : Rule :=
  {| r_id := id; r_type := Some type; r_inputs := Some ins;
     r_output := Some out; r_op := Some op; r_weight := Some w;
     r_learnable := None |}.

Definition schema_of (vars : list (string * VariableDecl)) (rs : list Rule)
    (cs : list Constraint) : NeuroJSON :=
  {| version := Some "1.0"; name := None;
     variables := vars; rules := rs; constraints := cs |}.

(** Variables [A] (prior 0.3) and [B] (prior 0.1) and one rule from [A] to
    [B], with the rule's type, inputs, operator and weight left open. *)
Definition a_to_b (type : string) (ins : list string) (op : string) (w : Q) :=
  schema_of [("A", var_decl (3 # 10)); ("B", var_decl (1 # 10))]
            [rule_of "a_to_b" type ins "B" op w] [].

(** The single-implication scenario: [A -> B], [op=IDENTITY], weight 0.9. *)
Definition single_implication : NeuroJSON :=
  a_to_b "IMPLICATION" ["A"] "IDENTITY" (9 # 10).

(** One variable whose declared prior is 1.5, no rules, no constraints. *)
Definition prior_above_one : NeuroJSON :=
  schema_of [("v", var_decl (3 # 2))] [] [].

(** A schema with an unresolved input name, an undeclared rule type, an
    undeclared output and constraints over unknown names. *)
Definition partial_subgraph : NeuroJSON :=
  schema_of [("A", var_decl (3 # 10)); ("B", var_decl (1 # 10))]
            [rule_of "r1" "IMPLICATION" ["A"; "missing"] "B" "and" (9 # 10);
             rule_of "r2" "CAUSES" ["A"] "B" "IDENTITY" 1;
             rule_of "r3" "IMPLICATION" ["A"] "ghost" "IDENTITY" 1;
             rule_of "r4" "IMPLICATION" ["A"] "B" "Weighted" (1 # 2)]
            [{| c_id := "c1"; c_type := Some "ATTACK"; c_source := Some "nobody";
                c_target := Some (TStr "B"); c_weight := None |};
             {| c_id := "c2"; c_type := Some "SUPPORT"; c_source := Some "A";
                c_target := Some (TList ["B"; "nobody"]); c_weight := Some (1 # 2) |};
             {| c_id := "c3"; c_type := Some "MUTEX"; c_source := Some "A";
                c_target := Some (TList ["A"; "B"]); c_weight := None |}].

(** The rule of [single_implication] with its output renamed to a variable
    that is not declared. *)
Definition ghost_rule : Rule :=
  rule_of "a_to_ghost" "IMPLICATION" ["A"] "ghost" "IDENTITY" (1 # 2).

(** The engine of the single-implication scenario with the default
    configuration, and the evidence [{A: 1.0}]. *)
Definition engine_ab : NeuroEngine := init single_implication None.
Definition evidence_a : option (gmap string Q) := Some {["A" := 1%Q]}.

(** The same two variables with a rule of weight 0 into [B]. *)
Definition engine_zero_weight : NeuroEngine :=
  init (a_to_b "IMPLICATION" ["A"] "IDENTITY" 0) None.

(** The same two variables with an equivalence rule without inputs. *)
Definition equivalence_no_inputs : Rule :=
  rule_of "a_to_b" "EQUIVALENCE" [] "B" "IDENTITY" 1.
Definition engine_equivalence : NeuroEngine :=
  init (a_to_b "EQUIVALENCE" [] "IDENTITY" 1) None.

(** The same two variables with an operator that is not dispatched. *)
Definition engine_xor : NeuroEngine :=
  init (a_to_b "IMPLICATION" ["A"] "XOR" (9 # 10)) None.

(** The single-implication schema with a second rule whose output is not
    declared. *)
Definition with_ghost_rule : NeuroJSON :=
  schema_of [("A", var_decl (3 # 10)); ("B", var_decl (1 # 10))]
            [rule_of "a_to_b" "IMPLICATION" ["A"] "B" "IDENTITY" (9 # 10);
             rule_of "a_to_ghost" "IMPLICATION" ["A"] "ghost" "IDENTITY" (1 # 2)]
            [].

(** Two rules that share the identifier [x]: the first outputs to [B], the
    second, loaded later, outputs to the undeclared [ghost]. *)
Definition rule_x_to_b : Rule :=
  rule_of "x" "IMPLICATION" ["A"] "B" "IDENTITY" (9 # 10).
Definition rule_x_to_ghost : Rule :=
  rule_of "x" "IMPLICATION" ["A"] "ghost" "IDENTITY" (1 # 2).
Definition shared_rule_id : NeuroJSON :=
  schema_of [("A", var_decl (3 # 10)); ("B", var_decl (1 # 10))]
            [rule_x_to_b; rule_x_to_ghost] [].
Definition shared_rule_id_without : NeuroJSON :=
  schema_of [("A", var_decl (3 # 10)); ("B", var_decl (1 # 10))]
            [rule_x_to_b] [].

Definition one_example : TrainingData :=
  {| inputs := {["A" := 1%Q]}; targets := [("B", 19 # 20); ("ghost", 1%Q)] |}.

Definition node_of (id : string) (p : Q) : Node :=
  {| n_id := id; n_truth_value := p; n_prior := p; n_is_locked := false |}.

(** Two unconnected nodes; the centre is [a]. *)
Definition two_nodes : ContextGraph :=
  extract_context [node_of "a" (1 # 5); node_of "b" (4 # 5)] [] "a".

End Scenarios.


(** ** Vocabulary of the statements *)

Module Spec.

Import Logic Types Engine.
Local Open Scope Q_scope.

(** [sts'] is reachable from [sts] by inference passes: the same variables
    are present, no [locked] flag has changed, and a state that differs from
    the original belongs to an unlocked variable and holds a truth value. *)
Definition evolves (sts sts' : gmap string VariableState) : Prop :=
  ∀ k, option_Forall2
         (λ st st', locked st' = locked st ∧
                    (st' = st ∨ (locked st = false ∧ 0 <= value st' <= 1)))
         (sts !! k) (sts' !! k).

(** [evolves] on the accumulator (states, delta) of the pass loops. *)
Definition evolves_acc (a b : gmap string VariableState * Q) : Prop :=
  evolves a.1 b.1.

(** All fields of the engine except the variable states are the same. *)
Definition same_static (self self' : NeuroEngine) : Prop :=
  self' = set_states self (_states self').

(** The invariant that [_load] establishes: the iterated variables are the
    stored states, and the output index refers to stored rules. *)
Record wf (self : NeuroEngine) : Prop := {
  wf_nodup : NoDup (ODict.keys (_variables self));
  wf_states : ∀ k, is_Some (_states self !! k) ↔ k ∈ ODict.keys (_variables self);
  wf_index : ∀ v ids id,
    _var_to_output_rules self !! v = Some ids → id ∈ ids →
    is_Some (_rules self !! id);
}.

(** The state that [_load] and [_reset_to_priors] give to a declaration. *)
Definition prior_state (var : VariableDecl) : VariableState :=
  {| value := default (1 # 2) (v_prior var); lower := 0; upper := 1;
     locked := default false (v_locked var); gradient := 0 |}.

(** The states are the prior states of the iterated declarations, and the
    output index has an entry for every state. *)
Definition vars_loaded (self : NeuroEngine) : Prop :=
  NoDup (ODict.keys (_variables self)) ∧
  (∀ k, _states self !! k = prior_state <$> ODict.get k (_variables self)) ∧
  (∀ k, is_Some (_var_to_output_rules self !! k) ↔ is_Some (_states self !! k)).

(** The rules of the index and of the rule table come from the list [rs]. *)
Definition rules_loaded (rs : list Rule) (self : NeuroEngine) : Prop :=
  (∀ v ids id, _var_to_output_rules self !! v = Some ids → id ∈ ids →
     is_Some (_rules self !! id) ∧
     ∃ r, r ∈ rs ∧ r_id r = id ∧ r_output r = Some v) ∧
  (∀ id r, _rules self !! id = Some r → r ∈ rs ∧ r_id r = id).

(** The declaration of a variable in a schema (a later entry of the same
    name replaces an earlier one, as in a dictionary). *)
Definition declared (schema : NeuroJSON) (v : string) : option VariableDecl :=
  ODict.get v (ODict.of_items (variables schema)).

Definition priors_in_range (schema : NeuroJSON) : Prop :=
  ∀ k var, (k, var) ∈ variables schema →
           0 <= default (1 # 2) (v_prior var) <= 1.

(** The operator names that [apply_operation] dispatches on. *)
Definition known_op (op : string) : bool :=
  bool_decide (str_upper op ∈ ["IDENTITY"; "AND"; "OR"; "NOT"; "WEIGHTED"]%string).

(** [str.isascii()]: every character is below 128. *)
Definition isascii (s : string) : bool :=
  forallb (λ c, (nat_of_ascii c <? 128)%nat) (list_ascii_of_string s).

(** Every rule that is evaluated as an implication names a known operator. *)
Definition ops_known (rs : list Rule) : Prop :=
  ∀ rule, rule ∈ rs →
    default "IMPLICATION"%string (r_type rule) = "IMPLICATION"%string →
    known_op (default "IDENTITY"%string (r_op rule)) = true.

(** An engine on which the passes cannot fail: the iterated variables have
    states, and the output index refers to stored rules whose operator, when
    the rule is evaluated as an implication, is known. *)
Definition runnable (self : NeuroEngine) : Prop :=
  (∀ k, k ∈ ODict.keys (_variables self) → is_Some (_states self !! k)) ∧
  (∀ v ids id, _var_to_output_rules self !! v = Some ids → id ∈ ids →
     ∃ rule, _rules self !! id = Some rule ∧
       (default "IMPLICATION"%string (r_type rule) = "IMPLICATION"%string →
        known_op (default "IDENTITY"%string (r_op rule)) = true)).

(** Two computations that may raise end alike: in related results, or in
    the same exception. *)
Definition result_rel {A B} (R : A → B → Prop) (r1 : result A) (r2 : result B)
    : Prop :=
  match r1, r2 with
  | Ok a, Ok b => R a b
  | Raise x, Raise y => x = y
  | _, _ => False
  end.

(** What the caller of [run] receives: the returned map, or the exception. *)
Definition returned {A B} (r : result (A * B)) : result B :=
  '(_, b) ← r; Ok b.

(** The schema with its list of rules replaced. *)
Definition with_rules (schema : NeuroJSON) (rs : list Rule) : NeuroJSON :=
  {| version := version schema; name := name schema;
     variables := variables schema; rules := rs;
     constraints := constraints schema |}.

(** The effect of [load_rule] on the output index. *)
Definition index_output (index : gmap string (list string)) (rule : Rule)
    : gmap string (list string) :=
  match r_output rule with
  | Some output_var =>
      if String.eqb output_var "" then index
      else index_append index output_var (r_id rule)
  | None => index
  end.

(** No list of the output index mentions the rule identifier [id]. *)
Definition unindexed (self : NeuroEngine) (id : string) : Prop :=
  ∀ v ids, _var_to_output_rules self !! v = Some ids → id ∉ ids.

(** Two engines that agree on everything the inference reads: they may
    differ in the input index and in rules the output index never mentions. *)
Definition sim (e1 e2 : NeuroEngine) : Prop :=
  config e1 = config e2 ∧
  _variables e1 = _variables e2 ∧
  _constraints e1 = _constraints e2 ∧
  _states e1 = _states e2 ∧
  _var_to_output_rules e1 = _var_to_output_rules e2 ∧
  ∀ v ids id, _var_to_output_rules e1 !! v = Some ids → id ∈ ids →
              _rules e1 !! id = _rules e2 !! id.

(** The engine of [_load] after its first loop, over the variables. *)
Definition loaded_variables (schema : NeuroJSON) (cfg : option EngineConfig)
    : NeuroEngine :=
  fold_left load_variable (variables schema)
    {| config := default create_default_config cfg;
       _variables := []; _rules := ∅; _constraints := [];
       _states := ∅; _var_to_input_rules := ∅;
       _var_to_output_rules := ∅ |}.

(** [b] has the output index of [a] and the same rule under [id]. *)
Definition keeps (id : string) (a b : NeuroEngine) : Prop :=
  _var_to_output_rules b = _var_to_output_rules a ∧
  _rules b !! id = _rules a !! id.

(** [keeps] along a training step, for an identifier outside the index. *)
Definition keeps_unindexed (id : string) (a b : NeuroEngine * Q) : Prop :=
  unindexed a.1 id → keeps id a.1 b.1.


(** The value that an optional evidence map gives to a variable. *)
Definition evidence_of (evidence : option Evidence) (v : string) : option Q :=
  evidence ≫= (λ ev, ev !! v).

(** The engine of [run] after the reset and the locking of the evidence. *)
Definition run_start (self : NeuroEngine) (evidence : option Evidence)
    : result NeuroEngine :=
  self ← _reset_to_priors self;
  Ok (set_states self (lock_evidence evidence (_states self))).

End Spec.

(** ** Vocabulary of the further statements *)

Module Notions.

Import Logic Types Engine Service Spec.
Local Open Scope Q_scope.

(** The fields [lower], [upper] and [gradient] of every state are kept. *)
Definition frame_kept (sts sts' : gmap string VariableState) : Prop :=
  ∀ k, option_Forall2
         (λ st st', lower st' = lower st ∧ upper st' = upper st ∧
                    gradient st' = gradient st)
         (sts !! k) (sts' !! k).

Definition frame_kept_acc (a b : gmap string VariableState * Q) : Prop :=
  frame_kept a.1 b.1.

(** The engines that a caller can reach from a freshly constructed one by
    [run], [set_value] and [lock_variable]. *)
Inductive used (schema : NeuroJSON) (cfg : option EngineConfig)
    : NeuroEngine → Prop :=
| used_init : used schema cfg (init schema cfg)
| used_run self evidence iterations self' out :
    used schema cfg self →
    run self evidence iterations = Ok (self', out) →
    used schema cfg self'
| used_set_value self variable v :
    used schema cfg self → used schema cfg (set_value self variable v).1
| used_lock_variable self variable v :
    used schema cfg self → used schema cfg (lock_variable self variable v).1.

(** The state of [v] is the same in both accumulators of a pass. *)
Definition stable_at (v : string) (a b : gmap string VariableState * Q) : Prop :=
  b.1 !! v = a.1 !! v.

(** The constraint kinds that [_apply_constraints] acts on. *)
Definition is_active (constraint : Constraint) : bool :=
  String.eqb (default ""%string (c_type constraint)) "ATTACK" ||
  String.eqb (default ""%string (c_type constraint)) "SUPPORT".

(** No rule is indexed as writing [v], and no attack or support targets it. *)
Definition untouched (self : NeuroEngine) (v : string) : Prop :=
  default [] (_var_to_output_rules self !! v) = [] ∧
  ∀ c, c ∈ ODict.values (_constraints self) → is_active c = true →
       v ∉ targets_of c.

Definition states_in_range (sts : gmap string VariableState) : Prop :=
  ∀ k st, sts !! k = Some st → 0 <= value st <= 1.

(** The same variables with the same flags, and pointwise related values. *)
Definition values_rel (R : Q → Q → Prop) (sts sts' : gmap string VariableState)
    : Prop :=
  ∀ k, option_Forall2 (λ st st', locked st' = locked st ∧ R (value st) (value st'))
         (sts !! k) (sts' !! k).

(** The rule table [rs'] is [rs] with some weights of rules that are not
    frozen replaced by weights in [0,1]. *)
Definition retrained (rs rs' : gmap string Rule) : Prop :=
  ∀ id, option_Forall2
          (λ r r', r' = r ∨
                   (r_learnable r ≠ Some false ∧
                    ∃ w, 0 <= w <= 1 ∧ r' = with_weight r w))
          (rs !! id) (rs' !! id).

(** What training keeps: everything but the states and the rule table,
    which is [retrained]. *)
Definition trained (a b : NeuroEngine) : Prop :=
  config b = config a ∧ _variables b = _variables a ∧
  _constraints b = _constraints a ∧
  _var_to_input_rules b = _var_to_input_rules a ∧
  _var_to_output_rules b = _var_to_output_rules a ∧
  retrained (_rules a) (_rules b).

Definition trained_acc (a b : NeuroEngine * Q) : Prop := trained a.1 b.1.

(** The ids of the nodes of a context graph. *)
Definition node_ids (context : ContextGraph) : list string :=
  map (λ kv, n_id kv.2) (nodes context).

(** The rule [r] is the translation of an IMPLIES or DEPENDS edge of the
    context whose two endpoints are nodes of the context. *)
Definition rule_from_edge (context : ContextGraph) (r : Rule) : Prop :=
  ∃ a lm src dst,
    a ∈ ODict.values (associations context) ∧
    a_logic_meta a = Some lm ∧
    ODict.get (a_source_id a) (nodes context) = Some src ∧
    ODict.get (a_target_id a) (nodes context) = Some dst ∧
    r_type r = Some "IMPLICATION"%string ∧
    r_inputs r = Some [_node_to_var_name src] ∧
    r_output r = Some (_node_to_var_name dst) ∧
    r_op r = Some (lm_op lm) ∧
    r_learnable r = Some (lm_learnable lm) ∧
    ((lm_type lm = "IMPLIES"%string ∧ r_weight r = Some (lm_weight lm)) ∨
     (lm_type lm = "DEPENDS"%string ∧ r_weight r = Some (lm_weight lm * (1 # 2)))).

(** The constraint [c] is the translation of an ATTACKS or SUPPORTS edge of
    the context whose two endpoints are nodes of the context. *)
Definition constraint_from_edge (context : ContextGraph) (c : Constraint) : Prop :=
  ∃ a lm src dst,
    a ∈ ODict.values (associations context) ∧
    a_logic_meta a = Some lm ∧
    ODict.get (a_source_id a) (nodes context) = Some src ∧
    ODict.get (a_target_id a) (nodes context) = Some dst ∧
    c_source c = Some (_node_to_var_name src) ∧
    c_target c = Some (TStr (_node_to_var_name dst)) ∧
    c_weight c = Some (lm_weight lm) ∧
    ((lm_type lm = "ATTACKS"%string ∧ c_type c = Some "ATTACK"%string) ∨
     (lm_type lm = "SUPPORTS"%string ∧ c_type c = Some "SUPPORT"%string)).

End Notions.

(** ** Further concrete engines and graphs *)

Module MoreScenarios.

Import Types Engine Service Scenarios.
Local Open Scope string_scope.


(** The single-implication schema with its rule marked as not learnable. *)
Definition frozen_rule : Rule :=
  {| r_id := "a_to_b"; r_type := Some "IMPLICATION"; r_inputs := Some ["A"];
     r_output := Some "B"; r_op := Some "IDENTITY"; r_weight := Some (9 # 10);
     r_learnable := Some false |}.
Definition frozen_rule_engine : NeuroEngine :=
  init (schema_of [("A", var_decl (3 # 10)); ("B", var_decl (1 # 10))]
          [frozen_rule] []) None.

(** The single-implication schema with [A] declared locked. *)
Definition locked_decl (p : Q) : VariableDecl :=
  {| v_type := Some "bool"; v_prior := Some p;
     v_description := None; v_locked := Some true |}.
Definition locked_a : NeuroJSON :=
  schema_of [("A", locked_decl (3 # 10)); ("B", var_decl (1 # 10))]
            [rule_of "a_to_b" "IMPLICATION" ["A"] "B" "IDENTITY" (9 # 10)] [].

(** The rule of [engine_xor]. *)
Definition xor_rule : Rule :=
  rule_of "a_to_b" "IMPLICATION" ["A"] "B" "XOR" (9 # 10).

(** The bridge scenario: penguin implies bird, penguin attacks fly, and an
    edge to a node that is not part of the subgraph. *)
Definition edge (id src dst type : string) (w : Q) : Association :=
  {| a_id := id; a_source_id := src; a_target_id := dst; a_relation := type;
     a_logic_meta := Some {| lm_type := type; lm_weight := w;
                             lm_op := "IDENTITY"; lm_learnable := true |} |}.

Definition penguin : ContextGraph :=
  extract_context
    [node_of "penguin" (1 # 2); node_of "bird" (1 # 2); node_of "fly" (1 # 2)]
    [edge "e1" "penguin" "bird" "IMPLIES" (19 # 20);
     edge "e2" "penguin" "fly" "ATTACKS" (9 # 10);
     edge "e3" "penguin" "antarctica" "DEPENDS" 1]
    "penguin".

End MoreScenarios.

(** * Properties *)

Import Spec.

Lemma bind_Ok {A B} (m : result A) (k : A → result B) b :
  (m ≫= k) = Ok b → ∃ a, m = Ok a ∧ k a = Ok b.
Proof. destruct m as [a|e]; simpl; [eauto | discriminate]. Qed.


Import Logic Types Engine.
Local Open Scope Q_scope.

Lemma Qlt_bool_spec x y : reflect (x < y) (Qlt_bool x y).
Proof.
  unfold Qlt_bool. destruct (Qle_bool y x) eqn:E; simpl; constructor.
  - apply Qle_bool_iff in E. lra.
  - assert (¬ y <= x) by (intros H1; apply Qle_bool_iff in H1; congruence).
    lra.
Qed.

(** Case analysis on the comparisons of a goal, innermost first. *)
Ltac q_cases :=
  repeat match goal with
         | |- context [Qlt_bool ?a ?b] =>
             lazymatch a with
             | context [Qlt_bool _ _] => fail
             | _ =>
                 lazymatch b with
                 | context [Qlt_bool _ _] => fail
                 | _ => destruct (Qlt_bool_spec a b)
                 end
             end
         end.

Lemma clamp_range v : 0 <= clamp v <= 1.
Proof.
  unfold clamp, py_max, py_min.
  q_cases; lra.
Qed.

Lemma clamp_id v : 0 <= v <= 1 → clamp v == v.
Proof.
  intros Hv. unfold clamp, py_max, py_min.
  q_cases; lra.
Qed.

Lemma clamp_ge_1 v : 1 <= v → clamp v == 1.
Proof.
  intros Hv. unfold clamp, py_max, py_min.
  q_cases; lra.
Qed.

Lemma clamp_le_0 v : v <= 0 → clamp v == 0.
Proof.
  intros Hv. unfold clamp, py_max, py_min.
  q_cases; lra.
Qed.

#[global] Instance clamp_proper : Proper (Qeq ==> Qeq) clamp.
Proof.
  intros x y Hxy. unfold clamp, py_max, py_min.
  q_cases; lra.
Qed.

(** ** binary64 rounding *)

Section Rounding.

Import Binary64.

Lemma two_neq_0 : ¬ 2 == 0.
Proof. lra. Qed.

Lemma pow2_pos c : 0 < 2 ^ c.
Proof. apply Qpower_0_lt. lra. Qed.

Lemma pow2_plus a b : 2 ^ (a + b) == 2 ^ a * 2 ^ b.
Proof. apply Qpower_plus, two_neq_0. Qed.

Lemma pow2_cancel c : 2 ^ (- c) * 2 ^ c == 1.
Proof. rewrite <- pow2_plus. by replace (- c + c)%Z with 0%Z by lia. Qed.

Lemma pow2_Z n : (0 <= n)%Z → inject_Z (2 ^ n) == 2 ^ n.
Proof. intros Hn. by rewrite Zpower_Qpower. Qed.

Lemma pow2_le a b : (a <= b)%Z → 2 ^ a <= 2 ^ b.
Proof. intros ?. apply Qpower_le_compat_l; [done | lra]. Qed.

Lemma pow2_lt_inv a b : 2 ^ a < 2 ^ b → (a < b)%Z.
Proof. intros ?. eapply Qpower_lt_compat_l_inv; [done | lra]. Qed.

Lemma ilog2_spec x : 0 < x → 2 ^ ilog2 x <= x ∧ x < 2 ^ (ilog2 x + 1).
Proof.
  intros Hx. destruct x as [n d]. unfold ilog2. cbn [Qnum Qden].
  assert (Hn : (0 < n)%Z) by (unfold Qlt in Hx; simpl in Hx; lia).
  set (ln := Z.log2 n). set (ld := Z.log2 (Z.pos d)).
  destruct (Z.log2_spec n Hn) as [Hn1 Hn2].
  destruct (Z.log2_spec (Z.pos d)) as [Hd1 Hd2]; [lia |].
  fold ln in Hn1, Hn2. fold ld in Hd1, Hd2.
  assert (Hln : (0 <= ln)%Z) by apply Z.log2_nonneg.
  assert (Hld : (0 <= ld)%Z) by apply Z.log2_nonneg.
  rewrite Zle_Qle in Hn1, Hd1. rewrite Zlt_Qlt in Hn2, Hd2.
  rewrite pow2_Z in Hn1, Hn2, Hd1, Hd2 by lia.
  assert (Hxd : (n # d) * inject_Z (Z.pos d) == inject_Z n).
  { rewrite (Qmake_Qdiv n d). field. unfold Qeq. simpl. lia. }
  assert (HD : 0 < inject_Z (Z.pos d)) by (unfold Qlt; simpl; lia).
  set (c := (ln - ld)%Z).
  assert (Hup : n # d < 2 ^ (c + 1)).
  { assert (E : 2 ^ Z.succ ln == 2 ^ (c + 1) * 2 ^ ld)
      by (rewrite <- pow2_plus; f_equiv; unfold c; lia).
    pose proof (pow2_pos (c + 1)).
    destruct (Qlt_le_dec (n # d) (2 ^ (c + 1))) as [|Hge]; [done | exfalso].
    assert (2 ^ (c + 1) * 2 ^ ld <= (n # d) * inject_Z (Z.pos d)).
    { apply Qmult_le_compat_nonneg; split; try lra.
      apply Qlt_le_weak, pow2_pos. }
    lra. }
  assert (Hlo : 2 ^ (c - 1) < n # d).
  { assert (E : 2 ^ ln == 2 ^ (c - 1) * 2 ^ Z.succ ld)
      by (rewrite <- pow2_plus; f_equiv; unfold c; lia).
    pose proof (pow2_pos (c - 1)).
    destruct (Qlt_le_dec (2 ^ (c - 1)) (n # d)) as [|Hge]; [done | exfalso].
    assert ((n # d) * inject_Z (Z.pos d) <= 2 ^ (c - 1) * inject_Z (Z.pos d)).
    { apply Qmult_le_compat_r; lra. }
    assert (2 ^ (c - 1) * inject_Z (Z.pos d) < 2 ^ (c - 1) * 2 ^ Z.succ ld).
    { apply Qmult_lt_l; lra. }
    lra. }
  destruct (Qle_bool (2 ^ c) (n # d)) eqn:Hb.
  - apply Qle_bool_iff in Hb. done.
  - replace (c - 1 + 1)%Z with c by lia. split; [lra |].
    destruct (Qlt_le_dec (n # d) (2 ^ c)) as [|Hge]; [done |].
    apply Qle_bool_iff in Hge. congruence.
Qed.

Lemma rne_floor x : (Qfloor x <= rne x <= Qfloor x + 1)%Z.
Proof.
  unfold rne. destruct (Qcompare _ _); [destruct (Z.even _) | |]; lia.
Qed.

Lemma rne_error x : Qabs (inject_Z (rne x) - x) <= 1 # 2.
Proof.
  pose proof (Qfloor_le x) as Hlo. pose proof (Qlt_floor x) as Hhi.
  rewrite inject_Z_plus in Hhi. change (inject_Z 1) with 1 in Hhi.
  apply Qabs_Qle_condition. unfold rne.
  destruct (Qcompare_spec (x - inject_Z (Qfloor x)) (1 # 2)) as [He|Hl|Hg].
  - destruct (Z.even _); [| rewrite inject_Z_plus; change (inject_Z 1) with 1]; lra.
  - lra.
  - rewrite inject_Z_plus. change (inject_Z 1) with 1. lra.
Qed.

Lemma rne_le_int x M : x <= inject_Z M → (rne x <= M)%Z.
Proof.
  intros Hx. pose proof (Qfloor_le x) as Hlo.
  assert (Hf : (Qfloor x <= M)%Z) by (rewrite Zle_Qle; lra).
  assert (Hup : inject_Z (Qfloor x) < x → (Qfloor x + 1 <= M)%Z).
  { intros Hlt. assert ((Qfloor x < M)%Z) by (rewrite Zlt_Qlt; lra). lia. }
  unfold rne.
  destruct (Qcompare_spec (x - inject_Z (Qfloor x)) (1 # 2)) as [He|Hl|Hg].
  - destruct (Z.even _); [done |]. apply Hup. lra.
  - done.
  - apply Hup. lra.
Qed.

Lemma rne_ge_int x m : inject_Z m <= x → (m <= rne x)%Z.
Proof.
  intros Hx. pose proof (Qlt_floor x) as Hhi.
  assert ((m < Qfloor x + 1)%Z) by (rewrite Zlt_Qlt; lra).
  pose proof (rne_floor x). lia.
Qed.

Lemma rne_comp x y : x == y → rne x = rne y.
Proof.
  intros Hxy. unfold rne. rewrite (Qfloor_comp x y Hxy).
  assert (E : x - inject_Z (Qfloor y) == y - inject_Z (Qfloor y))
    by (by rewrite Hxy).
  by rewrite (Qcompare_comp _ _ E (1 # 2) (1 # 2) (Qeq_refl _)).
Qed.

Lemma round_comp x y : x == y → round x = round y.
Proof. intros Hxy. unfold round. by rewrite (Qred_complete x y Hxy). Qed.

#[global] Instance round_proper : Proper (Qeq ==> Qeq) round.
Proof. intros x y Hxy. by rewrite (round_comp x y Hxy). Qed.

(** [round x] is the multiple of [2 ^ c] nearest to [x]. *)
Lemma round_unfold x :
  round x == inject_Z (rne (x * 2 ^ (- cexp (Qred x)))) * 2 ^ cexp (Qred x).
Proof.
  unfold round. cbv zeta. etransitivity; [apply Qred_correct |].
  rewrite (rne_comp (Qred x * _) (x * 2 ^ (- cexp (Qred x)))); [reflexivity |].
  apply Qmult_comp; [apply Qred_correct | reflexivity].
Qed.

Lemma cexp_pos x :
  0 < x → ∃ e, 2 ^ e <= x ∧ x < 2 ^ (e + 1) ∧
               cexp (Qred x) = Z.max (e - 52) (-1074).
Proof.
  intros Hx. exists (ilog2 (Qabs (Qred x))).
  assert (E : Qabs (Qred x) == x) by (rewrite Qred_correct; apply Qabs_pos; lra).
  assert (Ha : Qabs (Qred x) <= x ∧ x <= Qabs (Qred x)) by (rewrite E; lra).
  destruct (ilog2_spec (Qabs (Qred x))) as [H1 H2]; [lra |].
  split; [lra | split; [lra | done]].
Qed.

Lemma round_nonneg x : 0 <= x → 0 <= round x.
Proof.
  intros Hx. rewrite round_unfold. pose proof (pow2_pos (cexp (Qred x))).
  pose proof (pow2_pos (- cexp (Qred x))).
  apply Qmult_le_0_compat; [| lra].
  change 0 with (inject_Z 0). rewrite <- Zle_Qle. apply rne_ge_int.
  change (inject_Z 0) with 0. apply Qmult_le_0_compat; lra.
Qed.

Lemma round_nonpos x : x <= 0 → round x <= 0.
Proof.
  intros Hx. rewrite round_unfold. pose proof (pow2_pos (cexp (Qred x))).
  pose proof (pow2_pos (- cexp (Qred x))) as Hp.
  assert (Hr : inject_Z (rne (x * 2 ^ (- cexp (Qred x)))) <= 0).
  { change 0 with (inject_Z 0). rewrite <- Zle_Qle. apply rne_le_int.
    change (inject_Z 0) with 0.
    assert (0 <= (- x) * 2 ^ (- cexp (Qred x))) by (apply Qmult_le_0_compat; lra).
    lra. }
  assert (0 <= (- inject_Z (rne (x * 2 ^ (- cexp (Qred x))))) * 2 ^ cexp (Qred x))
    by (apply Qmult_le_0_compat; lra).
  lra.
Qed.

Lemma round_ge_1 x : 1 <= x → 1 <= round x.
Proof.
  intros Hx. destruct (cexp_pos x) as (e & H1 & H2 & Hc); [lra |].
  rewrite round_unfold, Hc.
  assert (He : (0 <= e)%Z).
  { assert (2 ^ 0 < 2 ^ (e + 1)) by (change (2 ^ 0) with 1; lra).
    apply pow2_lt_inv in H. lia. }
  rewrite Z.max_l by lia.
  assert (Hn : (2 ^ 52 <= rne (x * 2 ^ (- (e - 52))))%Z).
  { apply rne_ge_int. rewrite pow2_Z by lia.
    assert (E : 2 ^ 52 == 2 ^ e * 2 ^ (- (e - 52)))
      by (rewrite <- pow2_plus; f_equiv; lia).
    rewrite E. apply Qmult_le_compat_r; [done |].
    apply Qlt_le_weak, pow2_pos. }
  rewrite Zle_Qle, pow2_Z in Hn by lia.
  assert (E : 2 ^ 52 * 2 ^ (e - 52) == 2 ^ e)
    by (rewrite <- pow2_plus; f_equiv; lia).
  assert (1 <= 2 ^ e) by (change 1 with (2 ^ 0); by apply pow2_le).
  assert (2 ^ 52 * 2 ^ (e - 52) <=
          inject_Z (rne (x * 2 ^ (- (e - 52)))) * 2 ^ (e - 52)).
  { apply Qmult_le_compat_r; [done |]. apply Qlt_le_weak, pow2_pos. }
  lra.
Qed.

Lemma cexp_small x e :
  2 ^ e <= x → x < 2 → cexp (Qred x) = Z.max (e - 52) (-1074) →
  (cexp (Qred x) <= -52)%Z.
Proof.
  intros H1 H2 ->.
  assert (2 ^ e < 2 ^ 1) by (change (2 ^ 1) with 2; lra).
  apply pow2_lt_inv in H. lia.
Qed.

Lemma round_le_1 x : x <= 1 → round x <= 1.
Proof.
  intros Hx. destruct (Qlt_le_dec 0 x) as [Hpos|Hneg].
  2:{ pose proof (round_nonpos x Hneg). lra. }
  destruct (cexp_pos x Hpos) as (e & H1 & H2 & Hc).
  pose proof (cexp_small x e H1 ltac:(lra) Hc) as Hle.
  rewrite round_unfold. set (c := cexp (Qred x)) in *.
  assert (Hn : (rne (x * 2 ^ (- c)) <= 2 ^ (- c))%Z).
  { apply rne_le_int. rewrite pow2_Z by lia.
    pose proof (pow2_pos (- c)).
    assert (x * 2 ^ (- c) <= 1 * 2 ^ (- c)) by (apply Qmult_le_compat_r; lra).
    lra. }
  rewrite Zle_Qle, pow2_Z in Hn by lia.
  pose proof (pow2_cancel c). pose proof (pow2_pos c).
  assert (inject_Z (rne (x * 2 ^ (- c))) * 2 ^ c <= 2 ^ (- c) * 2 ^ c)
    by (apply Qmult_le_compat_r; lra).
  lra.
Qed.

(** Below 2 the rounding error is at most half a unit in the last place of
    the numbers between 1 and 2. *)
Lemma round_error x : 0 <= x → x < 2 → Qabs (round x - x) <= 2 ^ (-53).
Proof.
  intros Hx0 Hx2.
  assert (Hc : (cexp (Qred x) <= -52)%Z).
  { destruct (Qlt_le_dec 0 x) as [Hpos|Hneg].
    - destruct (cexp_pos x Hpos) as (e & H1 & H2 & Hc). by eapply cexp_small.
    - assert (E : Qred x = Qred 0) by (apply Qred_complete; lra).
      rewrite E. by vm_compute. }
  rewrite round_unfold. set (c := cexp (Qred x)) in *.
  pose proof (rne_error (x * 2 ^ (- c))) as Herr.
  pose proof (pow2_pos c) as Hp. pose proof (pow2_cancel c) as Hcancel.
  assert (E : inject_Z (rne (x * 2 ^ (- c))) * 2 ^ c - x ==
              (inject_Z (rne (x * 2 ^ (- c))) - x * 2 ^ (- c)) * 2 ^ c).
  { transitivity (inject_Z (rne (x * 2 ^ (- c))) * 2 ^ c - x * (2 ^ (- c) * 2 ^ c));
      [rewrite Hcancel |]; ring. }
  rewrite E, Qabs_Qmult, (Qabs_pos (2 ^ c)) by lra.
  assert (Hle : 2 ^ c <= 2 ^ (-52)) by (by apply pow2_le).
  assert (E2 : 2 ^ (-53) == (1 # 2) * 2 ^ (-52)) by reflexivity.
  rewrite E2.
  apply Qmult_le_compat_nonneg; split; try lra. apply Qabs_nonneg.
Qed.

Lemma pow2_le_inv a b : 2 ^ a <= 2 ^ b → (a <= b)%Z.
Proof. intros ?. eapply Qpower_le_compat_l_inv; [done | lra]. Qed.

Lemma Qfloor_unique y k :
  inject_Z k <= y → y < inject_Z (k + 1) → Qfloor y = k.
Proof.
  intros H1 H2. pose proof (Qfloor_le y) as H3. pose proof (Qlt_floor y) as H4.
  assert ((Qfloor y < k + 1)%Z) by (rewrite Zlt_Qlt; lra).
  assert ((k < Qfloor y + 1)%Z) by (rewrite Zlt_Qlt; lra).
  lia.
Qed.

Lemma rne_Z k : rne (inject_Z k) = k.
Proof.
  unfold rne. rewrite Qfloor_Z.
  destruct (Qcompare_spec (inject_Z k - inject_Z k) (1 # 2)) as [H|H|H];
    [lra | done | lra].
Qed.

Lemma rne_opp x : rne (- x) = (- rne x)%Z.
Proof.
  pose proof (Qfloor_le x) as Hlo. pose proof (Qlt_floor x) as Hhi.
  rewrite inject_Z_plus in Hhi. change (inject_Z 1) with 1 in Hhi.
  destruct (Qeq_dec x (inject_Z (Qfloor x))) as [Hint|Hfrac].
  - rewrite (rne_comp (- x) (inject_Z (- Qfloor x)))
      by (rewrite inject_Z_opp; by rewrite <- Hint).
    rewrite (rne_comp x (inject_Z (Qfloor x))) by done.
    by rewrite !rne_Z.
  - assert (E : inject_Z (- Qfloor x - 1) == - inject_Z (Qfloor x) - 1).
    { replace (- Qfloor x - 1)%Z with (- (Qfloor x + 1))%Z by lia.
      rewrite inject_Z_opp, inject_Z_plus. change (inject_Z 1) with 1. ring. }
    assert (Hf : Qfloor (- x) = (- Qfloor x - 1)%Z).
    { apply Qfloor_unique.
      - rewrite E. lra.
      - replace (- Qfloor x - 1 + 1)%Z with (- Qfloor x)%Z by lia.
        rewrite inject_Z_opp.
        destruct (Qlt_le_dec (- x) (- inject_Z (Qfloor x))) as [|Hge]; [done |].
        exfalso. apply Hfrac. lra. }
    unfold rne. rewrite Hf.
    assert (Hev : Z.even (- Qfloor x - 1) = negb (Z.even (Qfloor x))).
    { rewrite Z.even_sub, Z.even_opp. by destruct (Z.even (Qfloor x)). }
    rewrite Hev.
    destruct (Qcompare_spec (x - inject_Z (Qfloor x)) (1 # 2)) as [H1|H1|H1];
      destruct (Qcompare_spec (- x - inject_Z (- Qfloor x - 1)) (1 # 2))
        as [H2|H2|H2]; rewrite E in H2; try lra.
    + destruct (Z.even (Qfloor x)); simpl; lia.
    + lia.
    + lia.
Qed.

Lemma Qabs_opp_eq q : Qabs (- q) = Qabs q.
Proof. destruct q as [n d]. unfold Qabs, Qopp. simpl. by rewrite Z.abs_opp. Qed.

Lemma round_opp x : round (- x) == - round x.
Proof.
  rewrite !round_unfold. rewrite Qred_opp. unfold cexp at 1 2.
  rewrite Qabs_opp_eq. fold (cexp (Qred x)).
  rewrite (rne_comp (- x * _) (- (x * 2 ^ (- cexp (Qred x))))) by ring.
  rewrite rne_opp, inject_Z_opp. ring.
Qed.

Lemma cexp_spec x :
  ¬ x == 0 →
  ∃ e, 2 ^ e <= Qabs x ∧ Qabs x < 2 ^ (e + 1) ∧
       cexp (Qred x) = Z.max (e - 52) (-1074).
Proof.
  intros Hx. exists (ilog2 (Qabs (Qred x))).
  assert (E : Qabs (Qred x) == Qabs x) by (by rewrite Qred_correct).
  assert (Ha : Qabs (Qred x) <= Qabs x ∧ Qabs x <= Qabs (Qred x))
    by (rewrite E; lra).
  assert (0 < Qabs x).
  { pose proof (Qabs_nonneg x).
    destruct (Qlt_le_dec 0 (Qabs x)) as [|Hle]; [done | exfalso].
    apply Hx. apply Qabs_Qle_condition in Hle. lra. }
  destruct (ilog2_spec (Qabs (Qred x))) as [H1 H2]; [lra |].
  split; [lra | split; [lra | done]].
Qed.

(** A number with at most 53 significant bits above the subnormal grid is
    a float. *)
Lemma round_exact r c :
  (-1074 <= c)%Z → (Z.abs r <= 2 ^ 53)%Z →
  round (inject_Z r * 2 ^ c) == inject_Z r * 2 ^ c.
Proof.
  intros Hc Hr. set (y := inject_Z r * 2 ^ c).
  pose proof (pow2_pos c) as Hpc.
  destruct (Z.eq_dec r 0%Z) as [->|Hr0].
  { unfold y. rewrite (round_comp _ 0) by ring. change (round 0) with 0. ring. }
  assert (Hy0 : ¬ y == 0).
  { unfold y. intros H0. apply Qmult_integral in H0 as [H0|H0]; [| lra].
    apply Hr0. by apply (proj1 (inject_Z_injective r 0)). }
  assert (Hay : Qabs y == inject_Z (Z.abs r) * 2 ^ c).
  { unfold y. rewrite Qabs_Qmult, (Qabs_pos (2 ^ c)) by lra.
    reflexivity. }
  destruct (cexp_spec y Hy0) as (e' & H1 & H2 & Hc').
  rewrite round_unfold. set (c' := cexp (Qred y)) in *.
  assert (Hk : ∃ k, y * 2 ^ (- c') == inject_Z k).
  { destruct (Z_le_gt_dec c' c) as [Hle|Hgt].
    - exists (r * 2 ^ (c - c'))%Z.
      rewrite inject_Z_mult, pow2_Z by lia. unfold y.
      replace (c - c')%Z with (c + - c')%Z by lia. rewrite pow2_plus. ring.
    - assert (He' : (c + 53 <= e')%Z) by lia.
      assert (Hr53 : inject_Z (Z.abs r) <= 2 ^ 53)
        by (rewrite <- pow2_Z by lia; by rewrite <- Zle_Qle).
      assert (Hup : Qabs y <= 2 ^ (c + 53)).
      { rewrite Hay, (Z.add_comm c 53), pow2_plus.
        apply Qmult_le_compat_r; lra. }
      assert (Hee : (e' <= c + 53)%Z) by (apply pow2_le_inv; lra).
      assert (e' = (c + 53)%Z) by lia. subst e'.
      assert (Habs : Z.abs r = (2 ^ 53)%Z).
      { apply Z.le_antisymm; [done |]. rewrite Zle_Qle, pow2_Z by lia.
        rewrite Hay, (Z.add_comm c 53), pow2_plus in H1.
        apply Qmult_le_r in H1; done. }
      assert (Hc1 : c' = (c + 1)%Z) by lia.
      exists (r / 2)%Z. unfold y. rewrite Hc1.
      replace (- (c + 1))%Z with (- c + -1)%Z by lia.
      rewrite pow2_plus.
      transitivity (inject_Z r * (2 ^ c * 2 ^ (- c)) * 2 ^ (-1)); [ring |].
      rewrite (Qmult_comm (2 ^ c)), pow2_cancel.
      assert (Hrr : r = (2 ^ 53)%Z ∨ r = (- 2 ^ 53)%Z) by lia.
      destruct Hrr as [-> | ->]; reflexivity. }
  destruct Hk as [k Hk]. rewrite (rne_comp _ _ Hk), rne_Z, <- Hk.
  transitivity (y * (2 ^ (- c') * 2 ^ c')); [ring |].
  rewrite pow2_cancel. ring.
Qed.

Lemma round_is_exact x :
  ∃ r c, (-1074 <= c)%Z ∧ (Z.abs r <= 2 ^ 53)%Z ∧ round x == inject_Z r * 2 ^ c.
Proof.
  exists (rne (x * 2 ^ (- cexp (Qred x)))), (cexp (Qred x)).
  split; [unfold cexp; lia |]. split; [| apply round_unfold].
  destruct (Qeq_dec x 0) as [H0|Hx].
  { assert (Hz : x * 2 ^ (- cexp (Qred x)) == inject_Z 0).
    { etransitivity; [apply (Qmult_comp _ _ H0 _ _ (Qeq_refl _)) | ring]. }
    rewrite (rne_comp _ _ Hz), rne_Z. simpl. lia. }
  destruct (cexp_spec x Hx) as (e & H1 & H2 & Hc). rewrite Hc.
  set (c := Z.max (e - 52) (-1074)).
  pose proof (pow2_pos (- c)) as Hp.
  assert (Hb : Qabs x * 2 ^ (- c) <= 2 ^ 53).
  { assert (Qabs x * 2 ^ (- c) <= 2 ^ (e + 1) * 2 ^ (- c))
      by (apply Qmult_le_compat_r; lra).
    rewrite <- pow2_plus in H.
    assert (2 ^ (e + 1 + - c) <= 2 ^ 53) by (apply pow2_le; lia).
    lra. }
  assert (Hx1 : x * 2 ^ (- c) <= inject_Z (2 ^ 53)).
  { rewrite pow2_Z by lia. pose proof (Qle_Qabs x).
    assert (x * 2 ^ (- c) <= Qabs x * 2 ^ (- c))
      by (apply Qmult_le_compat_r; lra).
    lra. }
  assert (Hx2 : inject_Z (- 2 ^ 53) <= x * 2 ^ (- c)).
  { rewrite inject_Z_opp, pow2_Z by lia. pose proof (Qle_Qabs (- x)).
    rewrite Qabs_opp in H.
    assert (- x * 2 ^ (- c) <= Qabs x * 2 ^ (- c))
      by (apply Qmult_le_compat_r; lra).
    lra. }
  apply rne_le_int in Hx1. apply rne_ge_int in Hx2. lia.
Qed.

Lemma round_idem x : round (round x) == round x.
Proof.
  destruct (round_is_exact x) as (r & c & Hc & Hr & E).
  rewrite (round_comp _ _ E), E. by apply round_exact.
Qed.

Lemma rne_le x y : x <= y → (rne x <= rne y)%Z.
Proof.
  intros Hxy. pose proof (Qfloor_resp_le x y Hxy) as Hf.
  pose proof (rne_floor x) as Hx. pose proof (rne_floor y) as Hy.
  destruct (Z.eq_dec (Qfloor x) (Qfloor y)) as [E|Hne]; [| lia].
  unfold rne in *. rewrite E in *.
  destruct (Qcompare_spec (x - inject_Z (Qfloor y)) (1 # 2)) as [H1|H1|H1];
    destruct (Qcompare_spec (y - inject_Z (Qfloor y)) (1 # 2)) as [H2|H2|H2];
    try lia; try lra.
Qed.

Lemma round_le_pos x y : 0 < x → x <= y → round x <= round y.
Proof.
  intros Hx Hxy.
  destruct (cexp_pos x Hx) as (ex & Hx1 & Hx2 & Hcx).
  destruct (cexp_pos y) as (ey & Hy1 & Hy2 & Hcy); [lra |].
  assert (Hee : (ex <= ey)%Z).
  { assert (2 ^ ex < 2 ^ (ey + 1)) by lra. apply pow2_lt_inv in H. lia. }
  rewrite !round_unfold, Hcx, Hcy.
  set (cx := Z.max (ex - 52) (-1074)). set (cy := Z.max (ey - 52) (-1074)).
  destruct (Z.eq_dec cx cy) as [E|Hne].
  - rewrite E. apply Qmult_le_compat_r; [| apply Qlt_le_weak, pow2_pos].
    rewrite <- Zle_Qle. apply rne_le.
    apply Qmult_le_compat_r; [done | apply Qlt_le_weak, pow2_pos].
  - assert (Hcy' : cy = (ey - 52)%Z) by lia.
    assert (Hlt : (ex < ey)%Z) by lia.
    assert (Hcxy : (cx < cy)%Z) by lia.
    apply Qle_trans with (2 ^ ey).
    + assert (Hn : (rne (x * 2 ^ (- cx)) <= 2 ^ (ey - cx))%Z).
      { apply rne_le_int. rewrite pow2_Z by lia.
        replace (ey - cx)%Z with (ey + - cx)%Z by lia. rewrite pow2_plus.
        apply Qmult_le_compat_r; [| apply Qlt_le_weak, pow2_pos].
        assert (2 ^ (ex + 1) <= 2 ^ ey) by (apply pow2_le; lia). lra. }
      rewrite Zle_Qle, pow2_Z in Hn by lia.
      assert (E : 2 ^ ey == 2 ^ (ey - cx) * 2 ^ cx)
        by (rewrite <- pow2_plus; f_equiv; lia).
      rewrite E. apply Qmult_le_compat_r; [done | apply Qlt_le_weak, pow2_pos].
    + assert (Hn : (2 ^ 52 <= rne (y * 2 ^ (- cy)))%Z).
      { apply rne_ge_int. rewrite pow2_Z by lia.
        assert (E : 2 ^ 52 == 2 ^ ey * 2 ^ (- cy))
          by (rewrite <- pow2_plus; f_equiv; lia).
        rewrite E. apply Qmult_le_compat_r; [done | apply Qlt_le_weak, pow2_pos]. }
      rewrite Zle_Qle, pow2_Z in Hn by lia.
      assert (E : 2 ^ ey == 2 ^ 52 * 2 ^ cy)
        by (rewrite <- pow2_plus; f_equiv; lia).
      rewrite E. apply Qmult_le_compat_r; [done | apply Qlt_le_weak, pow2_pos].
Qed.

(** Rounding is monotone. *)
Lemma round_le x y : x <= y → round x <= round y.
Proof.
  intros Hxy. destruct (Qlt_le_dec 0 x) as [Hx|Hx].
  { by apply round_le_pos. }
  destruct (Qlt_le_dec y 0) as [Hy|Hy].
  - assert (H : round (- y) <= round (- x)) by (apply round_le_pos; lra).
    rewrite !round_opp in H. lra.
  - pose proof (round_nonpos x Hx). pose proof (round_nonneg y Hy). lra.
Qed.


Lemma round_le_float f x : is_float f → x <= f → round x <= f.
Proof. intros Hf Hx. apply round_le in Hx. unfold is_float in Hf. lra. Qed.


Lemma clamp_le v v' : v <= v' → clamp v <= clamp v'.
Proof. intros Hv. unfold clamp, py_max, py_min. q_cases; lra. Qed.

Lemma py_sum_pair a x : is_float a → Logic64.py_sum [a; x] = round (a + x).
Proof.
  unfold is_float. intros Fa. unfold Logic64.py_sum, add. cbn [fold_left].
  apply round_comp. rewrite (round_comp (0 + a) a) by ring. by rewrite Fa.
Qed.

(** The sum of a float [a] in [0,1] and 1, rounded, less 1, is computed
    exactly. *)
Lemma sub_one_exact a :
  0 <= a <= 1 → round (round (a + 1) - 1) == round (a + 1) - 1.
Proof.
  intros Ha. destruct (Qlt_le_dec a 1) as [Hlt|Hge].
  2:{ rewrite (round_comp (a + 1) 2) by lra. reflexivity. }
  destruct (cexp_pos (a + 1)) as (e & H1 & H2 & Hc); [lra |].
  assert (He : e = 0%Z).
  { assert (2 ^ e < 2 ^ 1) by (change (2 ^ 1) with 2; lra).
    assert (2 ^ 0 < 2 ^ (e + 1)) by (change (2 ^ 0) with 1; lra).
    apply pow2_lt_inv in H, H0. lia. }
  subst e. change (Z.max (0 - 52) (-1074)) with (-52)%Z in Hc.
  pose proof (round_unfold (a + 1)) as Hy. rewrite Hc in Hy.
  set (r := rne ((a + 1) * 2 ^ (- -52))) in *.
  assert (Hr : (2 ^ 52 <= r <= 2 ^ 53)%Z).
  { split; [apply rne_ge_int | apply rne_le_int]; rewrite pow2_Z by lia.
    - change (2 ^ (- -52)) with (2 ^ 52).
      assert (1 * 2 ^ 52 <= (a + 1) * 2 ^ 52)
        by (apply Qmult_le_compat_r; [lra | by vm_compute]).
      lra.
    - change (2 ^ (- -52)) with (2 ^ 52).
      assert ((a + 1) * 2 ^ 52 <= 2 * 2 ^ 52)
        by (apply Qmult_le_compat_r; [lra | by vm_compute]).
      assert (E : 2 ^ 53 == 2 * 2 ^ 52) by reflexivity. lra. }
  assert (E : round (a + 1) - 1 == inject_Z (r - 2 ^ 52) * 2 ^ (-52)).
  { rewrite Hy. unfold Z.sub. rewrite inject_Z_plus, inject_Z_opp.
    assert (E1 : inject_Z (2 ^ 52) * 2 ^ (-52) == 1) by reflexivity.
    transitivity (inject_Z r * 2 ^ (-52) - inject_Z (2 ^ 52) * 2 ^ (-52));
      [rewrite E1 |]; ring. }
  rewrite (round_comp _ _ E), E. apply round_exact; lia.
Qed.

(** C7 (as amended). For binary64 truth values [a], [b] in [0,1] the kernel
    satisfies seven of the Lukasiewicz laws exactly: [fuzzy_and(a,0) = 0],
    [fuzzy_or(a,0) = a], [fuzzy_or(a,1) = 1], [implies(0,b) = 1],
    [implies(1,b) = b], [implies(a,1) = 1] and [equivalent(a,a) = 1].  The
    eighth, [fuzzy_and(a,1) = a], holds up to rounding only:
    [fuzzy_and(a,1)] is the float nearest to [a + 1], less 1, which is
    within [2 ^ -53] of [a]. *)
Theorem lukasiewicz_laws (a b : Q) :
  is_float a → is_float b → 0 <= a <= 1 → 0 <= b <= 1 →
  Logic64.fuzzy_and [a; 0] == 0 ∧
  Logic64.fuzzy_or [a; 0] == a ∧
  Logic64.fuzzy_or [a; 1] == 1 ∧
  Logic64.implies 0 b == 1 ∧
  Logic64.implies 1 b == b ∧
  Logic64.implies a 1 == 1 ∧
  Logic64.equivalent a a == 1 ∧
  Logic64.fuzzy_and [a; 1] == round (a + 1) - 1 ∧
  Qabs (Logic64.fuzzy_and [a; 1] - a) <= 2 ^ (-53).
Proof.
  intros Fa Fb Ha Hb. pose proof Fa as Fa'. pose proof Fb as Fb'.
  unfold is_float in Fa', Fb'.
  assert (R0 : round 0 == 0) by reflexivity.
  assert (R1 : round 1 == 1) by reflexivity.
  assert (L1 : ∀ x y : Q, round (py_len [x; y] - 1) == 1)
    by (intros; rewrite (round_comp _ 1); done).
  unfold Logic64.fuzzy_and, Logic64.fuzzy_or, Logic64.implies,
    Logic64.equivalent, sub, add.
  rewrite !py_sum_pair by done.
  assert (Hone : clamp (round (round (a + 1) - round (py_len [a; 1] - 1)))
                 == round (a + 1) - 1).
  { rewrite (round_comp _ (round (a + 1) - 1)) by (by rewrite L1).
    rewrite sub_one_exact by done.
    apply clamp_id.
    pose proof (round_ge_1 (a + 1) ltac:(lra)).
    pose proof (round_le_float 2 (a + 1) ltac:(reflexivity) ltac:(lra)). lra. }
  split; [| split; [| split; [| split; [| split; [| split; [| split; [| split]]]]]]].
  - apply clamp_le_0.
    rewrite (round_comp _ (a - 1)); [apply round_nonpos; lra |].
    rewrite (round_comp (a + 0) a) by ring. by rewrite Fa', L1.
  - rewrite (round_comp (a + 0) a) by ring.
    rewrite clamp_id; rewrite Fa'; done.
  - apply clamp_ge_1, round_ge_1. lra.
  - apply clamp_ge_1, round_ge_1.
    rewrite (round_comp (1 - 0) 1) by ring. rewrite R1. lra.
  - rewrite (round_comp (1 - 1) 0) by ring.
    rewrite (round_comp (round 0 + b) b) by (rewrite R0; ring).
    rewrite clamp_id; rewrite Fb'; done.
  - apply clamp_ge_1, round_ge_1.
    pose proof (round_nonneg (1 - a)). lra.
  - rewrite (round_comp (a - a) 0) by ring.
    rewrite (round_comp (1 - Qabs (round 0)) 1); [by rewrite R1 |].
    rewrite R0. reflexivity.
  - exact Hone.
  - rewrite Hone.
    assert (E : round (a + 1) - 1 - a == round (a + 1) - (a + 1)) by ring.
    rewrite E.
    destruct (Qlt_le_dec a 1) as [Hlt|Hge].
    + apply round_error; lra.
    + rewrite (round_comp (a + 1) 2) by lra.
      assert (E2 : round 2 - (a + 1) == 0) by (change (round 2) with 2; lra).
      rewrite E2. by vm_compute.
Qed.

Lemma lukasiewicz_laws_witness :
  Logic64.implies 1 (round (3 # 10)) == round (3 # 10) ∧
  Qabs (Logic64.fuzzy_and [round (3 # 10); 1] - round (3 # 10)) <= 2 ^ (-53).
Proof.
  destruct (lukasiewicz_laws (round (3 # 10)) (round (3 # 10)))
    as (_ & _ & _ & _ & H5 & _ & _ & _ & H8);
    [by vm_compute | by vm_compute | by vm_compute | by vm_compute | by split].
Defined.

(** C7 (as stated) fails: for the float nearest to 0.3 the kernel returns
    [fuzzy_and(a, 1.0) = 0.30000000000000004], which is not [a]. *)
Lemma fuzzy_and_one_is_rounded :
  is_float (round (3 # 10)) ∧ 0 <= round (3 # 10) <= 1 ∧
  round (3 # 10) == 5404319552844595 # 18014398509481984 ∧
  Logic64.fuzzy_and [round (3 # 10); 1] == 5404319552844596 # 18014398509481984 ∧
  ¬ Logic64.fuzzy_and [round (3 # 10); 1] == round (3 # 10).
Proof. by vm_compute. Qed.

End Rounding.

(** ** Facts on ordered dictionaries *)

Section ODictFacts.

Context {V : Type}.
Implicit Types (d : list (string * V)) (k : string) (v : V).

Lemma get_set_eq k v d : ODict.get k (ODict.set k v d) = Some v.
Proof.
  induction d as [|[k' v'] d IH]; simpl.
  - by rewrite String.eqb_refl.
  - destruct (String.eqb_spec k' k) as [->|Hne]; simpl.
    + by rewrite String.eqb_refl.
    + destruct (String.eqb_spec k' k); [done | exact IH].
Qed.

Lemma get_set_ne k k' v d :
  k ≠ k' → ODict.get k' (ODict.set k v d) = ODict.get k' d.
Proof.
  intros Hkk'. induction d as [|[k0 v0] d IH]; simpl.
  - destruct (String.eqb_spec k k'); [done | done].
  - destruct (String.eqb_spec k0 k) as [->|Hne]; simpl.
    + destruct (String.eqb_spec k k'); [done | done].
    + by rewrite IH.
Qed.

Lemma get_is_Some k d : is_Some (ODict.get k d) ↔ k ∈ ODict.keys d.
Proof.
  unfold ODict.keys. induction d as [|[k' v'] d IH]; simpl.
  - split; [by intros [? ?] | by intros ?%elem_of_nil].
  - destruct (String.eqb_spec k' k) as [->|Hne].
    + split; [intros _; left | eauto].
    + rewrite IH. split; [by right | ].
      intros [?|?]%elem_of_cons; [congruence | done].
Qed.

Lemma get_Some_elem k v d : ODict.get k d = Some v → (k, v) ∈ d.
Proof.
  induction d as [|[k' v'] d IH]; simpl; [done |].
  destruct (String.eqb_spec k' k) as [->|Hne].
  - intros [= ->]. left.
  - intros H. right. by apply IH.
Qed.

Lemma elem_get k v d : NoDup (ODict.keys d) → (k, v) ∈ d → ODict.get k d = Some v.
Proof.
  unfold ODict.keys. induction d as [|[k' v'] d IH]; simpl.
  - by intros _ ?%elem_of_nil.
  - intros [Hnotin Hnd]%NoDup_cons [Heq|Hin]%elem_of_cons.
    + injection Heq as -> ->. by rewrite String.eqb_refl.
    + destruct (String.eqb_spec k' k) as [->|Hne]; [| by apply IH].
      exfalso. apply Hnotin. apply list_elem_of_fmap. by exists (k, v).
Qed.

Lemma keys_set_elem k k' v d :
  k' ∈ ODict.keys (ODict.set k v d) ↔ k' = k ∨ k' ∈ ODict.keys d.
Proof.
  rewrite <- !get_is_Some.
  destruct (decide (k = k')) as [->|Hne].
  - rewrite get_set_eq. split; [by left | eauto].
  - rewrite get_set_ne by done. split; [by right | intros [?|?]; [congruence|done]].
Qed.

Lemma NoDup_keys_set k v d :
  NoDup (ODict.keys d) → NoDup (ODict.keys (ODict.set k v d)).
Proof.
  unfold ODict.keys. induction d as [|[k' v'] d IH]; simpl.
  - intros _. apply NoDup_singleton.
  - intros [Hnotin Hnd]%NoDup_cons.
    destruct (String.eqb_spec k' k) as [->|Hne]; simpl.
    + by apply NoDup_cons.
    + apply NoDup_cons. split; [| by apply IH].
      intros Hin. apply (keys_set_elem k k' v d) in Hin as [?|?]; [congruence | done].
Qed.

Lemma set_elem k v k' v' d :
  (k', v') ∈ ODict.set k v d → (k', v') ∈ d ∨ (k' = k ∧ v' = v).
Proof.
  induction d as [|[k0 v0] d IH]; simpl.
  - intros [= -> ->]%list_elem_of_singleton. by right.
  - destruct (String.eqb_spec k0 k) as [->|Hne].
    + intros [[= -> ->]|Hin]%elem_of_cons; [by right |]. left. by right.
    + intros [Heq|Hin]%elem_of_cons.
      * left. rewrite Heq. left.
      * destruct (IH Hin) as [?|?]; [left; by right | by right].
Qed.

End ODictFacts.

(** ** The passes only move unlocked variables, and only to truth values *)

Section Passes.

Implicit Types (sts : gmap string VariableState) (self : NeuroEngine).

Lemma for_each_rel {A S} (R : relation S) (f : S → A → result S) xs :
  Reflexive R → Transitive R →
  (∀ s x s', x ∈ xs → f s x = Ok s' → R s s') →
  ∀ s s', for_each f xs s = Ok s' → R s s'.
Proof.
  intros Hrefl Htrans. induction xs as [|x xs IH]; simpl; intros Hf s s' Hrun.
  - injection Hrun as <-. apply Hrefl.
  - apply bind_Ok in Hrun as (s1 & H1 & H2).
    apply (Htrans _ s1).
    + eapply Hf; [left | done].
    + apply IH; [| done]. intros ? ? ? ?. apply Hf. by right.
Qed.

Lemma fold_left_rel {A S} (R : relation S) (f : S → A → S) xs
    (Hrefl : Reflexive R) (Htrans : Transitive R) :
  (∀ s x, x ∈ xs → R s (f s x)) →
  ∀ s, R s (fold_left f xs s).
Proof.
  induction xs as [|x xs IH]; simpl; intros Hf s.
  - apply Hrefl.
  - apply (Htrans _ (f s x)).
    + apply Hf. left.
    + apply IH. intros ? ? ?. apply Hf. by right.
Qed.

#[global] Instance evolves_refl : Reflexive evolves.
Proof.
  intros sts k. destruct (sts !! k); constructor. split; [done | by left].
Qed.

#[global] Instance evolves_trans : Transitive evolves.
Proof.
  intros s1 s2 s3 H12 H23 k. specialize (H12 k). specialize (H23 k).
  destruct H12 as [st1 st2 [Hl12 H12]|]; inversion H23 as [? st3 [Hl23 H23']|];
    subst; constructor.
  split; [congruence |].
  destruct H23' as [->|[Hl Hr]]; [done |].
  right. split; [congruence | done].
Qed.

#[global] Instance evolves_acc_refl : Reflexive evolves_acc.
Proof. intros a. unfold evolves_acc. reflexivity. Qed.

#[global] Instance evolves_acc_trans : Transitive evolves_acc.
Proof. intros a b c. unfold evolves_acc. apply evolves_trans. Qed.

Lemma evolves_insert sts k st v :
  sts !! k = Some st → locked st = false → 0 <= v <= 1 →
  evolves sts (<[k := with_value st v]> sts).
Proof.
  intros Hk Hl Hv k'. destruct (decide (k = k')) as [<-|Hne].
  - rewrite lookup_insert_eq, Hk. constructor. split; [done |]. right. done.
  - rewrite lookup_insert_ne by done. destruct (sts !! k'); constructor.
    split; [done | by left].
Qed.

Lemma evolves_is_Some sts sts' k :
  evolves sts sts' → is_Some (sts !! k) ↔ is_Some (sts' !! k).
Proof.
  intros H. specialize (H k).
  destruct H; split; intros [? ?]; eauto; discriminate.
Qed.

Lemma evolves_locked sts sts' k st :
  evolves sts sts' → sts !! k = Some st → locked st = true → sts' !! k = Some st.
Proof.
  intros H Hk Hl. specialize (H k). rewrite Hk in H.
  inversion H as [? st' [Hl' [->|[Hf _]]]|]; subst; [done | congruence].
Qed.

Lemma evolves_range sts sts' :
  evolves sts sts' →
  (∀ k st, sts !! k = Some st → 0 <= value st <= 1) →
  ∀ k st, sts' !! k = Some st → 0 <= value st <= 1.
Proof.
  intros H Hr k st' Hk. specialize (H k). rewrite Hk in H.
  inversion H as [st ? [_ [->|[_ Hv]]] Heq|]; subst; [| done].
  by apply (Hr k).
Qed.

Lemma forward_var_evolves self sts d v sts' d' :
  forward_var self (sts, d) v = Ok (sts', d') → evolves sts sts'.
Proof.
  unfold forward_var.
  destruct (default [] (_var_to_output_rules self !! v)) as [|id ids];
    [intros [= <- <-]; reflexivity |].
  destruct (sts !! v) as [st|] eqn:Hst; [| discriminate].
  destruct (locked st) eqn:Hl; [intros [= <- <-]; reflexivity |].
  intros ([cs ws] & _ & H)%bind_Ok.
  destruct cs as [|c cs]; [injection H as <- <-; reflexivity |].
  injection H as <- <-. apply evolves_insert; [done | done | apply clamp_range].
Qed.

Lemma _forward_pass_evolves self self' d :
  _forward_pass self = Ok (self', d) →
  same_static self self' ∧ evolves (_states self) (_states self').
Proof.
  unfold _forward_pass. intros ([sts d0] & Hrun & [= <- <-])%bind_Ok.
  split; [reflexivity |]. simpl.
  eapply (for_each_rel evolves_acc) in Hrun; [exact Hrun | apply _ | apply _ |].
  intros [? ?] ? [? ?] _. apply forward_var_evolves.
Qed.

Lemma apply_to_targets_evolves f constraint sts :
  (∀ a b c, 0 <= f a b c <= 1) →
  evolves sts (apply_to_targets f constraint sts).1.
Proof.
  intros Hf. unfold apply_to_targets.
  destruct (sts !! default ""%string (c_source constraint)) as [src|];
    [| reflexivity].
  apply (fold_left_rel evolves_acc _ _ _ _) with (s := (sts, 0)).
  intros [s d] t _. unfold evolves_acc. simpl.
  destruct (s !! t) as [st|] eqn:Ht; [| reflexivity].
  destruct (locked st) eqn:Hl; [reflexivity |]. simpl.
  by apply evolves_insert.
Qed.

Lemma inhibit_range a b c : 0 <= inhibit a b c <= 1.
Proof. apply clamp_range. Qed.

Lemma support_range a b c : 0 <= support a b c <= 1.
Proof. apply clamp_range. Qed.

Lemma constraint_step_evolves sts d constraint :
  evolves sts (constraint_step (sts, d) constraint).1.
Proof.
  unfold constraint_step.
  destruct (String.eqb _ "ATTACK").
  - pose proof (apply_to_targets_evolves inhibit constraint sts inhibit_range) as H.
    unfold _apply_attack. by destruct (apply_to_targets inhibit constraint sts).
  - destruct (String.eqb _ "SUPPORT"); [| reflexivity].
    pose proof (apply_to_targets_evolves support constraint sts support_range) as H.
    unfold _apply_support. by destruct (apply_to_targets support constraint sts).
Qed.

Lemma _apply_constraints_evolves self :
  same_static self (_apply_constraints self).1 ∧
  evolves (_states self) (_states (_apply_constraints self).1).
Proof.
  unfold _apply_constraints.
  pose proof (fold_left_rel evolves_acc constraint_step
                (ODict.values (_constraints self)) _ _) as H.
  specialize (H (λ s c _, match s with (sts, d) => constraint_step_evolves sts d c end)).
  specialize (H (_states self, 0)).
  destruct (fold_left _ _ _) as [sts d]. split; [reflexivity | exact H].
Qed.

Lemma same_static_trans self1 self2 self3 :
  same_static self1 self2 → same_static self2 self3 → same_static self1 self3.
Proof. unfold same_static. intros -> ->. reflexivity. Qed.

Lemma inference_loop_evolves n : ∀ self self' k,
  inference_loop self n = Ok (self', k) →
  same_static self self' ∧ evolves (_states self) (_states self').
Proof.
  induction n as [|n IH]; simpl; intros self self' k Hrun.
  - injection Hrun as <- <-. split; [by destruct self | reflexivity].
  - apply bind_Ok in Hrun as ([self1 d1] & Hfw & Hrun).
    apply _forward_pass_evolves in Hfw as [Hs1 He1].
    pose proof (_apply_constraints_evolves self1) as [Hs2 He2].
    destruct (_apply_constraints self1) as [self2 d2]. simpl in *.
    assert (same_static self self2) by (by eapply same_static_trans).
    assert (evolves (_states self) (_states self2)) by (by etrans).
    destruct (Qlt_bool _ _).
    + by injection Hrun as <- <-.
    + apply bind_Ok in Hrun as ([self3 k3] & Hrec & [= <- <-]).
      apply IH in Hrec as [Hs3 He3].
      split; [by eapply same_static_trans | by etrans].
Qed.

End Passes.

(** ** What [_load] establishes *)

Section Load.

Implicit Types (sts : gmap string VariableState) (self : NeuroEngine).

Lemma load_variable_loaded self nv :
  vars_loaded self → vars_loaded (load_variable self nv).
Proof.
  intros (Hnd & Hst & Hix). destruct nv as [name var].
  unfold vars_loaded, load_variable. simpl. split; [| split].
  - by apply NoDup_keys_set.
  - intros k. destruct (decide (name = k)) as [<-|Hne].
    + by rewrite lookup_insert_eq, get_set_eq.
    + by rewrite lookup_insert_ne, get_set_ne.
  - intros k. destruct (decide (name = k)) as [<-|Hne].
    + rewrite !lookup_insert_eq. split; eauto.
    + rewrite !lookup_insert_ne by done. apply Hix.
Qed.

Lemma load_variables_vars vs : ∀ self,
  _variables (fold_left load_variable vs self) =
  fold_left (λ d kv, ODict.set kv.1 kv.2 d) vs (_variables self).
Proof.
  induction vs as [|[name var] vs IH]; intros self; simpl; [done |].
  by rewrite IH.
Qed.

Lemma load_variables_loaded vs : ∀ self,
  vars_loaded self → vars_loaded (fold_left load_variable vs self).
Proof.
  induction vs as [|nv vs IH]; intros self H; simpl; [done |].
  by apply IH, load_variable_loaded.
Qed.

Lemma load_variables_rules vs : ∀ self,
  _rules (fold_left load_variable vs self) = _rules self ∧
  (∀ v ids, _var_to_output_rules (fold_left load_variable vs self) !! v = Some ids →
            ids = [] ∨ _var_to_output_rules self !! v = Some ids).
Proof.
  induction vs as [|[name var] vs IH]; intros self; cbn [fold_left]; [eauto |].
  destruct (IH (load_variable self (name, var))) as [Hr Hi].
  split; [by rewrite Hr |].
  intros v ids Hv. apply Hi in Hv as [?|Hv]; [by left |].
  simpl in Hv. destruct (decide (name = v)) as [<-|Hne].
  - rewrite lookup_insert_eq in Hv. left. congruence.
  - rewrite lookup_insert_ne in Hv by done. by right.
Qed.

Lemma index_append_lookup index var id v ids :
  index_append index var id !! v = Some ids →
  (index !! v = Some ids) ∨
  (v = var ∧ ∃ ids0, index !! v = Some ids0 ∧ ids = ids0 ++ [id]).
Proof.
  unfold index_append. destruct (index !! var) as [ids0|] eqn:Hvar; [| by left].
  destruct (decide (var = v)) as [<-|Hne].
  - rewrite lookup_insert_eq. intros [= <-]. right. eauto.
  - rewrite lookup_insert_ne by done. by left.
Qed.

Lemma index_append_is_Some index var id v :
  is_Some (index_append index var id !! v) ↔ is_Some (index !! v).
Proof.
  unfold index_append. destruct (index !! var) as [ids0|] eqn:Hvar; [| done].
  destruct (decide (var = v)) as [<-|Hne].
  - rewrite lookup_insert_eq, Hvar. split; eauto.
  - by rewrite lookup_insert_ne.
Qed.

Lemma load_rule_static self rule :
  _variables (load_rule self rule) = _variables self ∧
  _states (load_rule self rule) = _states self ∧
  config (load_rule self rule) = config self ∧
  (∀ v, is_Some (_var_to_output_rules (load_rule self rule) !! v) ↔
        is_Some (_var_to_output_rules self !! v)).
Proof.
  repeat split; try done; simpl;
    destruct (r_output rule) as [o|]; try done;
    destruct (String.eqb o ""); try done;
    by apply index_append_is_Some.
Qed.

Lemma load_rule_loaded rs self rule :
  rules_loaded rs self → rules_loaded (rs ++ [rule]) (load_rule self rule).
Proof.
  intros [Hix Hrs]. split.
  - intros v ids id Hv Hid. simpl in *.
    assert (Hold : ∀ ids', _var_to_output_rules self !! v = Some ids' → id ∈ ids' →
      is_Some (<[r_id rule := rule]> (_rules self) !! id) ∧
      ∃ r, r ∈ rs ++ [rule] ∧ r_id r = id ∧ r_output r = Some v).
    { intros ids' Hv' Hid'. destruct (Hix v ids' id Hv' Hid') as [Hsome (r & Hr & ? & ?)].
      split.
      - destruct (decide (r_id rule = id)) as [<-|Hne].
        + rewrite lookup_insert_eq. eauto.
        + by rewrite lookup_insert_ne.
      - exists r. split; [| done]. apply elem_of_app. by left. }
    destruct (r_output rule) as [o|] eqn:Ho; [| by eapply Hold].
    destruct (String.eqb o ""); [by eapply Hold |].
    apply index_append_lookup in Hv as [Hv|(-> & ids0 & Hv & ->)];
      [by eapply Hold |].
    apply elem_of_app in Hid as [Hid|Hid%list_elem_of_singleton];
      [by eapply Hold |].
    subst id. split.
    + rewrite lookup_insert_eq. eauto.
    + exists rule. split; [| done]. apply elem_of_app. right. left.
  - intros id r. simpl. destruct (decide (r_id rule = id)) as [<-|Hne].
    + rewrite lookup_insert_eq. intros [= <-]. split; [| done].
      apply elem_of_app. right. left.
    + rewrite lookup_insert_ne by done. intros [? ?]%Hrs. split; [| done].
      apply elem_of_app. by left.
Qed.

Lemma load_rules_loaded rs : ∀ rs0 self,
  rules_loaded rs0 self → rules_loaded (rs0 ++ rs) (fold_left load_rule rs self).
Proof.
  induction rs as [|rule rs IH]; intros rs0 self H; simpl.
  - by rewrite app_nil_r.
  - replace (rs0 ++ rule :: rs) with ((rs0 ++ [rule]) ++ rs)
      by (by rewrite <- app_assoc).
    by apply IH, load_rule_loaded.
Qed.

Lemma load_rules_static rs : ∀ self,
  _variables (fold_left load_rule rs self) = _variables self ∧
  _states (fold_left load_rule rs self) = _states self ∧
  config (fold_left load_rule rs self) = config self ∧
  (∀ v, is_Some (_var_to_output_rules (fold_left load_rule rs self) !! v) ↔
        is_Some (_var_to_output_rules self !! v)).
Proof.
  induction rs as [|rule rs IH]; intros self; simpl; [done |].
  destruct (IH (load_rule self rule)) as (-> & -> & -> & Hix).
  destruct (load_rule_static self rule) as (-> & -> & -> & Hix').
  repeat split; try done; intros ?; [by apply Hix', Hix | by apply Hix, Hix'].
Qed.

Lemma load_constraints_static cs : ∀ self,
  _variables (fold_left load_constraint cs self) = _variables self ∧
  _states (fold_left load_constraint cs self) = _states self ∧
  config (fold_left load_constraint cs self) = config self ∧
  _rules (fold_left load_constraint cs self) = _rules self ∧
  _var_to_output_rules (fold_left load_constraint cs self) = _var_to_output_rules self.
Proof.
  induction cs as [|c cs IH]; intros self; simpl; [done |].
  by destruct (IH (load_constraint self c)) as (-> & -> & -> & -> & ->).
Qed.

Lemma of_items_spec {V} (items : list (string * V)) : ∀ d,
  NoDup (ODict.keys d) →
  NoDup (ODict.keys (fold_left (λ d kv, ODict.set kv.1 kv.2 d) items d)) ∧
  ∀ k v, (k, v) ∈ fold_left (λ d kv, ODict.set kv.1 kv.2 d) items d →
         (k, v) ∈ d ∨ (k, v) ∈ items.
Proof.
  induction items as [|[k0 v0] items IH]; intros d Hnd; simpl.
  - split; [done | by left].
  - destruct (IH (ODict.set k0 v0 d)) as [H1 H2]; [by apply NoDup_keys_set |].
    split; [done |]. intros k v Hin. apply H2 in Hin as [Hin|Hin].
    + apply set_elem in Hin as [?|[-> ->]]; [by left | right; left].
    + right. by right.
Qed.

Lemma init_variables schema cfg :
  _variables (init schema cfg) = ODict.of_items (variables schema).
Proof.
  unfold init, _load.
  destruct (load_constraints_static (constraints schema)
    (fold_left load_rule (rules schema)
       (fold_left load_variable (variables schema)
          {| config := default create_default_config cfg; _variables := [];
             _rules := ∅; _constraints := []; _states := ∅;
             _var_to_input_rules := ∅; _var_to_output_rules := ∅ |})))
    as (-> & _).
  destruct (load_rules_static (rules schema)
    (fold_left load_variable (variables schema)
          {| config := default create_default_config cfg; _variables := [];
             _rules := ∅; _constraints := []; _states := ∅;
             _var_to_input_rules := ∅; _var_to_output_rules := ∅ |}))
    as (-> & _).
  by rewrite load_variables_vars.
Qed.

Lemma init_loaded schema cfg :
  vars_loaded (init schema cfg) ∧ rules_loaded (rules schema) (init schema cfg) ∧
  config (init schema cfg) = default create_default_config cfg.
Proof.
  unfold init, _load.
  set (e0 := {| config := default create_default_config cfg; _variables := [];
                _rules := ∅; _constraints := []; _states := ∅;
                _var_to_input_rules := ∅; _var_to_output_rules := ∅ |}).
  set (e1 := fold_left load_variable (variables schema) e0).
  set (e2 := fold_left load_rule (rules schema) e1).
  assert (H0 : vars_loaded e0).
  { split; [apply NoDup_nil_2 | split]; intros k; simpl.
    - by rewrite lookup_empty.
    - by rewrite !lookup_empty. }
  assert (H1 : vars_loaded e1) by (by apply load_variables_loaded).
  assert (H1r : rules_loaded [] e1).
  { destruct (load_variables_rules (variables schema) e0) as [Hr Hi]. split.
    - intros v ids id Hv Hid. apply Hi in Hv as [->|Hv].
      + by apply elem_of_nil in Hid.
      + simpl in Hv. by rewrite lookup_empty in Hv.
    - intros id r. fold e1 in Hr. rewrite Hr. simpl. by rewrite lookup_empty. }
  assert (H2r : rules_loaded (rules schema) e2).
  { apply (load_rules_loaded (rules schema) [] e1 H1r). }
  destruct (load_rules_static (rules schema) e1) as (Hv2 & Hs2 & Hc2 & Hi2).
  destruct (load_constraints_static (constraints schema) e2)
    as (Hv3 & Hs3 & Hc3 & Hr3 & Hi3).
  fold e2 in Hv2, Hs2, Hc2, Hi2.
  split; [| split].
  - destruct H1 as (Hnd & Hst & Hix). unfold vars_loaded.
    rewrite Hv3, Hs3, Hi3, Hv2, Hs2. split; [done | split; [done |]].
    intros k. by rewrite Hi2.
  - destruct H2r as [Ha Hb]. unfold rules_loaded. by rewrite Hi3, Hr3.
  - rewrite Hc3, Hc2. unfold e1.
    assert (∀ vs e, config (fold_left load_variable vs e) = config e) as Hcfg.
    { induction vs as [|[? ?] vs IH]; intros e'; simpl; [done | by rewrite IH]. }
    by rewrite Hcfg.
Qed.

Lemma init_wf schema cfg : wf (init schema cfg).
Proof.
  destruct (init_loaded schema cfg) as ((Hnd & Hst & Hix) & [Hr _] & _).
  split; [done | |].
  - intros k. rewrite Hst, <- get_is_Some. by rewrite fmap_is_Some.
  - intros v ids id Hv Hid. by destruct (Hr v ids id Hv Hid).
Qed.

Lemma init_states schema cfg k :
  _states (init schema cfg) !! k = prior_state <$> declared schema k.
Proof.
  destruct (init_loaded schema cfg) as ((_ & Hst & _) & _).
  by rewrite Hst, init_variables.
Qed.

Lemma declared_elem schema k var :
  declared schema k = Some var → (k, var) ∈ variables schema.
Proof.
  intros H%get_Some_elem. unfold ODict.of_items in H.
  destruct (of_items_spec (variables schema) []) as [_ Hin]; [apply NoDup_nil_2 |].
  apply Hin in H as [H|H]; [by apply elem_of_nil in H | done].
Qed.

(** The state after construction is the state after a reset. *)
Lemma reset_loaded self :
  vars_loaded self → _reset_to_priors self = Ok self.
Proof.
  intros (Hnd & Hst & _). unfold _reset_to_priors.
  assert (H : for_each
    (λ sts '(name, var),
       match sts !! name with
       | Some state =>
           Ok (<[name := with_locked
                   (with_value state (default (1 # 2) (v_prior var)))
                   (default false (v_locked var))]> sts)
       | None => Raise (KeyError name)
       end) (_variables self) (_states self) = Ok (_states self)).
  { assert (Hall : ∀ k var, (k, var) ∈ _variables self →
                     _states self !! k = Some (prior_state var)).
    { intros k var Hin. rewrite Hst. by erewrite elem_get. }
    clear Hst Hnd. revert Hall.
    generalize (_states self) as sts. generalize (_variables self) as vs.
    induction vs as [|[name var] vs IH]; intros sts Hall; cbn [for_each]; [done |].
    rewrite (Hall name var) by left.
    replace (with_locked _ _) with (prior_state var) by reflexivity.
    rewrite insert_id by (apply Hall; left).
    cbn [mbind result_bind].
    apply IH. intros ? ? ?. apply Hall. by right. }
  rewrite H. simpl. by destruct self.
Qed.

End Load.

(** ** Unfolding [run] *)

Section Run.

Implicit Types (sts : gmap string VariableState) (self : NeuroEngine).

Lemma lock_evidence_lookup evidence sts k :
  lock_evidence evidence sts !! k =
  match evidence_of evidence k with
  | Some v => (λ st, with_locked (with_value st (clamp v)) true) <$> sts !! k
  | None => sts !! k
  end.
Proof.
  destruct evidence as [ev|]; [| done]. unfold lock_evidence, evidence_of. simpl.
  revert k. apply (map_fold_weak_ind (λ r m, ∀ k, r !! k =
    match m !! k with
    | Some v => (λ st, with_locked (with_value st (clamp v)) true) <$> sts !! k
    | None => sts !! k
    end)).
  - intros k. by rewrite lookup_empty.
  - intros i x m r Hi IH k. destruct (decide (i = k)) as [<-|Hne].
    + rewrite lookup_insert_eq. pose proof (IH i) as Hri. rewrite Hi in Hri.
      rewrite Hri. destruct (sts !! i) as [st|] eqn:Hst; simpl.
      * by rewrite lookup_insert_eq.
      * done.
    + rewrite (lookup_insert_ne m) by done. rewrite <- IH.
      destruct (r !! i); [by rewrite lookup_insert_ne | done].
Qed.

Lemma run_counting_inv self evidence iterations self' out k :
  vars_loaded self →
  run_counting self evidence iterations = Ok (self', out, k) →
  inference_loop (set_states self (lock_evidence evidence (_states self)))
    (Z.to_nat (int_or iterations (max_iterations (config self)))) = Ok (self', k) ∧
  out = _get_all_values self'.
Proof.
  intros Hl. unfold run_counting. rewrite (reset_loaded self Hl). simpl.
  intros ([self1 k1] & Hloop & [= <- <- <-])%bind_Ok. done.
Qed.

Lemma run_inv self evidence iterations self' out :
  run self evidence iterations = Ok (self', out) →
  ∃ k, run_counting self evidence iterations = Ok (self', out, k).
Proof.
  unfold run. intros ([[self1 out1] k] & H & [= <- <-])%bind_Ok. eauto.
Qed.

(** The states at the end of a run of a freshly loaded engine evolve from
    the prior states with the evidence locked in. *)
Lemma run_evolves self evidence iterations self' out :
  vars_loaded self →
  run self evidence iterations = Ok (self', out) →
  evolves (lock_evidence evidence (_states self)) (_states self') ∧
  same_static self self' ∧
  out = value <$> _states self'.
Proof.
  intros Hl (k & Hrun)%run_inv.
  apply run_counting_inv in Hrun as [Hloop ->]; [| done].
  apply inference_loop_evolves in Hloop as [Hs He]. simpl in He.
  split; [done | split; [| done]].
  unfold same_static in *. rewrite Hs. by destruct self.
Qed.

End Run.

(** ** Range of the results (C1) *)

Section Range.

(** C1 (as amended). For every schema whose declared priors lie in [0,1],
    every configuration, evidence map and iterations argument, every value of
    the map returned by [run] is in [0,1]: evidence, forward-pass and
    constraint-pass assignments are clamped, whereas the reset stores the
    declared prior as it is (so that, without evidence, the engine starts
    from exactly the declared priors). *)
Theorem run_values_in_unit_interval schema cfg evidence iterations self' out :
  priors_in_range schema →
  run (init schema cfg) evidence iterations = Ok (self', out) →
  (∀ k x, out !! k = Some x → 0 <= x <= 1) ∧
  (∀ v var, declared schema v = Some var →
     ∃ start, run_start (init schema cfg) None = Ok start ∧
              value <$> _states start !! v = Some (default (1 # 2) (v_prior var))).
Proof.
  intros Hpr Hrun. destruct (init_loaded schema cfg) as (Hl & _ & _). split.
  - apply run_evolves in Hrun as (He & _ & ->); [| done].
    intros k x. rewrite lookup_fmap.
    destruct (_states self' !! k) as [st|] eqn:Hst; [| done].
    intros [= <-]. revert k st Hst. apply (evolves_range _ _ He).
    intros k st. rewrite lock_evidence_lookup, init_states.
    destruct (declared schema k) as [var|] eqn:Hd;
      [| by destruct (evidence_of evidence k)].
    apply declared_elem, Hpr in Hd.
    destruct (evidence_of evidence k) as [e|]; simpl; intros [= <-]; simpl.
    + apply clamp_range.
    + done.
  - intros v var Hd. exists (init schema cfg). unfold run_start.
    rewrite (reset_loaded _ Hl). simpl. split; [by destruct (init schema cfg) |].
    by rewrite init_states, Hd.
Qed.

Lemma run_values_in_unit_interval_witness :
  ∃ self' out,
    run (init Scenarios.single_implication None) (Some {["A"%string := 7 # 2]}) None
      = Ok (self', out) ∧
    ∀ k x, out !! k = Some x → 0 <= x <= 1.
Proof.
  destruct (run (init Scenarios.single_implication None)
              (Some {["A"%string := 7 # 2]}) None) as [[self' out]|e] eqn:Hrun;
    [| by vm_compute in Hrun].
  exists self', out. split; [done |].
  eapply (run_values_in_unit_interval Scenarios.single_implication None); [| exact Hrun].
  intros k var Hin. simpl in Hin.
  apply elem_of_cons in Hin as [[= -> ->]|Hin]; [simpl; lra |].
  apply list_elem_of_singleton in Hin as [= -> ->]. simpl; lra.
Defined.

(** C1 (as stated) fails: the prior 1.5 of [prior_above_one] is stored as
    declared at reset and returned by [run]. *)
Lemma prior_above_one_returned :
  ∃ self', run (init Scenarios.prior_above_one None) None None
             = Ok (self', {["v"%string := 3 # 2]}) ∧
           ¬ (0 <= 3 # 2 <= 1).
Proof.
  eexists. split; [vm_compute; reflexivity | lra].
Qed.

End Range.

(** ** The iteration cap and early termination (C3) *)

Section Iterations.

Lemma same_static_config self self' : same_static self self' → config self' = config self.
Proof. unfold same_static. by intros ->. Qed.





End Iterations.

(** ** Failure semantics (C4) *)

Section Failure.

Implicit Types (sts : gmap string VariableState) (self : NeuroEngine).

Lemma for_each_total {A S} (I : S → Prop) (f : S → A → result S) xs :
  (∀ s x, x ∈ xs → I s → ∃ s', f s x = Ok s' ∧ I s') →
  ∀ s, I s → ∃ s', for_each f xs s = Ok s' ∧ I s'.
Proof.
  induction xs as [|x xs IH]; intros Hf s Hs; simpl; [eauto |].
  destruct (Hf s x) as (s1 & -> & Hs1); [left | done |]. simpl.
  apply IH; [| done]. intros ? ? ?. apply Hf. by right.
Qed.

Lemma apply_operation_known op ins :
  known_op op = true → ∃ x, apply_operation op ins None = Ok x.
Proof.
  unfold known_op, apply_operation. intros H%bool_decide_eq_true.
  repeat (apply elem_of_cons in H as [->|H]; [simpl; eauto |]).
  by apply elem_of_nil in H.
Qed.

Lemma _evaluate_rule_total sts rule :
  (default "IMPLICATION"%string (r_type rule) = "IMPLICATION"%string →
   known_op (default "IDENTITY"%string (r_op rule)) = true) →
  ∃ x, _evaluate_rule sts rule = Ok x.
Proof.
  intros Hop. unfold _evaluate_rule.
  destruct (mapM _ _) as [vs|]; [| eauto].
  destruct (String.eqb_spec (default "IMPLICATION"%string (r_type rule)) "IMPLICATION")
    as [Heq|_].
  - destruct (apply_operation_known _ vs (Hop Heq)) as [x ->]. simpl. eauto.
  - repeat (destruct (String.eqb _ _); [eauto |]); [| eauto].
    destruct vs as [|a [|b vs]]; eauto.
Qed.

Lemma collect_contributions_total self sts ids :
  (∀ id, id ∈ ids → ∃ rule, _rules self !! id = Some rule ∧
     (default "IMPLICATION"%string (r_type rule) = "IMPLICATION"%string →
      known_op (default "IDENTITY"%string (r_op rule)) = true)) →
  ∃ r, collect_contributions self sts ids = Ok r.
Proof.
  intros Hids. unfold collect_contributions.
  match goal with
  | |- ∃ r, for_each ?f ?xs ?s0 =
            Ok r =>
      destruct (λ H, for_each_total (λ _, True) f xs H s0 I) as (r & Hr & _);
        [| eauto]
  end.
  intros [cs ws] id Hid _. destruct (Hids id Hid) as (rule & -> & Hop).
  destruct (_evaluate_rule_total sts rule Hop) as [[x|] ->]; simpl; eauto.
Qed.

Lemma forward_var_total self sts d v :
  runnable self → is_Some (sts !! v) →
  ∃ acc, forward_var self (sts, d) v = Ok acc.
Proof.
  intros [_ Hix] [st Hst]. unfold forward_var.
  destruct (_var_to_output_rules self !! v) as [ids|] eqn:Hv; simpl; [| eauto].
  destruct ids as [|id ids]; [eauto |].
  rewrite Hst. destruct (locked st); [eauto |].
  destruct (collect_contributions_total self sts (id :: ids)) as ([cs ws] & ->).
  { intros id' Hid'. by apply (Hix v (id :: ids)). }
  simpl. destruct cs; eauto.
Qed.

Lemma _forward_pass_total self : runnable self → ∃ r, _forward_pass self = Ok r.
Proof.
  intros Hrun. unfold _forward_pass.
  destruct (for_each_total
    (λ acc : gmap string VariableState * Q,
       ∀ k, k ∈ ODict.keys (_variables self) → is_Some (acc.1 !! k))
    (forward_var self) (ODict.keys (_variables self))) with (s := (_states self, 0))
    as ([sts d] & -> & _); [| by destruct Hrun | simpl; eauto].
  intros [sts d] v Hv Hdom.
  destruct (forward_var_total self sts d v Hrun (Hdom v Hv)) as ([sts' d'] & Hfw).
  exists (sts', d'). split; [done |]. simpl in Hdom |- *.
  intros k Hk. apply (evolves_is_Some sts sts'); [| by apply Hdom].
  exact (forward_var_evolves _ _ _ _ _ _ Hfw).
Qed.

Lemma runnable_static self self' :
  same_static self self' → evolves (_states self) (_states self') →
  runnable self → runnable self'.
Proof.
  unfold same_static. intros Hs He [Hdom Hix]. rewrite Hs. split; simpl.
  - intros k Hk. apply (evolves_is_Some _ _ k He). by apply Hdom.
  - done.
Qed.

Lemma inference_loop_total n : ∀ self,
  runnable self → ∃ r, inference_loop self n = Ok r.
Proof.
  induction n as [|n IH]; intros self Hrun; simpl; [eauto |].
  destruct (_forward_pass_total self Hrun) as ([self1 d1] & Hfw). rewrite Hfw. simpl.
  apply _forward_pass_evolves in Hfw as [Hs1 He1].
  pose proof (_apply_constraints_evolves self1) as [Hs2 He2].
  destruct (_apply_constraints self1) as [self2 d2]. simpl in *.
  destruct (Qlt_bool _ _); [eauto |].
  destruct (IH self2) as ([self3 k] & ->); [| simpl; eauto].
  eapply runnable_static; [exact Hs2 | exact He2 |].
  by eapply runnable_static.
Qed.

Lemma init_runnable schema cfg :
  ops_known (rules schema) → runnable (init schema cfg).
Proof.
  intros Hops. destruct (init_loaded schema cfg) as (_ & [Hix Hrs] & _).
  split.
  - intros k Hk. by apply (wf_states _ (init_wf schema cfg)).
  - intros v ids id Hv Hid. destruct (Hix v ids id Hv Hid) as [[rule Hrule] _].
    exists rule. split; [done |]. apply Hops. by apply (Hrs id).
Qed.

Lemma apply_operation_unknown op ins ws :
  known_op op = false →
  apply_operation op ins ws =
    Raise (ValueError ("Unknown operation: " ++ str_upper op)).
Proof.
  unfold known_op, apply_operation. intros H%bool_decide_eq_false.
  assert (Hne : ∀ s, s ∈ ["IDENTITY"; "AND"; "OR"; "NOT"; "WEIGHTED"]%string →
                     String.eqb (str_upper op) s = false).
  { intros s Hs. apply String.eqb_neq. intros Heq. apply H. by rewrite Heq. }
  cbv zeta. rewrite !Hne; [done | ..]; repeat first [left | right].
Qed.

(** C4 (as amended). [run] never raises on unresolved variable names (in
    rule inputs, rule outputs, constraint sources or targets, or evidence) or
    on undeclared rule types or constraint kinds: whenever every rule that is
    evaluated as an implication carries one of the operators IDENTITY, AND,
    OR, NOT, WEIGHTED (in any letter case), [run] returns a result for every
    configuration, evidence map and iterations argument.  The operator is
    not covered: when [_evaluate_rule] evaluates an implication whose inputs
    all have states and whose operator is an ASCII string other than these
    five, it raises the [ValueError] of [apply_operation] that names the
    upper-cased operator. *)
Theorem run_never_raises_on_known_ops schema cfg evidence iterations :
  (ops_known (rules schema) →
   ∃ self' out, run (init schema cfg) evidence iterations = Ok (self', out)) ∧
  (∀ sts rule,
     default "IMPLICATION"%string (r_type rule) = "IMPLICATION"%string →
     (∀ i, i ∈ default [] (r_inputs rule) → is_Some (sts !! i)) →
     isascii (default "IDENTITY"%string (r_op rule)) = true →
     known_op (default "IDENTITY"%string (r_op rule)) = false →
     _evaluate_rule sts rule =
       Raise (ValueError ("Unknown operation: " ++
                          str_upper (default "IDENTITY"%string (r_op rule))))).
Proof.
  split.
  - intros Hops. pose proof (init_runnable schema cfg Hops) as Hrun.
    destruct (init_loaded schema cfg) as (Hl & _ & _).
    unfold run, run_counting. rewrite (reset_loaded _ Hl). simpl.
    edestruct (inference_loop_total) as ([self' k] & ->); [| simpl; eauto].
    destruct Hrun as [Hdom Hix]. split; simpl; [| done].
    intros k Hk. rewrite lock_evidence_lookup.
    destruct (Hdom k Hk) as [st ->]. destruct (evidence_of evidence k); simpl; eauto.
  - intros sts rule Hty Hins _ Hop. unfold _evaluate_rule.
    assert (Hs : is_Some (mapM (λ input_name, value <$> sts !! input_name)
                            (default [] (r_inputs rule)))).
    { apply mapM_is_Some, Forall_forall. intros i Hi. unfold compose.
      destruct (Hins i Hi) as [st ->]. simpl. eauto. }
    destruct Hs as [vs ->]. rewrite Hty. simpl.
    by rewrite (apply_operation_unknown _ vs None Hop).
Qed.

Lemma run_never_raises_on_known_ops_witness :
  (∃ self' out,
     run (init Scenarios.partial_subgraph None)
         (Some {["A"%string := 1; "unknown"%string := 1 # 2]}) None
       = Ok (self', out)) ∧
  _evaluate_rule (_states Scenarios.engine_xor) MoreScenarios.xor_rule =
    Raise (ValueError "Unknown operation: XOR").
Proof.
  destruct (run_never_raises_on_known_ops Scenarios.partial_subgraph None
              (Some {["A"%string := 1; "unknown"%string := 1 # 2]}) None)
    as [Hrun Hraise].
  split.
  - apply Hrun. intros rule Hin _. simpl in Hin.
    repeat (apply elem_of_cons in Hin as [->|Hin]; [reflexivity |]).
    by apply elem_of_nil in Hin.
  - apply (Hraise (_states Scenarios.engine_xor) MoreScenarios.xor_rule);
      [reflexivity | | reflexivity | reflexivity].
    intros i Hi. simpl in Hi. apply list_elem_of_singleton in Hi as ->.
    vm_compute. eexists. reflexivity.
Defined.

(** C4 (as stated) fails: an implication rule whose [op] field is the
    string XOR makes [run] raise [ValueError]. *)
Lemma run_raises_on_unknown_op :
  run Scenarios.engine_xor Scenarios.evidence_a None
    = Raise (ValueError "Unknown operation: XOR").
Proof. vm_compute. reflexivity. Qed.

End Failure.

(** ** The combining step and the equivalence rule (C5, C6) *)

Section Combining.

Implicit Types (sts : gmap string VariableState) (self : NeuroEngine).

(** C5 (as amended). In the forward pass, when the weights of the rules
    that contribute to an unlocked variable sum to zero, the combined
    contribution is the neutral value 0.5 and the variable is updated: its
    value after the step is [clamp(alpha * 0.5 + (1 - alpha) * old)], where
    [alpha] is the damping factor and [old] its value before the step. *)
Theorem zero_total_weight_update self sts d v st ids cs ws :
  _var_to_output_rules self !! v = Some ids →
  sts !! v = Some st → locked st = false →
  collect_contributions self sts ids = Ok (cs, ws) → cs ≠ [] →
  py_sum ws == 0 →
  let alpha := damping_factor (config self) in
  let damped := alpha * (1 # 2) + (1 - alpha) * value st in
  forward_var self (sts, d) v =
    Ok (<[v := with_value st (clamp damped)]> sts,
        py_max d (Qabs (damped - value st))).
Proof.
  intros Hv Hst Hl Hcs Hne Hsum. unfold forward_var. rewrite Hv. simpl.
  destruct ids as [|id ids].
  { injection Hcs as <- _. done. }
  rewrite Hst, Hl, Hcs. simpl. destruct cs as [|c cs]; [done |].
  destruct (Qlt_bool_spec 0 (py_sum ws)) as [Hlt|_]; [lra | done].
Qed.

Lemma zero_total_weight_update_witness :
  ∃ st,
    _states Scenarios.engine_zero_weight !! "B"%string = Some st ∧
    Qred (value st) = 1 # 10 ∧
    forward_var Scenarios.engine_zero_weight
      (_states Scenarios.engine_zero_weight, 0) "B"%string =
    Ok (<["B"%string := with_value st
            (clamp ((1 # 2) * (1 # 2) + (1 - (1 # 2)) * value st))]>
          (_states Scenarios.engine_zero_weight),
        py_max 0 (Qabs ((1 # 2) * (1 # 2) + (1 - (1 # 2)) * value st - value st))).
Proof.
  eexists. split; [vm_compute; reflexivity | split; [reflexivity |]].
  eapply (zero_total_weight_update Scenarios.engine_zero_weight _ 0
            "B"%string _ ["a_to_b"%string]);
    [reflexivity | reflexivity | reflexivity | vm_compute; reflexivity
    | discriminate | reflexivity].
Defined.

(** C5 (as stated) fails: the only rule into [B] has weight 0, so the total
    weight of the contributions is 0, yet one forward pass moves [B] from
    its prior 1/10 to 3/10. *)
Lemma zero_weight_rule_moves_output :
  (∃ cs ws, collect_contributions Scenarios.engine_zero_weight
              (_states Scenarios.engine_zero_weight) ["a_to_b"%string] = Ok (cs, ws) ∧
            cs ≠ [] ∧ py_sum ws == 0) ∧
  value <$> _states Scenarios.engine_zero_weight !! "B"%string = Some (1 # 10) ∧
  ∃ self' delta, _forward_pass Scenarios.engine_zero_weight = Ok (self', delta) ∧
    Qred ∘ value <$> _states self' !! "B"%string = Some (3 # 10) ∧
    ¬ (3 # 10 == 1 # 10).
Proof.
  split; [| split].
  - eexists _, _. split; [vm_compute; reflexivity | split; [discriminate | reflexivity]].
  - vm_compute. reflexivity.
  - eexists _, _. split; [vm_compute; reflexivity | split; [vm_compute; reflexivity |]].
    intros H. vm_compute in H. discriminate.
Qed.

Lemma mult_unit a w : 0 <= a <= 1 → 0 <= w <= 1 → 0 <= a * w <= 1.
Proof.
  intros [Ha0 Ha1] [Hw0 Hw1]. split.
  - by apply Qmult_le_0_compat.
  - assert (a * w <= 1 * 1) as H; [| lra].
    apply Qmult_le_compat_nonneg; split; done.
Qed.

(** C6 (as amended). Evaluating an EQUIVALENCE rule whose inputs all
    resolve yields [clamp(equivalent(inputs[0], inputs[1]) * weight)] with
    at least two inputs, [clamp(inputs[0] * weight)] with exactly one input
    and [clamp(0.5 * weight)] with no input; in each case the rule
    contributes this value, with the rule's weight, to the combining step.
    For a weight and input values in [0,1] the clamp is the identity. *)
Theorem equivalence_rule_value self sts rule vs :
  r_type rule = Some "EQUIVALENCE"%string →
  mapM (λ input_name, value <$> sts !! input_name) (default [] (r_inputs rule))
    = Some vs →
  _rules self !! r_id rule = Some rule →
  let weight := default 1 (r_weight rule) in
  let raw := match vs with
             | a :: b :: _ => equivalent a b * weight
             | [a] => a * weight
             | [] => (1 # 2) * weight
             end in
  _evaluate_rule sts rule = Ok (Some (clamp raw)) ∧
  collect_contributions self sts [r_id rule] = Ok ([clamp raw], [weight]) ∧
  (0 <= weight <= 1 → (∀ a, a ∈ vs → 0 <= a <= 1) → clamp raw == raw).
Proof.
  intros Hty Hvs Hrule weight raw.
  assert (Hev : _evaluate_rule sts rule = Ok (Some (clamp raw))).
  { unfold _evaluate_rule. rewrite Hvs, Hty. simpl.
    subst raw. by destruct vs as [|a [|b vs]]. }
  split; [done | split].
  - unfold collect_contributions. simpl. by rewrite Hrule, Hev.
  - intros Hw Hin. apply clamp_id. subst raw.
    destruct vs as [|a [|b vs]].
    + apply mult_unit; [lra | done].
    + apply mult_unit; [| done]. apply Hin. left.
    + apply mult_unit; [| done]. apply clamp_range.
Qed.

Lemma equivalence_rule_value_witness :
  _evaluate_rule (_states Scenarios.engine_equivalence) Scenarios.equivalence_no_inputs
    = Ok (Some (clamp ((1 # 2) * 1))).
Proof.
  apply (equivalence_rule_value Scenarios.engine_equivalence
           (_states Scenarios.engine_equivalence) Scenarios.equivalence_no_inputs []);
    reflexivity.
Defined.

(** C6 (as stated) fails for zero inputs: the rule is not excluded from the
    combining step, it contributes 0.5 * weight, and one forward pass moves
    its output [B] from the prior 1/10 to 3/10. *)
Lemma equivalence_without_inputs_contributes :
  r_inputs Scenarios.equivalence_no_inputs = Some [] ∧
  (∃ x, _evaluate_rule (_states Scenarios.engine_equivalence)
          Scenarios.equivalence_no_inputs = Ok (Some x) ∧ Qred x = 1 # 2) ∧
  (∃ cs ws, collect_contributions Scenarios.engine_equivalence
              (_states Scenarios.engine_equivalence) ["a_to_b"%string] = Ok (cs, ws) ∧
            length cs = 1%nat) ∧
  value <$> _states Scenarios.engine_equivalence !! "B"%string = Some (1 # 10) ∧
  ∃ self' delta, _forward_pass Scenarios.engine_equivalence = Ok (self', delta) ∧
    Qred ∘ value <$> _states self' !! "B"%string = Some (3 # 10).
Proof.
  split; [reflexivity | split; [| split; [| split]]].
  - eexists. split; vm_compute; reflexivity.
  - eexists _, _. split; vm_compute; reflexivity.
  - vm_compute. reflexivity.
  - eexists _, _. split; vm_compute; reflexivity.
Qed.

End Combining.

(** ** The bridge: names and queries (C8, C9) *)

Section Bridge.

Import Service.

Lemma var_name_inverse (x : string) :
  _var_name_to_node_id ("node_" ++ x) = x.
Proof. unfold _var_name_to_node_id. by destruct x. Qed.

Lemma var_name_inj (x y : string) :
  ("node_" ++ x = "node_" ++ y)%string → x = y.
Proof.
  generalize "node_"%string as p.
  induction p as [|a p IH]; intros H; [exact H |].
  apply IH. change (String a (p +:+ x) = String a (p +:+ y)) in H.
  by injection H.
Qed.

(** C8. The map from nodes to variable names is injective on node ids, and
    the inverse map composed with it is the identity on node ids. *)
Theorem node_var_name_roundtrip (node other : Node) :
  (n_id node ≠ n_id other → _node_to_var_name node ≠ _node_to_var_name other) ∧
  _var_name_to_node_id (_node_to_var_name node) = n_id node.
Proof.
  split.
  - intros Hne Heq. apply Hne. by apply var_name_inj.
  - apply var_name_inverse.
Qed.

Lemma node_var_name_roundtrip_witness :
  _node_to_var_name (Scenarios.node_of "a" (1 # 5)) ≠
  _node_to_var_name (Scenarios.node_of "b" (4 # 5)) ∧
  _var_name_to_node_id (_node_to_var_name (Scenarios.node_of "a" (1 # 5))) = "a"%string.
Proof.
  destruct (node_var_name_roundtrip (Scenarios.node_of "a" (1 # 5))
              (Scenarios.node_of "b" (4 # 5))) as [Hinj Hinv].
  split; [apply Hinj; discriminate | exact Hinv].
Defined.


Lemma to_node_results_lookup (result : gmap string Q) node_id :
  (∀ k, is_Some (result !! k) → ∃ x, k = ("node_" ++ x)%string) →
  to_node_results result !! node_id = result !! ("node_" ++ node_id)%string.
Proof.
  unfold to_node_results.
  apply (map_fold_weak_ind (λ r (m : gmap string Q),
    (∀ k, is_Some (m !! k) → ∃ x, k = ("node_" ++ x)%string) →
    r !! node_id = m !! ("node_" ++ node_id)%string)).
  - intros _. by rewrite !lookup_empty.
  - intros i x m r Hi IH Hkeys.
    destruct (Hkeys i) as [xi ->]; [rewrite lookup_insert_eq; eauto |].
    rewrite var_name_inverse.
    destruct (decide (xi = node_id)) as [->|Hne].
    + by rewrite !lookup_insert_eq.
    + rewrite !lookup_insert_ne; [| by intros ?%var_name_inj | done].
      apply IH. intros k Hk. apply Hkeys.
      destruct (decide (("node_" ++ xi)%string = k)) as [<-|Hne'].
      * rewrite lookup_insert_eq. eauto.
      * by rewrite lookup_insert_ne.
Qed.




End Bridge.

(** ** Rules with an undeclared output (C10) *)

Section Inert.

Implicit Types (sts : gmap string VariableState) (self : NeuroEngine).

Lemma for_each_ext {A S} (f g : S → A → result S) xs :
  (∀ s x, x ∈ xs → f s x = g s x) →
  ∀ s, for_each f xs s = for_each g xs s.
Proof.
  induction xs as [|x xs IH]; intros Hfg s; simpl; [done |].
  rewrite Hfg by left. destruct (g s x) as [s'|e]; simpl; [| done].
  apply IH. intros ? ? ?. apply Hfg. by right.
Qed.

Lemma collect_contributions_sim e1 e2 sts ids :
  (∀ id, id ∈ ids → _rules e1 !! id = _rules e2 !! id) →
  collect_contributions e1 sts ids = collect_contributions e2 sts ids.
Proof.
  intros Hids. unfold collect_contributions. apply for_each_ext.
  intros [cs ws] id Hid. by rewrite (Hids id Hid).
Qed.

Lemma forward_var_sim e1 e2 acc v :
  sim e1 e2 → forward_var e1 acc v = forward_var e2 acc v.
Proof.
  intros (Hc & _ & _ & _ & Hix & Hr). destruct acc as [sts d].
  unfold forward_var. rewrite <- Hix, <- Hc.
  destruct (_var_to_output_rules e1 !! v) as [ids|] eqn:Hv; simpl; [| done].
  destruct ids as [|id ids]; [done |].
  rewrite (collect_contributions_sim e1 e2 sts (id :: ids)); [done |].
  intros id' Hid'. by apply (Hr v (id :: ids)).
Qed.

Lemma sim_set_states e1 e2 sts :
  sim e1 e2 → sim (set_states e1 sts) (set_states e2 sts).
Proof. intros (? & ? & ? & ? & ? & ?). by repeat split. Qed.

Lemma _forward_pass_sim e1 e2 :
  sim e1 e2 →
  result_rel (λ a b, sim a.1 b.1 ∧ a.2 = b.2) (_forward_pass e1) (_forward_pass e2).
Proof.
  intros Hsim. pose proof Hsim as (_ & Hv & _ & Hs & _).
  unfold _forward_pass. rewrite <- Hv, <- Hs.
  rewrite (for_each_ext (forward_var e1) (forward_var e2));
    [| intros; by apply forward_var_sim].
  destruct (for_each _ _ _) as [[sts d]|e]; simpl; [| done].
  split; [by apply sim_set_states | done].
Qed.

Lemma _apply_constraints_sim e1 e2 :
  sim e1 e2 →
  sim (_apply_constraints e1).1 (_apply_constraints e2).1 ∧
  (_apply_constraints e1).2 = (_apply_constraints e2).2.
Proof.
  intros Hsim. pose proof Hsim as (_ & _ & Hc & Hs & _).
  unfold _apply_constraints. rewrite <- Hc, <- Hs.
  destruct (fold_left _ _ _) as [sts d]. simpl.
  split; [by apply sim_set_states | done].
Qed.

Lemma inference_loop_sim n : ∀ e1 e2,
  sim e1 e2 →
  result_rel (λ a b, sim a.1 b.1 ∧ a.2 = b.2)
    (inference_loop e1 n) (inference_loop e2 n).
Proof.
  induction n as [|n IH]; intros e1 e2 Hsim; simpl; [done |].
  pose proof (_forward_pass_sim e1 e2 Hsim) as Hfw.
  destruct (_forward_pass e1) as [[a1 d1]|x1], (_forward_pass e2) as [[a2 d2]|x2];
    simpl in *; try done.
  destruct Hfw as [Hsim1 <-].
  pose proof (_apply_constraints_sim a1 a2 Hsim1) as [Hsim2 Hd].
  destruct (_apply_constraints a1) as [b1 c1], (_apply_constraints a2) as [b2 c2].
  simpl in *. subst c2.
  destruct Hsim2 as (Hc & Hrest). rewrite <- Hc.
  destruct (Qlt_bool _ _); simpl; [by split |].
  specialize (IH b1 b2 (conj Hc Hrest)).
  destruct (inference_loop b1 n) as [[? ?]|?], (inference_loop b2 n) as [[? ?]|?];
    simpl in *; try done.
  destruct IH as [? <-]. done.
Qed.

Lemma _reset_to_priors_sim e1 e2 :
  sim e1 e2 →
  result_rel sim (_reset_to_priors e1) (_reset_to_priors e2).
Proof.
  intros Hsim. pose proof Hsim as (_ & Hv & _ & Hs & _).
  unfold _reset_to_priors. rewrite <- Hv, <- Hs.
  destruct (for_each _ _ _) as [sts|e]; simpl; [| done].
  by apply sim_set_states.
Qed.

Lemma run_sim e1 e2 evidence iterations :
  sim e1 e2 →
  returned (run e1 evidence iterations) = returned (run e2 evidence iterations).
Proof.
  intros Hsim. pose proof Hsim as (Hc & _).
  unfold run, run_counting. rewrite <- Hc.
  pose proof (_reset_to_priors_sim e1 e2 Hsim) as Hreset.
  destruct (_reset_to_priors e1) as [a1|x1], (_reset_to_priors e2) as [a2|x2];
    simpl in *; try done; [| by subst].
  pose proof Hreset as (_ & _ & _ & Hs & _). rewrite <- Hs.
  pose proof (inference_loop_sim
    (Z.to_nat (int_or iterations (max_iterations (config e1))))
    (set_states a1 (lock_evidence evidence (_states a1)))
    (set_states a2 (lock_evidence evidence (_states a1)))
    (sim_set_states _ _ _ Hreset)) as Hloop.
  destruct (inference_loop (set_states a1 _) _) as [[b1 k1]|y1],
           (inference_loop (set_states a2 _) _) as [[b2 k2]|y2];
    simpl in *; try done; [| by subst].
  destruct Hloop as [(_ & _ & _ & Hs' & _) _].
  unfold _get_all_values. by rewrite Hs'.
Qed.

(** *** The tables that [_load] builds from the list of rules *)

Lemma load_rules_tables rs : ∀ self,
  _rules (fold_left load_rule rs self) =
    fold_left (λ m r, <[r_id r := r]> m) rs (_rules self) ∧
  _var_to_output_rules (fold_left load_rule rs self) =
    fold_left index_output rs (_var_to_output_rules self) ∧
  _constraints (fold_left load_rule rs self) = _constraints self.
Proof.
  induction rs as [|r rs IH]; intros self; cbn [fold_left]; [done |].
  destruct (IH (load_rule self r)) as (-> & -> & ->). done.
Qed.

Lemma load_constraints_constraints cs : ∀ self,
  _constraints (fold_left load_constraint cs self) =
  fold_left (λ d c, ODict.set (c_id c) c d) cs (_constraints self).
Proof.
  induction cs as [|c cs IH]; intros self; cbn [fold_left]; [done |].
  by rewrite IH.
Qed.

Lemma table_lookup_agree rs id : ∀ (m m' : gmap string Rule),
  m !! id = m' !! id →
  fold_left (λ m r, <[r_id r := r]> m) rs m !! id =
  fold_left (λ m r, <[r_id r := r]> m) rs m' !! id.
Proof.
  induction rs as [|r rs IH]; intros m m' Hm; cbn [fold_left]; [done |].
  apply IH. destruct (decide (r_id r = id)) as [<-|Hne].
  - by rewrite !lookup_insert_eq.
  - by rewrite !lookup_insert_ne.
Qed.

Lemma table_lookup_stored rs : ∀ (m : gmap string Rule) r,
  r ∈ rs → is_Some (fold_left (λ m r, <[r_id r := r]> m) rs m !! r_id r).
Proof.
  assert (Hmono : ∀ l (m : gmap string Rule) id,
    is_Some (m !! id) → is_Some (fold_left (λ m r, <[r_id r := r]> m) l m !! id)).
  { intros l. induction l as [|r l IH]; intros m id Hm; cbn [fold_left]; [done |].
    apply IH. destruct (decide (r_id r = id)) as [<-|Hne].
    - rewrite lookup_insert_eq. eauto.
    - by rewrite lookup_insert_ne. }
  induction rs as [|r0 rs IH]; intros m r Hin; cbn [fold_left].
  - by apply elem_of_nil in Hin.
  - apply elem_of_cons in Hin as [->|Hin]; [| by apply IH].
    apply Hmono. rewrite lookup_insert_eq. eauto.
Qed.

Lemma index_output_is_Some index rule v :
  is_Some (index_output index rule !! v) ↔ is_Some (index !! v).
Proof.
  unfold index_output. destruct (r_output rule) as [o|]; [| done].
  destruct (String.eqb o ""); [done |]. apply index_append_is_Some.
Qed.

Lemma fold_index_output_is_Some rs : ∀ index v,
  is_Some (fold_left index_output rs index !! v) ↔ is_Some (index !! v).
Proof.
  induction rs as [|r rs IH]; intros index v; cbn [fold_left]; [done |].
  by rewrite IH, index_output_is_Some.
Qed.

Lemma init_unfold schema cfg :
  init schema cfg =
  fold_left load_constraint (constraints schema)
    (fold_left load_rule (rules schema) (loaded_variables schema cfg)).
Proof. reflexivity. Qed.

Lemma loaded_variables_loaded schema cfg :
  vars_loaded (loaded_variables schema cfg) ∧
  _rules (loaded_variables schema cfg) = ∅ ∧
  _variables (loaded_variables schema cfg) = ODict.of_items (variables schema).
Proof.
  unfold loaded_variables. split; [| split].
  - apply load_variables_loaded. split; [apply NoDup_nil_2 | split]; intros k; simpl.
    + by rewrite lookup_empty.
    + by rewrite !lookup_empty.
  - by destruct (load_variables_rules (variables schema)
      {| config := default create_default_config cfg;
         _variables := []; _rules := ∅; _constraints := [];
         _states := ∅; _var_to_input_rules := ∅;
         _var_to_output_rules := ∅ |}) as [-> _].
  - by rewrite load_variables_vars.
Qed.

Lemma init_tables schema cfg :
  _rules (init schema cfg) =
    fold_left (λ m r, <[r_id r := r]> m) (rules schema) ∅ ∧
  _var_to_output_rules (init schema cfg) =
    fold_left index_output (rules schema)
      (_var_to_output_rules (loaded_variables schema cfg)) ∧
  _constraints (init schema cfg) =
    fold_left (λ d c, ODict.set (c_id c) c d) (constraints schema)
      (_constraints (loaded_variables schema cfg)).
Proof.
  rewrite init_unfold.
  destruct (load_constraints_static (constraints schema)
    (fold_left load_rule (rules schema) (loaded_variables schema cfg)))
    as (_ & _ & _ & -> & ->).
  rewrite load_constraints_constraints.
  destruct (load_rules_tables (rules schema) (loaded_variables schema cfg))
    as (-> & -> & ->).
  by destruct (loaded_variables_loaded schema cfg) as (_ & -> & _).
Qed.

Lemma undeclared_not_indexed schema cfg rs o :
  declared schema o = None →
  fold_left index_output rs
    (_var_to_output_rules (loaded_variables schema cfg)) !! o = None.
Proof.
  intros Hd. apply eq_None_not_Some. rewrite fold_index_output_is_Some.
  destruct (loaded_variables_loaded schema cfg) as ((_ & Hst & Hix) & _ & Hv).
  rewrite Hix, Hst, Hv. fold (declared schema o). rewrite Hd. by intros [? ?].
Qed.

Lemma NoDup_fmap_eq {A B} (f : A → B) (l : list A) x y :
  NoDup (f <$> l) → x ∈ l → y ∈ l → f x = f y → x = y.
Proof.
  induction l as [|a l IH]; simpl; [by intros _ ?%elem_of_nil |].
  intros [Hnotin Hnd]%NoDup_cons Hx Hy Hf.
  apply elem_of_cons in Hx as [->|Hx]; apply elem_of_cons in Hy as [->|Hy].
  - done.
  - exfalso. apply Hnotin. rewrite Hf. by apply list_elem_of_fmap_2.
  - exfalso. apply Hnotin. rewrite <- Hf. by apply list_elem_of_fmap_2.
  - by apply IH.
Qed.

(** A rule with an undeclared output is stored under its identifier, and
    the output index does not mention that identifier. *)
Lemma undeclared_output_unindexed schema cfg rule :
  rule ∈ rules schema →
  NoDup (r_id <$> rules schema) →
  (∀ o, r_output rule = Some o → declared schema o = None) →
  _rules (init schema cfg) !! r_id rule = Some rule ∧
  unindexed (init schema cfg) (r_id rule).
Proof.
  intros Hin Hnd Hout.
  destruct (init_loaded schema cfg) as ((_ & _ & Hdom) & [Hix Hrs] & _).
  split.
  - destruct (init_tables schema cfg) as (Ht & _).
    destruct (table_lookup_stored (rules schema) ∅ rule Hin) as [r' Hr'].
    rewrite <- Ht in Hr'. rewrite Hr'. f_equal.
    destruct (Hrs _ _ Hr') as [Hin' Hid]. by eapply NoDup_fmap_eq.
  - intros v ids Hv Hid.
    destruct (Hix v ids _ Hv Hid) as [_ (r' & Hin' & Hid' & Ho)].
    assert (r' = rule) as -> by (by eapply NoDup_fmap_eq).
    apply Hout in Ho.
    assert (Hsome : is_Some (_states (init schema cfg) !! v)) by (apply Hdom; eauto).
    rewrite init_states, Ho in Hsome. by destruct Hsome.
Qed.

Lemma init_sim schema cfg rs1 rule rs2 :
  rules schema = rs1 ++ rule :: rs2 →
  NoDup (r_id <$> rules schema) →
  (∀ o, r_output rule = Some o → declared schema o = None) →
  sim (init schema cfg) (init (with_rules schema (rs1 ++ rs2)) cfg).
Proof.
  intros Hrules Hnd Hout.
  assert (Hin : rule ∈ rules schema).
  { rewrite Hrules. apply elem_of_app. right. left. }
  destruct (undeclared_output_unindexed schema cfg rule Hin Hnd Hout) as [_ Hun].
  destruct (init_loaded schema cfg) as (_ & _ & Hc1).
  destruct (init_loaded (with_rules schema (rs1 ++ rs2)) cfg) as (_ & _ & Hc2).
  destruct (init_tables schema cfg) as (Ht1 & Hi1 & Hk1).
  destruct (init_tables (with_rules schema (rs1 ++ rs2)) cfg) as (Ht2 & Hi2 & Hk2).
  assert (Hindex : _var_to_output_rules (init schema cfg) =
                   _var_to_output_rules (init (with_rules schema (rs1 ++ rs2)) cfg)).
  { rewrite Hi1, Hi2, Hrules. simpl. rewrite !fold_left_app. cbn [fold_left].
    change (loaded_variables (with_rules schema (rs1 ++ rs2)) cfg)
      with (loaded_variables schema cfg).
    f_equal. unfold index_output at 1.
    destruct (r_output rule) as [o|] eqn:Ho; [| done].
    destruct (String.eqb o ""); [done |]. unfold index_append.
    by rewrite (undeclared_not_indexed schema cfg rs1 o (Hout o eq_refl)). }
  split; [by rewrite Hc1, Hc2 | split; [by rewrite !init_variables | split]].
  { by rewrite Hk1, Hk2. }
  split; [| split; [done |]].
  - apply map_eq. intros k. by rewrite !init_states.
  - intros v ids id Hv Hid.
    assert (Hne : r_id rule ≠ id) by (intros <-; by apply (Hun v ids)).
    rewrite Ht1, Ht2, Hrules. simpl. rewrite !fold_left_app. cbn [fold_left].
    apply table_lookup_agree. by rewrite lookup_insert_ne.
Qed.

(** *** Training leaves unindexed rules alone *)

#[global] Instance keeps_unindexed_refl id : Reflexive (keeps_unindexed id).
Proof. intros a _. by split. Qed.

#[global] Instance keeps_unindexed_trans id : Transitive (keeps_unindexed id).
Proof.
  intros a b c Hab Hbc Ha. destruct (Hab Ha) as [Ho Hr].
  destruct Hbc as [Ho' Hr'].
  { intros v ids. rewrite Ho. apply Ha. }
  split; congruence.
Qed.

Lemma run_same_static self evidence iterations self' out :
  run self evidence iterations = Ok (self', out) → same_static self self'.
Proof.
  intros (k & Hrun)%run_inv. unfold run_counting in Hrun.
  apply bind_Ok in Hrun as (self1 & Hreset & Hrun).
  apply bind_Ok in Hrun as ([self2 k2] & Hloop & [= <- <- <-]).
  apply inference_loop_evolves in Hloop as [Hs _].
  unfold _reset_to_priors in Hreset.
  apply bind_Ok in Hreset as (sts & _ & [= <-]).
  unfold same_static in *. by rewrite Hs.
Qed.

Lemma _update_weights_keeps self target_var error inputs id :
  unindexed self id →
  keeps id self (_update_weights self target_var error inputs).
Proof.
  intros Hun. unfold _update_weights.
  destruct (_var_to_output_rules self !! target_var) as [ids|] eqn:Hv; simpl;
    [| by split].
  specialize (Hun target_var ids Hv). clear Hv.
  revert self. induction ids as [|rid ids IH]; intros self; cbn [fold_left];
    [by split |].
  apply not_elem_of_cons in Hun as [Hne Hun].
  match goal with
  | |- keeps _ _ (fold_left _ _ ?s1) =>
      assert (Hstep : keeps id self s1);
        [| destruct Hstep as [Ho Hr]; destruct (IH Hun s1) as [Ho' Hr'];
           split; congruence]
  end.
  destruct (_rules self !! rid) as [r|]; [| by split].
  destruct (r_learnable r) as [[|]|]; try (by split);
    (split; [done | simpl; by rewrite lookup_insert_ne]).
Qed.

Lemma train_example_keeps id acc example acc' :
  train_example acc example = Ok acc' → keeps_unindexed id acc acc'.
Proof.
  destruct acc as [self loss]. unfold train_example.
  intros ([self1 out] & Hrun & [= <-])%bind_Ok.
  apply run_same_static in Hrun.
  assert (H1 : keeps_unindexed id (self, loss) (self1, loss)).
  { intros _. unfold same_static in Hrun. rewrite Hrun. by split. }
  etrans; [exact H1 |].
  apply (fold_left_rel (keeps_unindexed id) _ _ _ _) with (s := (self1, loss)).
  intros [s l] [tv tval] _ Hun. simpl. by apply _update_weights_keeps.
Qed.

Lemma train_epochs_keeps id data n : ∀ self final_loss self' loss,
  train_epochs self data n final_loss = Ok (self', loss) →
  unindexed self id → keeps id self self'.
Proof.
  induction n as [|n IH]; intros self fl self' loss; simpl.
  - intros [= <- <-] _. by split.
  - intros ([self1 l1] & Hdata & Hrest)%bind_Ok Hun.
    apply (for_each_rel (keeps_unindexed id)) in Hdata;
      [| apply _ | apply _ | intros ? ? ? _; apply train_example_keeps].
    specialize (Hdata Hun). simpl in Hdata. destruct Hdata as [Ho Hr].
    destruct (Qlt_bool _ _).
    + injection Hrest as <- <-. by split.
    + apply IH in Hrest as [Ho' Hr'].
      * split; congruence.
      * intros v ids. rewrite Ho. apply Hun.
Qed.

(** C10 (as amended). In a schema whose rule identifiers are unique, a rule
    whose output names an undeclared variable is inert: [run] returns the
    same map (or raises the same exception) as on the schema without the
    rule, and [train] leaves the rule, hence its weight, as it was loaded,
    since its identifier is never entered in the output index. *)
Theorem undeclared_output_rule_inert schema cfg rs1 rule rs2 :
  rules schema = rs1 ++ rule :: rs2 →
  NoDup (r_id <$> rules schema) →
  (∀ o, r_output rule = Some o → declared schema o = None) →
  (∀ evidence iterations,
     returned (run (init schema cfg) evidence iterations) =
     returned (run (init (with_rules schema (rs1 ++ rs2)) cfg) evidence iterations)) ∧
  unindexed (init schema cfg) (r_id rule) ∧
  (∀ data epochs self' loss,
     train (init schema cfg) data epochs = Ok (self', loss) →
     _rules self' !! r_id rule = Some rule ∧
     r_weight <$> _rules self' !! r_id rule = Some (r_weight rule)).
Proof.
  intros Hrules Hnd Hout.
  assert (Hin : rule ∈ rules schema).
  { rewrite Hrules. apply elem_of_app. right. left. }
  destruct (undeclared_output_unindexed schema cfg rule Hin Hnd Hout) as [Hst Hun].
  split; [| split; [done |]].
  - intros evidence iterations.
    apply run_sim. by apply (init_sim schema cfg rs1 rule rs2).
  - intros data epochs self' loss Htrain. unfold train in Htrain.
    apply (train_epochs_keeps (r_id rule)) in Htrain as [_ Hr]; [| done].
    rewrite Hr, Hst. done.
Qed.

Lemma undeclared_output_rule_inert_witness :
  returned (run (init Scenarios.with_ghost_rule None) Scenarios.evidence_a None) =
  returned (run (init Scenarios.single_implication None) Scenarios.evidence_a None) ∧
  ∃ self' loss,
    train (init Scenarios.with_ghost_rule None) [Scenarios.one_example] 1 = Ok (self', loss) ∧
    r_weight <$> _rules self' !! "a_to_ghost"%string = Some (Some (1 # 2)).
Proof.
  destruct (undeclared_output_rule_inert Scenarios.with_ghost_rule None
              [Scenarios.rule_of "a_to_b" "IMPLICATION" ["A"%string] "B" "IDENTITY" (9 # 10)]
              Scenarios.ghost_rule [])
    as (Hrun & _ & Htrain).
  - reflexivity.
  - simpl. apply NoDup_cons. split; [| apply NoDup_singleton].
    intros H%list_elem_of_singleton. discriminate H.
  - intros o [= <-]. reflexivity.
  - split; [exact (Hrun Scenarios.evidence_a None) |].
    destruct (train (init Scenarios.with_ghost_rule None) [Scenarios.one_example] 1)
      as [[self' loss]|e] eqn:Ht; [| by vm_compute in Ht].
    exists self', loss. split; [done |].
    destruct (Htrain _ _ _ _ Ht) as [_ Hw]. exact Hw.
Defined.

(** C10 (as stated) fails when the rule shares its identifier with an
    indexed rule: in [shared_rule_id] the rule into the undeclared [ghost]
    replaces, in the rule table, the rule into [B] that entered the
    identifier [x] in the output index.  It is then the rule that the
    forward pass evaluates for [B] (the run ends with [B] at 639/1280
    instead of 1151/1280 without it), and [train] moves its weight from 1/2
    to 6977/12800. *)
Lemma shared_id_rule_not_inert :
  r_output Scenarios.rule_x_to_ghost = Some "ghost"%string ∧
  declared Scenarios.shared_rule_id "ghost" = None ∧
  _var_to_output_rules (init Scenarios.shared_rule_id None) !! "B"%string
    = Some ["x"%string] ∧
  _rules (init Scenarios.shared_rule_id None) !! "x"%string
    = Some Scenarios.rule_x_to_ghost ∧
  (∃ self' out, run (init Scenarios.shared_rule_id None) Scenarios.evidence_a None
                  = Ok (self', out) ∧
                Qred <$> out = {["A"%string := 1; "B"%string := 639 # 1280]}) ∧
  (∃ self' out, run (init Scenarios.shared_rule_id_without None) Scenarios.evidence_a None
                  = Ok (self', out) ∧
                Qred <$> out = {["A"%string := 1; "B"%string := 1151 # 1280]}) ∧
  (∃ self' loss rule',
     train (init Scenarios.shared_rule_id None) [Scenarios.one_example] 1
       = Ok (self', loss) ∧
     _rules self' !! "x"%string = Some rule' ∧
     r_output rule' = Some "ghost"%string ∧
     Qred <$> r_weight rule' = Some (6977 # 12800)) ∧
  ¬ (returned (run (init Scenarios.shared_rule_id None) Scenarios.evidence_a None) =
     returned (run (init Scenarios.shared_rule_id_without None) Scenarios.evidence_a None)).
Proof.
  split; [reflexivity |]. split; [reflexivity |].
  split; [vm_compute; reflexivity |]. split; [vm_compute; reflexivity |].
  split; [eexists _, _; split; vm_compute; reflexivity |].
  split; [eexists _, _; split; vm_compute; reflexivity |].
  split; [eexists _, _, _; split; [vm_compute; reflexivity |];
          split; [reflexivity | split; reflexivity] |].
  intros H.
  assert (Hb : ∀ r : result (gmap string Q),
            match r with Ok o => Qred <$> o !! "B"%string | Raise _ => None end =
            match r with Ok o => Qred <$> o !! "B"%string | Raise _ => None end)
    by done.
  specialize (Hb (returned (run (init Scenarios.shared_rule_id None)
                              Scenarios.evidence_a None))).
  rewrite H in Hb at 2. vm_compute in Hb. discriminate Hb.
Qed.

(** The same epoch does move the weight of the indexed rule [a_to_b], from
    0.9 to 0.905: the error at [B] is 0.95 - 0.9 (up to convergence) and the
    input strength is 1. *)
Example training_moves_indexed_weight :
  ∃ self' loss w,
    train (init Scenarios.with_ghost_rule None) [Scenarios.one_example] 1
      = Ok (self', loss) ∧
    r_weight <$> _rules self' !! "a_to_b"%string = Some (Some w) ∧
    9 # 10 < w < 91 # 100.
Proof.
  eexists _, _, _. split; [vm_compute; reflexivity |].
  split; [reflexivity |]. split; reflexivity.
Qed.

End Inert.

(** * Further properties of the logic kernel *)

Section Kernel.

Lemma py_sum_from xs : ∀ a, fold_left Qplus xs a == a + py_sum xs.
Proof.
  unfold py_sum. induction xs as [|x xs IH]; intros a; cbn [fold_left]; [lra |].
  rewrite (IH (a + x)), (IH (0 + x)). lra.
Qed.

Lemma py_sum_cons x xs : py_sum (x :: xs) == x + py_sum xs.
Proof. unfold py_sum at 1. cbn [fold_left]. rewrite py_sum_from. lra. Qed.

Lemma py_len_cons {A} (x : A) xs : py_len (x :: xs) == 1 + py_len xs.
Proof.
  unfold py_len. cbn [length]. rewrite Nat2Z.inj_succ, <- Z.add_1_l.
  by rewrite inject_Z_plus.
Qed.

Lemma py_len_nonneg {A} (xs : list A) : 0 <= py_len xs.
Proof.
  unfold py_len. change 0 with (inject_Z 0). rewrite <- Zle_Qle. lia.
Qed.

Lemma py_sum_bounds xs :
  Forall (λ v, 0 <= v <= 1) xs → 0 <= py_sum xs <= py_len xs.
Proof.
  induction 1 as [|x xs Hx _ IH].
  - unfold py_sum, py_len. cbn [fold_left length].
    change (inject_Z (Z.of_nat 0)) with 0. lra.
  - rewrite py_sum_cons, py_len_cons. lra.
Qed.

Lemma fuzzy_and_range vs : 0 <= fuzzy_and vs <= 1.
Proof. destruct vs as [|v [|v' vs]]; simpl; try apply clamp_range; lra. Qed.

Lemma fuzzy_or_range vs : 0 <= fuzzy_or vs <= 1.
Proof. destruct vs as [|v [|v' vs]]; simpl; try apply clamp_range; lra. Qed.

Lemma weighted_average_range vws : 0 <= weighted_average vws <= 1.
Proof.
  unfold weighted_average. destruct vws; [lra |].
  destruct (Qeq_bool _ _); [lra | apply clamp_range].
Qed.

(** Every kernel operation returns a truth value, whatever its arguments:
    all of them clamp their result (the empty conjunction and disjunction and
    the neutral 0.5 are constants in range). *)
Theorem kernel_results_in_unit_interval (a b w : Q) (vs : list Q)
    (vws : list (Q * Q)) :
  0 <= clamp a <= 1 ∧
  0 <= fuzzy_not a <= 1 ∧
  0 <= fuzzy_and vs <= 1 ∧
  0 <= fuzzy_or vs <= 1 ∧
  0 <= implies a b <= 1 ∧
  0 <= equivalent a b <= 1 ∧
  0 <= weighted_average vws <= 1 ∧
  0 <= inhibit a b w <= 1 ∧
  0 <= support a b w <= 1 ∧
  Forall (λ v, 0 <= v <= 1) (mutex_normalize vs).
Proof.
  repeat split; try apply clamp_range.
  - destruct vs as [|v [|v' vs]]; simpl; try apply clamp_range; lra.
  - destruct vs as [|v [|v' vs]]; simpl; try apply clamp_range; lra.
  - destruct vs as [|v [|v' vs]]; simpl; try apply clamp_range; lra.
  - destruct vs as [|v [|v' vs]]; simpl; try apply clamp_range; lra.
  - unfold weighted_average. destruct vws; [lra |].
    destruct (Qeq_bool _ _); [lra | apply clamp_range].
  - unfold weighted_average. destruct vws; [lra |].
    destruct (Qeq_bool _ _); [lra | apply clamp_range].
  - unfold mutex_normalize. destruct vs as [|v vs]; [constructor |].
    destruct (Qle_bool _ _); apply Forall_forall; intros x Hx;
      apply list_elem_of_fmap in Hx as (y & -> & _); apply clamp_range.
Qed.

(** [clamp] is the identity exactly on the valid truth values, it is
    idempotent and it is monotone. *)
Theorem clamp_fixes_valid_values (v v' : Q) :
  (is_valid_truth_value v = true ↔ clamp v == v) ∧
  clamp (clamp v) == clamp v ∧
  (v <= v' → clamp v <= clamp v').
Proof.
  split; [| split].
  - unfold is_valid_truth_value. rewrite andb_true_iff, !Qle_bool_iff. split.
    + intros ?. by apply clamp_id.
    + intros <-. apply clamp_range.
  - apply clamp_id, clamp_range.
  - intros Hv. unfold clamp, py_max, py_min. q_cases; lra.
Qed.

End Kernel.

(** ** The algebra of the kernel under rounding *)

Section KernelRounding.

Import Binary64.

(** In binary64 the two-argument conjunction and disjunction are
    commutative and monotone in their first argument, but, unlike their
    exact counterparts, they are not associative. *)
Theorem fuzzy_and_or_algebra :
  (∀ a b, is_float a → is_float b →
     Logic64.fuzzy_and [a; b] = Logic64.fuzzy_and [b; a] ∧
     Logic64.fuzzy_or [a; b] = Logic64.fuzzy_or [b; a]) ∧
  (∀ a a' b, is_float a → is_float a' → a <= a' →
     Logic64.fuzzy_and [a; b] <= Logic64.fuzzy_and [a'; b] ∧
     Logic64.fuzzy_or [a; b] <= Logic64.fuzzy_or [a'; b]) ∧
  ¬ (∀ a b c, is_float a → is_float b → is_float c →
       0 <= a <= 1 → 0 <= b <= 1 → 0 <= c <= 1 →
       Logic64.fuzzy_and [Logic64.fuzzy_and [a; b]; c] ==
       Logic64.fuzzy_and [a; Logic64.fuzzy_and [b; c]]) ∧
  ¬ (∀ a b c, is_float a → is_float b → is_float c →
       0 <= a <= 1 → 0 <= b <= 1 → 0 <= c <= 1 →
       Logic64.fuzzy_or [Logic64.fuzzy_or [a; b]; c] ==
       Logic64.fuzzy_or [a; Logic64.fuzzy_or [b; c]]).
Proof.
  split; [| split; [| split]].
  - intros a b Fa Fb. unfold Logic64.fuzzy_and, Logic64.fuzzy_or.
    rewrite !py_sum_pair by done.
    rewrite (round_comp (a + b) (b + a)) by ring. done.
  - intros a a' b Fa Fa' Hle. unfold Logic64.fuzzy_and, Logic64.fuzzy_or, sub.
    rewrite !py_sum_pair by done.
    assert (H : round (a + b) <= round (a' + b)) by (apply round_le; lra).
    split; apply clamp_le; [| done].
    apply round_le. unfold py_len. cbn [length]. lra.
  - intros H.
    assert (Hne : ¬ Logic64.fuzzy_and
                      [Logic64.fuzzy_and [round (4 # 5); round (9 # 10)]; 1 # 2] ==
                    Logic64.fuzzy_and
                      [round (4 # 5); Logic64.fuzzy_and [round (9 # 10); 1 # 2]])
      by (by vm_compute).
    apply Hne, H; by vm_compute.
  - intros H.
    assert (Hne : ¬ Logic64.fuzzy_or
                      [Logic64.fuzzy_or [round (1 # 10); round (1 # 5)];
                       round (3 # 10)] ==
                    Logic64.fuzzy_or
                      [round (1 # 10);
                       Logic64.fuzzy_or [round (1 # 5); round (3 # 10)]])
      by (by vm_compute).
    apply Hne, H; by vm_compute.
Qed.

(** In binary64, on truth values, [a -> 0] is the negation of [a],
    [a -> b] is [not a or b], and equivalence is symmetric.  Rounding breaks
    the other dualities of the exact kernel: negation is not an involution,
    the De Morgan law fails, and equivalence is not the conjunction of the
    two implications. *)
Theorem negation_dualities :
  (∀ a b, is_float a → is_float b → 0 <= a <= 1 → 0 <= b <= 1 →
     Logic64.implies a 0 == Logic64.fuzzy_not a ∧
     Logic64.implies a b == Logic64.fuzzy_or [Logic64.fuzzy_not a; b] ∧
     Logic64.equivalent a b == Logic64.equivalent b a) ∧
  ¬ (∀ a, is_float a → 0 <= a <= 1 →
       Logic64.fuzzy_not (Logic64.fuzzy_not a) == a) ∧
  ¬ (∀ a b, is_float a → is_float b → 0 <= a <= 1 → 0 <= b <= 1 →
       Logic64.fuzzy_not (Logic64.fuzzy_and [a; b]) ==
       Logic64.fuzzy_or [Logic64.fuzzy_not a; Logic64.fuzzy_not b]) ∧
  ¬ (∀ a b, is_float a → is_float b → 0 <= a <= 1 → 0 <= b <= 1 →
       Logic64.equivalent a b ==
       Logic64.fuzzy_and [Logic64.implies a b; Logic64.implies b a]).
Proof.
  split; [| split; [| split]].
  - intros a b Fa Fb Ha Hb.
    unfold Logic64.implies, Logic64.fuzzy_not, Logic64.equivalent,
      Logic64.fuzzy_or, Logic64.py_sum, sub, add. cbn [fold_left].
    set (n := round (1 - a)).
    assert (Hn : 0 <= n <= 1).
    { split; [apply round_nonneg | apply round_le_1]; lra. }
    split; [| split].
    + rewrite (round_comp (n + 0) n) by ring. apply clamp_proper, round_idem.
    + assert (E : round (0 + clamp n) == n).
      { rewrite (round_comp _ n) by (rewrite clamp_id by done; ring).
        apply round_idem. }
      by rewrite (round_comp (round (0 + clamp n) + b) (n + b)) by (by rewrite E).
    + assert (E : round (a - b) == - round (b - a)).
      { rewrite (round_comp (a - b) (- (b - a))) by ring. apply round_opp. }
      rewrite (round_comp (1 - Qabs (round (a - b))) (1 - Qabs (round (b - a))));
        [reflexivity |].
      by rewrite E, Qabs_opp.
  - intros H.
    assert (Hne : ¬ Logic64.fuzzy_not (Logic64.fuzzy_not (round (1 # 10))) ==
                    round (1 # 10)) by (by vm_compute).
    apply Hne, H; by vm_compute.
  - intros H.
    assert (Hne : ¬ Logic64.fuzzy_not (Logic64.fuzzy_and [round (1 # 10); 1]) ==
                    Logic64.fuzzy_or [Logic64.fuzzy_not (round (1 # 10));
                                      Logic64.fuzzy_not 1]) by (by vm_compute).
    apply Hne, H; by vm_compute.
  - intros H.
    assert (Hne : ¬ Logic64.equivalent 0 (round (1 # 10)) ==
                    Logic64.fuzzy_and [Logic64.implies 0 (round (1 # 10));
                                       Logic64.implies (round (1 # 10)) 0])
      by (by vm_compute).
    apply Hne, H; by vm_compute.
Qed.



End KernelRounding.

Section KernelArithmetic.

Lemma div_unit x t : 0 <= x → x <= t → 0 < t → 0 <= x / t <= 1.
Proof.
  intros Hx Hxt Ht. split.
  - apply Qle_shift_div_l; [done | lra].
  - apply Qle_shift_div_r; [done | lra].
Qed.

Lemma inhibit_support_bounds (t a w : Q) :
  0 <= t <= 1 → 0 <= a <= 1 → 0 <= w <= 1 →
  inhibit t a w <= t ∧ t <= support t a w.
Proof.
  intros Ht Ha Hw. pose proof (mult_unit a w Ha Hw) as Hf.
  assert (Hi : 0 <= t * (1 - a * w) <= 1) by (apply mult_unit; lra).
  assert (Hs : 0 <= (1 - t) * (a * w) <= 1) by (apply mult_unit; lra).
  assert (Htf : 0 <= t * (a * w)) by (apply Qmult_le_0_compat; lra).
  assert (0 <= (1 - t) * (1 - a * w)) by (apply Qmult_le_0_compat; lra).
  unfold inhibit, support. rewrite !clamp_id; lra.
Qed.

(** On truth values and a weight in [0,1] the clamps of [inhibit] and
    [support] are inactive; an attack never raises its target and a support
    never lowers it, a source at 0 leaves the target as it is, and a source
    at 1 with weight 1 sends the target to 0 (attack) or to 1 (support). *)
Theorem inhibit_support_direction (t a w : Q) :
  0 <= t <= 1 → 0 <= a <= 1 → 0 <= w <= 1 →
  inhibit t a w == t * (1 - a * w) ∧
  support t a w == t + (1 - t) * (a * w) ∧
  inhibit t a w <= t ∧
  t <= support t a w ∧
  inhibit t 0 w == t ∧
  support t 0 w == t ∧
  inhibit t 1 1 == 0 ∧
  support t 1 1 == 1.
Proof.
  intros Ht Ha Hw.
  pose proof (mult_unit a w Ha Hw) as Hf.
  assert (Hi : 0 <= t * (1 - a * w) <= 1) by (apply mult_unit; lra).
  assert (Hs : 0 <= (1 - t) * (a * w) <= 1) by (apply mult_unit; lra).
  assert (Htf : 0 <= t * (a * w)) by (apply Qmult_le_0_compat; lra).
  assert (Hs' : (1 - t) * (a * w) <= 1 - t).
  { assert (0 <= (1 - t) * (1 - a * w)) by (apply Qmult_le_0_compat; lra). lra. }
  assert (E1 : inhibit t a w == t * (1 - a * w)) by (by apply clamp_id).
  assert (E2 : support t a w == t + (1 - t) * (a * w)) by (apply clamp_id; lra).
  split; [done | split; [done |]].
  split; [rewrite E1; lra | split; [rewrite E2; lra |]].
  unfold inhibit, support.
  repeat split.
  - rewrite clamp_id; lra.
  - rewrite clamp_id; lra.
  - apply clamp_le_0. lra.
  - apply clamp_ge_1. lra.
Qed.

Lemma inhibit_support_direction_witness :
  inhibit (7 # 10) (4 # 5) 1 <= 7 # 10 ∧ 7 # 10 <= support (7 # 10) (4 # 5) 1.
Proof.
  destruct (inhibit_support_direction (7 # 10) (4 # 5) 1)
    as (_ & _ & H1 & H2 & _); [lra | lra | lra | by split].
Defined.

Lemma upper_ascii_idemp c : upper_ascii (upper_ascii c) = upper_ascii c.
Proof. by destruct c as [[] [] [] [] [] [] [] []]. Qed.

Lemma str_upper_idemp s : str_upper (str_upper s) = str_upper s.
Proof.
  induction s as [|c s IH]; [done |]. cbn [str_upper].
  by rewrite upper_ascii_idemp, IH.
Qed.

(** For an operator that is a string of ASCII characters,
    [apply_operation] raises exactly when the upper-cased operator is none
    of IDENTITY, AND, OR, NOT, WEIGHTED, and then the exception is the
    [ValueError] naming the upper-cased operator; the dispatch does not
    depend on the letter case of the operator. *)
Theorem apply_operation_raises_iff (op : string) (ins : list Q)
    (ws : option (list Q)) :
  isascii op = true →
  ((∃ e, apply_operation op ins ws = Raise e) ↔ known_op op = false) ∧
  (∀ e, apply_operation op ins ws = Raise e →
        e = ValueError ("Unknown operation: " ++ str_upper op)) ∧
  apply_operation (str_upper op) ins ws = apply_operation op ins ws.
Proof.
  intros _. split; [| split].
  - unfold apply_operation, known_op.
    destruct (String.eqb_spec (str_upper op) "IDENTITY") as [->|H1];
      [split; [by intros [? ?] | done] |].
    destruct (String.eqb_spec (str_upper op) "AND") as [->|H2];
      [split; [by intros [? ?] | done] |].
    destruct (String.eqb_spec (str_upper op) "OR") as [->|H3];
      [split; [by intros [? ?] | done] |].
    destruct (String.eqb_spec (str_upper op) "NOT") as [->|H4];
      [split; [by intros [? ?] | done] |].
    destruct (String.eqb_spec (str_upper op) "WEIGHTED") as [->|H5].
    { split; [| done]. intros [e He]. exfalso.
      destruct ws as [[|w ws]|]; try discriminate He.
      by destruct (Nat.eqb _ _). }
    split; [| eauto]. intros _. apply bool_decide_eq_false. intros Hin.
    repeat (apply elem_of_cons in Hin as [?|Hin]; [done |]).
    by apply elem_of_nil in Hin.
  - unfold apply_operation. intros e.
    repeat (destruct (String.eqb _ _); [discriminate |]).
    destruct (String.eqb _ _); [| by intros [= <-]].
    destruct ws as [[|w ws]|]; try discriminate.
    by destruct (Nat.eqb _ _).
  - unfold apply_operation. by rewrite str_upper_idemp.
Qed.

Lemma apply_operation_raises_iff_witness :
  apply_operation "Xor" [1 # 2] None = Raise (ValueError "Unknown operation: XOR") ∧
  apply_operation "NOT" [1 # 2] None = apply_operation "not" [1 # 2] None.
Proof.
  destruct (apply_operation_raises_iff "Xor" [1 # 2] None) as (Hiff & Hmsg & _);
    [reflexivity |].
  destruct (apply_operation_raises_iff "not" [1 # 2] None) as (_ & _ & Hup);
    [reflexivity |].
  split; [| exact Hup].
  destruct (proj2 Hiff) as [e He]; [reflexivity |].
  rewrite He. f_equal. exact (Hmsg e He).
Defined.

(** On input truth values every result of [apply_operation] is a truth
    value, also for WEIGHTED, whose unweighted mean is not clamped. *)
Theorem apply_operation_range (op : string) (ins : list Q)
    (ws : option (list Q)) (x : Q) :
  Forall (λ v, 0 <= v <= 1) ins →
  apply_operation op ins ws = Ok x →
  0 <= x <= 1.
Proof.
  intros Hins. unfold apply_operation.
  destruct (String.eqb _ "IDENTITY").
  { intros [= <-]. destruct ins; [lra | apply clamp_range]. }
  destruct (String.eqb _ "AND").
  { intros [= <-]. apply fuzzy_and_range. }
  destruct (String.eqb _ "OR").
  { intros [= <-]. apply fuzzy_or_range. }
  destruct (String.eqb _ "NOT").
  { intros [= <-]. destruct ins; [lra | apply clamp_range]. }
  destruct (String.eqb _ "WEIGHTED"); [| discriminate].
  assert (Hmean : 0 <= match ins with
                       | [] => 1 # 2
                       | _ :: _ => py_sum ins / py_len ins
                       end <= 1).
  { destruct ins as [|v vs] eqn:Hv; [lra |]. rewrite <- Hv in *.
    pose proof (py_sum_bounds ins Hins) as [H0 H1].
    apply div_unit; [done | done |].
    rewrite Hv, py_len_cons. pose proof (py_len_nonneg vs). lra. }
  destruct ws as [[|w ws]|]; try (by intros [= <-]).
  destruct (Nat.eqb _ _); intros [= <-]; [| done].
  apply weighted_average_range.
Qed.

Lemma apply_operation_range_witness :
  ∃ x, apply_operation "weighted" [1 # 5; 4 # 5; 1] None = Ok x ∧ 0 <= x <= 1.
Proof.
  eexists. split; [reflexivity |].
  eapply (apply_operation_range "weighted" [1 # 5; 4 # 5; 1] None);
    [repeat constructor; lra | reflexivity].
Defined.

End KernelArithmetic.

(** * Further properties of the engine *)

Import Notions.

Section Accessors.

Implicit Types (self : NeuroEngine).

(** [set_value] succeeds exactly on a declared, unlocked variable; then
    [get_value] reads back the clamped value, and in every case the other
    variables, the lock flags and the rest of the engine are as before.  A
    refused call leaves the engine as it is. *)
Theorem set_value_get_value self v x :
  ((set_value self v x).2 = true ↔
     ∃ st, _states self !! v = Some st ∧ locked st = false) ∧
  ((set_value self v x).2 = true →
     get_value (set_value self v x).1 v = Some (clamp x)) ∧
  ((set_value self v x).2 = false → (set_value self v x).1 = self) ∧
  (∀ v', v' ≠ v →
     _states (set_value self v x).1 !! v' = _states self !! v') ∧
  (∀ v', locked <$> _states (set_value self v x).1 !! v' =
         locked <$> _states self !! v') ∧
  same_static self (set_value self v x).1.
Proof.
  unfold set_value, get_value, same_static.
  destruct (_states self !! v) as [st|] eqn:Hst.
  - destruct (locked st) eqn:Hl; simpl.
    + repeat split; try done.
      * intros (st' & [= <-] & ?). congruence.
      * by destruct self.
    + repeat split; try done; eauto.
      * by rewrite lookup_insert_eq.
      * intros v' Hne. by rewrite lookup_insert_ne.
      * intros v'. destruct (decide (v = v')) as [<-|Hne].
        -- rewrite lookup_insert_eq, Hst. simpl. congruence.
        -- by rewrite lookup_insert_ne.
  - simpl. repeat split; try done.
    + by intros (st' & ? & ?).
    + by destruct self.
Qed.

(** [lock_variable] on a declared variable stores the clamped value and
    locks it, whether or not it was locked before; afterwards [set_value]
    on that variable is refused and changes nothing.  On an undeclared
    variable [lock_variable] is refused and changes nothing. *)
Theorem lock_variable_refuses_set_value self v x y :
  ((lock_variable self v x).2 = true ↔ is_Some (_states self !! v)) ∧
  ((lock_variable self v x).2 = true →
     get_value (lock_variable self v x).1 v = Some (clamp x) ∧
     locked <$> _states (lock_variable self v x).1 !! v = Some true ∧
     set_value (lock_variable self v x).1 v y = ((lock_variable self v x).1, false)) ∧
  ((lock_variable self v x).2 = false → (lock_variable self v x).1 = self) ∧
  (∀ v', v' ≠ v →
     _states (lock_variable self v x).1 !! v' = _states self !! v').
Proof.
  unfold lock_variable.
  destruct (_states self !! v) as [st|] eqn:Hst; simpl.
  - split; [split; eauto | split; [| split; [done |]]].
    + intros _. unfold get_value, set_value. simpl.
      rewrite !lookup_insert_eq. done.
    + intros v' Hne. by rewrite lookup_insert_ne.
  - split; [split; [done | by intros [? ?]] | done].
Qed.

(** [set_rule_weight] succeeds exactly on a stored rule identifier; then
    [get_rule_weight] reads back the clamped weight, the other fields of the
    rule and all other rules are kept, and so are the states and the
    indexes.  On an unknown identifier the call is refused, nothing changes
    and [get_rule_weight] is [None]. *)
Theorem set_rule_weight_get_rule_weight self id w :
  ((set_rule_weight self id w).2 = true ↔ is_Some (_rules self !! id)) ∧
  ((set_rule_weight self id w).2 = true →
     get_rule_weight (set_rule_weight self id w).1 id = Some (clamp w) ∧
     ∃ r, _rules self !! id = Some r ∧
          _rules (set_rule_weight self id w).1 !! id = Some (with_weight r (clamp w))) ∧
  ((set_rule_weight self id w).2 = false →
     (set_rule_weight self id w).1 = self ∧ get_rule_weight self id = None) ∧
  (∀ id', id' ≠ id →
     _rules (set_rule_weight self id w).1 !! id' = _rules self !! id') ∧
  (set_rule_weight self id w).1 = set_rules self (_rules (set_rule_weight self id w).1).
Proof.
  unfold set_rule_weight, get_rule_weight.
  destruct (_rules self !! id) as [r|] eqn:Hr; simpl.
  - split; [split; eauto |]. split; [| split; [done | split; [| done]]].
    + intros _. rewrite lookup_insert_eq. eauto.
    + intros id' Hne. by rewrite lookup_insert_ne.
  - rewrite Hr. split; [split; [done | by intros [? ?]] |].
    repeat split; try done. by destruct self.
Qed.

End Accessors.

Section RunResults.

Implicit Types (sts : gmap string VariableState) (self : NeuroEngine).

Lemma lock_evidence_is_Some evidence sts k :
  is_Some (lock_evidence evidence sts !! k) ↔ is_Some (sts !! k).
Proof.
  rewrite lock_evidence_lookup.
  destruct (evidence_of evidence k); [| done]. by rewrite fmap_is_Some.
Qed.

Lemma run_output_keys schema cfg evidence iterations self' out :
  run (init schema cfg) evidence iterations = Ok (self', out) →
  ∀ v, is_Some (out !! v) ↔ is_Some (declared schema v).
Proof.
  intros Hrun v. destruct (init_loaded schema cfg) as (Hl & _ & _).
  apply run_evolves in Hrun as (He & _ & ->); [| done].
  rewrite lookup_fmap, fmap_is_Some.
  rewrite <- (evolves_is_Some _ _ v He), lock_evidence_is_Some, init_states.
  by rewrite fmap_is_Some.
Qed.

Lemma run_output_get_value self evidence iterations self' out :
  run self evidence iterations = Ok (self', out) →
  ∀ v, get_value self' v = out !! v.
Proof.
  intros (k & Hrun)%run_inv v. unfold run_counting in Hrun.
  apply bind_Ok in Hrun as (self1 & _ & Hrun).
  apply bind_Ok in Hrun as ([self2 k2] & _ & [= <- <- <-]).
  unfold get_value, _get_all_values. rewrite lookup_fmap.
  by destruct (_states self2 !! v).
Qed.

(** Evidence for a declared variable is returned clamped. *)
Lemma run_output_evidence schema cfg evidence iterations v e self' out :
  is_Some (declared schema v) →
  evidence_of evidence v = Some e →
  run (init schema cfg) evidence iterations = Ok (self', out) →
  out !! v = Some (clamp e).
Proof.
  intros [var Hd] Hev Hrun. destruct (init_loaded schema cfg) as (Hl & _ & _).
  apply run_evolves in Hrun as (He & _ & ->); [| done].
  pose proof (lock_evidence_lookup evidence (_states (init schema cfg)) v) as Hv.
  rewrite init_states, Hd, Hev in Hv. simpl in Hv.
  rewrite lookup_fmap, (evolves_locked _ _ _ _ He Hv); done.
Qed.

(** With priors that are truth values all returned values are. *)
Lemma run_output_range schema cfg evidence iterations self' out :
  priors_in_range schema →
  run (init schema cfg) evidence iterations = Ok (self', out) →
  ∀ k x, out !! k = Some x → 0 <= x <= 1.
Proof.
  intros Hpr Hrun. destruct (init_loaded schema cfg) as (Hl & _ & _).
  apply run_evolves in Hrun as (He & _ & ->); [| done].
  intros k x. rewrite lookup_fmap.
  destruct (_states self' !! k) as [st|] eqn:Hst; [| done].
  intros [= <-]. revert k st Hst. apply (evolves_range _ _ He).
  intros k st. rewrite lock_evidence_lookup, init_states.
  destruct (declared schema k) as [var|] eqn:Hd;
    [| by destruct (evidence_of evidence k)].
  apply declared_elem, Hpr in Hd.
  destruct (evidence_of evidence k) as [e|]; simpl; intros [= <-]; simpl;
    [apply clamp_range | done].
Qed.

(** Known operators on every implication: the run returns. *)
Lemma run_total schema cfg evidence iterations :
  ops_known (rules schema) →
  ∃ self' out, run (init schema cfg) evidence iterations = Ok (self', out).
Proof.
  intros Hops. pose proof (init_runnable schema cfg Hops) as Hrun.
  destruct (init_loaded schema cfg) as (Hl & _ & _).
  unfold run, run_counting. rewrite (reset_loaded _ Hl). simpl.
  edestruct (inference_loop_total) as ([self' k] & ->); [| simpl; eauto].
  destruct Hrun as [Hdom Hix]. split; simpl; [| done].
  intros k Hk. rewrite lock_evidence_is_Some. by apply Hdom.
Qed.

(** The map returned by [run] has exactly the declared variables as keys:
    evidence for an undeclared name adds no entry.  It is also what
    [export_state] and [get_value] read from the engine afterwards. *)
Theorem run_returns_declared_variables schema cfg evidence iterations self' out :
  run (init schema cfg) evidence iterations = Ok (self', out) →
  (∀ v, is_Some (out !! v) ↔ is_Some (declared schema v)) ∧
  export_state self' = out ∧
  (∀ v, get_value self' v = out !! v).
Proof.
  intros Hrun. destruct (init_loaded schema cfg) as (Hl & _ & _).
  apply run_evolves in Hrun as (He & _ & ->); [| done].
  split; [| split].
  - intros v. rewrite lookup_fmap, fmap_is_Some.
    rewrite <- (evolves_is_Some _ _ v He), lock_evidence_is_Some, init_states.
    by rewrite fmap_is_Some.
  - done.
  - intros v. unfold get_value. rewrite lookup_fmap.
    by destruct (_states self' !! v).
Qed.

Lemma run_returns_declared_variables_witness :
  ∃ self' out,
    run (init Scenarios.single_implication None)
        (Some {["A"%string := 1; "C"%string := 1]}) None = Ok (self', out) ∧
    out !! "C"%string = None ∧ is_Some (out !! "B"%string).
Proof.
  destruct (run (init Scenarios.single_implication None)
              (Some {["A"%string := 1; "C"%string := 1]}) None)
    as [[self' out]|e] eqn:Hrun; [| by vm_compute in Hrun].
  exists self', out. split; [done |].
  destruct (run_returns_declared_variables _ _ _ _ _ _ Hrun) as (Hkeys & _).
  split.
  - apply eq_None_not_Some. rewrite Hkeys. by intros [? ?].
  - apply Hkeys. by eexists.
Defined.

(** [query] returns the value that the variable has in the engine after
    the run, and 0.5 for a variable that the schema does not declare. *)
Theorem query_undeclared_is_neutral schema cfg v evidence self' x :
  query (init schema cfg) v evidence = Ok (self', x) →
  x = default (1 # 2) (get_value self' v) ∧
  (declared schema v = None → x = 1 # 2).
Proof.
  unfold query. intros ([self1 out] & Hrun & [= <- <-])%bind_Ok.
  pose proof (run_output_keys _ _ _ _ _ _ Hrun) as Hkeys.
  pose proof (run_output_get_value _ _ _ _ _ Hrun) as Hget.
  split; [by rewrite Hget |].
  intros Hd. destruct (out !! v) eqn:Hv; [| done].
  assert (Hs : is_Some (declared schema v)) by (apply Hkeys; eauto).
  rewrite Hd in Hs. by destruct Hs.
Qed.

Lemma query_undeclared_is_neutral_witness :
  ∃ self', query (init Scenarios.single_implication None) "C" Scenarios.evidence_a
           = Ok (self', 1 # 2).
Proof.
  destruct (query (init Scenarios.single_implication None) "C" Scenarios.evidence_a)
    as [[self' x]|e] eqn:Hq; [| by vm_compute in Hq].
  exists self'.
  destruct (query_undeclared_is_neutral _ _ _ _ _ _ Hq) as [_ Hx].
  by rewrite (Hx eq_refl).
Defined.

(** With a negative [iterations] argument [run] performs no pass and never
    raises: it returns, for every declared variable, the clamped evidence
    value when the evidence names it and the declared prior otherwise. *)
Theorem run_negative_iterations schema cfg evidence (i : Z) :
  (i < 0)%Z →
  ∃ self' out,
    run_counting (init schema cfg) evidence (Some i) = Ok (self', out, O) ∧
    ∀ v, out !! v =
         (λ var, match evidence_of evidence v with
                 | Some e => clamp e
                 | None => default (1 # 2) (v_prior var)
                 end) <$> declared schema v.
Proof.
  intros Hi. destruct (init_loaded schema cfg) as (Hl & _ & _).
  unfold run_counting. rewrite (reset_loaded _ Hl). simpl.
  assert (Hz : (i =? 0)%Z = false) by lia. rewrite Hz.
  replace (Z.to_nat i) with O by lia. simpl.
  eexists _, _. split; [reflexivity |].
  intros v. unfold _get_all_values. simpl.
  rewrite lookup_fmap, lock_evidence_lookup, init_states.
  destruct (declared schema v); simpl; [| by destruct (evidence_of evidence v)].
  by destruct (evidence_of evidence v).
Qed.

Lemma run_negative_iterations_witness :
  ∃ self' out,
    run_counting (init Scenarios.single_implication None) Scenarios.evidence_a
      (Some (-1)%Z) = Ok (self', out, O) ∧
    out !! "B"%string = Some (1 # 10).
Proof.
  destruct (run_negative_iterations Scenarios.single_implication None
              Scenarios.evidence_a (-1)) as (self' & out & Hrun & Hout); [lia |].
  exists self', out. split; [done |]. by rewrite Hout.
Defined.

End RunResults.

(** ** [run] starts afresh *)

Section History.

Implicit Types (sts : gmap string VariableState) (self : NeuroEngine).

#[global] Instance frame_kept_refl : Reflexive frame_kept.
Proof. intros sts k. destruct (sts !! k); by constructor. Qed.

#[global] Instance frame_kept_trans : Transitive frame_kept.
Proof.
  intros s1 s2 s3 H12 H23 k. specialize (H12 k). specialize (H23 k).
  destruct H12 as [st1 st2 (? & ? & ?)|]; inversion H23 as [? st3 (? & ? & ?)|];
    subst; constructor.
  repeat split; congruence.
Qed.

#[global] Instance frame_kept_acc_refl : Reflexive frame_kept_acc.
Proof. intros a. unfold frame_kept_acc. reflexivity. Qed.

#[global] Instance frame_kept_acc_trans : Transitive frame_kept_acc.
Proof. intros a b c. unfold frame_kept_acc. apply frame_kept_trans. Qed.

Lemma frame_kept_insert sts k st st' :
  sts !! k = Some st →
  lower st' = lower st → upper st' = upper st → gradient st' = gradient st →
  frame_kept sts (<[k := st']> sts).
Proof.
  intros Hk ? ? ? k'. destruct (decide (k = k')) as [<-|Hne].
  - rewrite lookup_insert_eq, Hk. by constructor.
  - rewrite lookup_insert_ne by done. destruct (sts !! k'); by constructor.
Qed.

Lemma forward_var_frame self sts d v sts' d' :
  forward_var self (sts, d) v = Ok (sts', d') → frame_kept sts sts'.
Proof.
  unfold forward_var.
  destruct (default [] (_var_to_output_rules self !! v)) as [|id ids];
    [intros [= <- <-]; reflexivity |].
  destruct (sts !! v) as [st|] eqn:Hst; [| discriminate].
  destruct (locked st) eqn:Hl; [intros [= <- <-]; reflexivity |].
  intros ([cs ws] & _ & H)%bind_Ok.
  destruct cs as [|c cs]; [injection H as <- <-; reflexivity |].
  injection H as <- <-. by eapply frame_kept_insert.
Qed.

Lemma apply_to_targets_frame f constraint sts :
  frame_kept sts (apply_to_targets f constraint sts).1.
Proof.
  unfold apply_to_targets.
  destruct (sts !! default ""%string (c_source constraint)) as [src|];
    [| reflexivity].
  apply (fold_left_rel frame_kept_acc _ _ _ _) with (s := (sts, 0)).
  intros [s d] t _. unfold frame_kept_acc. simpl.
  destruct (s !! t) as [st|] eqn:Ht; [| reflexivity].
  destruct (locked st) eqn:Hl; [reflexivity |]. simpl.
  by eapply frame_kept_insert.
Qed.

Lemma constraint_step_frame sts d constraint :
  frame_kept sts (constraint_step (sts, d) constraint).1.
Proof.
  unfold constraint_step.
  destruct (String.eqb _ "ATTACK").
  - pose proof (apply_to_targets_frame inhibit constraint sts) as H.
    unfold _apply_attack. by destruct (apply_to_targets inhibit constraint sts).
  - destruct (String.eqb _ "SUPPORT"); [| reflexivity].
    pose proof (apply_to_targets_frame support constraint sts) as H.
    unfold _apply_support. by destruct (apply_to_targets support constraint sts).
Qed.

Lemma inference_loop_frame n : ∀ self self' k,
  inference_loop self n = Ok (self', k) →
  frame_kept (_states self) (_states self').
Proof.
  induction n as [|n IH]; simpl; intros self self' k Hrun.
  - injection Hrun as <- <-. reflexivity.
  - apply bind_Ok in Hrun as ([self1 d1] & Hfw & Hrun).
    assert (H1 : frame_kept (_states self) (_states self1)).
    { unfold _forward_pass in Hfw.
      apply bind_Ok in Hfw as ([sts d0] & Hfe & [= <- <-]). simpl.
      eapply (for_each_rel frame_kept_acc) in Hfe; [exact Hfe | apply _ | apply _ |].
      intros [? ?] ? [? ?] _. apply forward_var_frame. }
    assert (H2 : frame_kept (_states self1) (_states (_apply_constraints self1).1)).
    { unfold _apply_constraints.
      pose proof (fold_left_rel frame_kept_acc constraint_step
                    (ODict.values (_constraints self1)) _ _) as H.
      specialize (H (λ s c _, match s with (sts, d) => constraint_step_frame sts d c end)).
      specialize (H (_states self1, 0)).
      by destruct (fold_left _ _ _) as [sts d]. }
    destruct (_apply_constraints self1) as [self2 d2]. simpl in *.
    destruct (Qlt_bool _ _).
    + injection Hrun as <- <-. by etrans.
    + apply bind_Ok in Hrun as ([self3 k3] & Hrec & [= <- <-]).
      apply IH in Hrec. etrans; [exact H1 |]. by etrans.
Qed.

Lemma lock_evidence_frame evidence sts :
  frame_kept sts (lock_evidence evidence sts).
Proof.
  intros k. rewrite lock_evidence_lookup.
  destruct (evidence_of evidence k); destruct (sts !! k); by constructor.
Qed.

Lemma fold_insert_lookup {V W} (f : V → W) (vs : list (string * V)) k :
  NoDup (ODict.keys vs) → ∀ (m : gmap string W),
  fold_left (λ m kv, <[kv.1 := f kv.2]> m) vs m !! k =
  match ODict.get k vs with
  | Some var => Some (f var)
  | None => m !! k
  end.
Proof.
  unfold ODict.keys. induction vs as [|[k0 v0] vs IH]; intros Hnd m; simpl; [done |].
  apply NoDup_cons in Hnd as [Hnotin Hnd]. rewrite (IH Hnd).
  destruct (String.eqb_spec k0 k) as [->|Hne].
  - destruct (ODict.get k vs) eqn:Hg.
    + exfalso. apply Hnotin. apply (get_is_Some k vs). eauto.
    + by rewrite lookup_insert_eq.
  - destruct (ODict.get k vs); [done |]. by rewrite lookup_insert_ne.
Qed.

(** A reset of an engine that differs from a freshly loaded one only in the
    values and lock flags of its states gives the freshly loaded engine. *)
Lemma reset_restores fresh self :
  vars_loaded fresh → same_static fresh self →
  frame_kept (_states fresh) (_states self) →
  _reset_to_priors self = Ok fresh.
Proof.
  intros (Hnd & Hst & _) Hs Hf. unfold _reset_to_priors.
  assert (Hv : _variables self = _variables fresh) by (rewrite Hs; done).
  rewrite Hv.
  assert (H : ∀ vs sts,
    (∀ k var, (k, var) ∈ vs → ∃ st, sts !! k = Some st ∧
        lower st = 0 ∧ upper st = 1 ∧ gradient st = 0) →
    for_each
      (λ sts '(name, var),
         match sts !! name with
         | Some state =>
             Ok (<[name := with_locked
                     (with_value state (default (1 # 2) (v_prior var)))
                     (default false (v_locked var))]> sts)
         | None => Raise (KeyError name)
         end) vs sts
    = Ok (fold_left (λ m kv, <[kv.1 := prior_state kv.2]> m) vs sts)).
  { induction vs as [|[name var] vs IH]; intros sts Hall; cbn [for_each fold_left];
      [done |].
    destruct (Hall name var) as (st & Hname & Hlo & Hup & Hgr); [left |].
    rewrite Hname. cbn [mbind result_bind].
    replace (with_locked _ _) with (prior_state var).
    2:{ unfold prior_state, with_locked, with_value. simpl.
        by rewrite Hlo, Hup, Hgr. }
    apply IH. intros k var' Hin.
    destruct (Hall k var') as (st' & Hk & ?); [by right |].
    destruct (decide (name = k)) as [<-|Hne].
    - rewrite lookup_insert_eq. eexists. split; [done |]. done.
    - rewrite lookup_insert_ne by done. eauto. }
  rewrite H.
  - simpl. f_equal. rewrite Hs. unfold set_states. simpl. destruct fresh. simpl in *.
    f_equal. apply map_eq. intros k. rewrite fold_insert_lookup by done.
    rewrite Hst. destruct (ODict.get k _) eqn:Hg; [done |]. simpl.
    specialize (Hf k). rewrite Hst, Hg in Hf. simpl in Hf.
    by inversion Hf.
  - intros k var Hin. specialize (Hf k). rewrite Hst in Hf.
    rewrite (elem_get k var _ Hnd Hin) in Hf. simpl in Hf.
    inversion Hf as [? st (Hlo & Hup & Hgr) Heq1 Heq2|]. subst.
    exists st. split; [done |]. simpl in *. done.
Qed.

Lemma used_invariant schema cfg self :
  used schema cfg self →
  same_static (init schema cfg) self ∧
  frame_kept (_states (init schema cfg)) (_states self) ∧
  ∀ evidence iterations,
    run self evidence iterations = run (init schema cfg) evidence iterations.
Proof.
  destruct (init_loaded schema cfg) as (Hl & _ & _).
  assert (Hrun : ∀ self, same_static (init schema cfg) self →
            frame_kept (_states (init schema cfg)) (_states self) →
            ∀ evidence iterations,
              run self evidence iterations =
              run (init schema cfg) evidence iterations).
  { intros self0 Hs Hf evidence iterations. unfold run, run_counting.
    rewrite (reset_restores _ _ Hl Hs Hf), (reset_loaded _ Hl).
    by rewrite (same_static_config _ _ Hs). }
  induction 1 as [|self evidence iterations self' out _ (Hs & Hf & Heq) Hr
                  |self variable v _ (Hs & Hf & Heq)
                  |self variable v _ (Hs & Hf & Heq)].
  - assert (same_static (init schema cfg) (init schema cfg))
      by (unfold same_static; by destruct (init schema cfg)).
    split; [done | split; [reflexivity |]]. by apply Hrun.
  - rewrite Heq in Hr.
    assert (Hs' : same_static (init schema cfg) self')
      by (by apply run_same_static in Hr).
    assert (Hf' : frame_kept (_states (init schema cfg)) (_states self')).
    { apply run_inv in Hr as (k & Hr).
      apply run_counting_inv in Hr as [Hloop _]; [| done].
      apply inference_loop_frame in Hloop. simpl in Hloop.
      etrans; [apply (lock_evidence_frame evidence) | exact Hloop]. }
    split; [done | split; [done |]]. by apply Hrun.
  - assert (Hs' : same_static (init schema cfg) (set_value self variable v).1).
    { eapply same_static_trans; [exact Hs |]. unfold set_value, same_static.
      destruct (_states self !! variable) as [st|]; [| by destruct self].
      destruct (locked st); [by destruct self | done]. }
    assert (Hf' : frame_kept (_states (init schema cfg))
                    (_states (set_value self variable v).1)).
    { etrans; [exact Hf |]. unfold set_value.
      destruct (_states self !! variable) as [st|] eqn:Hst; [| reflexivity].
      destruct (locked st); [reflexivity |]. simpl. by eapply frame_kept_insert. }
    split; [done | split; [done |]]. by apply Hrun.
  - assert (Hs' : same_static (init schema cfg) (lock_variable self variable v).1).
    { eapply same_static_trans; [exact Hs |]. unfold lock_variable, same_static.
      destruct (_states self !! variable); [done | by destruct self]. }
    assert (Hf' : frame_kept (_states (init schema cfg))
                    (_states (lock_variable self variable v).1)).
    { etrans; [exact Hf |]. unfold lock_variable.
      destruct (_states self !! variable) as [st|] eqn:Hst; [| reflexivity].
      simpl. by eapply frame_kept_insert. }
    split; [done | split; [done |]]. by apply Hrun.
Qed.

(** C2. For every declared variable [v] that is declared locked or given in
    the evidence map, the result of [run] at [v] is [clamp] of the evidence
    value when [v] is in the evidence, and the declared (prior) value of the
    locked variable otherwise.  This holds on the freshly constructed engine
    and on an engine that has been used before, whatever evidence earlier
    runs locked in and whatever [set_value] and [lock_variable] stored: the
    reset at the start of [run] restores the declared value and lock flag.
    Neither the forward pass nor the constraint pass changes the state of a
    locked variable. *)
Theorem locked_and_evidence_values schema cfg self evidence iterations v var self' out :
  used schema cfg self →
  declared schema v = Some var →
  run self evidence iterations = Ok (self', out) →
  (∀ e, evidence_of evidence v = Some e → out !! v = Some (clamp e)) ∧
  (evidence_of evidence v = None → v_locked var = Some true →
   out !! v = Some (default (1 # 2) (v_prior var))) ∧
  (∀ self self1 d k st,
     _forward_pass self = Ok (self1, d) →
     _states self !! k = Some st → locked st = true →
     _states self1 !! k = Some st) ∧
  (∀ self k st,
     _states self !! k = Some st → locked st = true →
     _states (_apply_constraints self).1 !! k = Some st).
Proof.
  intros Hu Hd Hrun. destruct (used_invariant _ _ _ Hu) as (_ & _ & Heq).
  rewrite Heq in Hrun. clear Heq Hu self.
  destruct (init_loaded schema cfg) as (Hl & _ & _).
  apply run_evolves in Hrun as (He & _ & ->); [| done].
  pose proof (lock_evidence_lookup evidence (_states (init schema cfg)) v) as Hv.
  rewrite init_states, Hd in Hv. simpl in Hv.
  repeat split.
  - intros e Hev. rewrite Hev in Hv.
    rewrite lookup_fmap, (evolves_locked _ _ _ _ He Hv); done.
  - intros Hev Hlk. rewrite Hev in Hv.
    rewrite lookup_fmap, (evolves_locked _ _ _ _ He Hv); [done |].
    simpl. by rewrite Hlk.
  - intros self self1 d k st Hfw Hk Hlk.
    apply _forward_pass_evolves in Hfw as [_ Hfw].
    by eapply evolves_locked.
  - intros self k st Hk Hlk.
    destruct (_apply_constraints_evolves self) as [_ Hc].
    by eapply evolves_locked.
Qed.

(** A first run locks [A] at the evidence value 1; a second run of the same
    engine without evidence returns the declared value 0.3 of [A]. *)
Lemma locked_and_evidence_values_witness :
  ∃ self1 out1 self2 out2,
    run (init MoreScenarios.locked_a None) (Some {["A"%string := 1]}) (Some 2%Z)
      = Ok (self1, out1) ∧
    run self1 None (Some 2%Z) = Ok (self2, out2) ∧
    out1 !! "A"%string = Some (clamp 1) ∧
    out2 !! "A"%string = Some (3 # 10).
Proof.
  remember (run (init MoreScenarios.locked_a None) (Some {["A"%string := 1]})
              (Some 2%Z)) as r1 eqn:H1.
  destruct r1 as [[self1 out1]|e]; [| by vm_compute in H1]. symmetry in H1.
  assert (Hu : used MoreScenarios.locked_a None self1)
    by (eapply used_run; [apply used_init | exact H1]).
  remember (run self1 None (Some 2%Z)) as r2 eqn:H2.
  destruct r2 as [[self2 out2]|e].
  2:{ destruct (used_invariant _ _ _ Hu) as (_ & _ & Heq). rewrite Heq in H2.
      by vm_compute in H2. }
  symmetry in H2. exists self1, out1, self2, out2.
  split; [done | split; [done | split]].
  - eapply (locked_and_evidence_values MoreScenarios.locked_a None _ _ _
              "A"%string (MoreScenarios.locked_decl (3 # 10)));
      [apply used_init | reflexivity | exact H1 | reflexivity].
  - eapply (locked_and_evidence_values MoreScenarios.locked_a None self1 None _
              "A"%string (MoreScenarios.locked_decl (3 # 10)));
      [exact Hu | reflexivity | exact H2 | reflexivity | reflexivity].
Defined.

(** [run] does not depend on what was done to the engine before: on an
    engine that has been through any sequence of [run], [set_value] and
    [lock_variable] calls it returns exactly what it returns on the freshly
    constructed engine, because the reset restores every value and every
    lock flag from the declarations.  In particular evidence of an earlier
    run and locks set by [lock_variable] do not persist. *)
Theorem run_forgets_history schema cfg self evidence iterations :
  used schema cfg self →
  run self evidence iterations = run (init schema cfg) evidence iterations.
Proof. intros Hu. by apply used_invariant. Qed.

Lemma run_forgets_history_witness :
  run (lock_variable (init Scenarios.single_implication None) "B" 1).1
      Scenarios.evidence_a None =
  run (init Scenarios.single_implication None) Scenarios.evidence_a None.
Proof.
  apply (run_forgets_history Scenarios.single_implication None).
  apply used_lock_variable, used_init.
Defined.

End History.

(** ** What the passes leave alone *)

Section Stability.

Implicit Types (sts : gmap string VariableState) (self : NeuroEngine).

#[global] Instance stable_at_refl v : Reflexive (stable_at v).
Proof. by intros a. Qed.

#[global] Instance stable_at_trans v : Transitive (stable_at v).
Proof. intros a b c Hab Hbc. unfold stable_at in *. congruence. Qed.

Lemma forward_var_stable self sts d v' v sts' d' :
  default [] (_var_to_output_rules self !! v) = [] →
  forward_var self (sts, d) v' = Ok (sts', d') →
  sts' !! v = sts !! v.
Proof.
  intros Hv. unfold forward_var.
  destruct (default [] (_var_to_output_rules self !! v')) as [|id ids] eqn:Hids;
    [by intros [= <- <-] |].
  destruct (sts !! v') as [st|] eqn:Hst; [| discriminate].
  destruct (locked st) eqn:Hl; [by intros [= <- <-] |].
  intros ([cs ws] & _ & H)%bind_Ok.
  destruct cs as [|c cs]; [by injection H as <- <- |].
  injection H as <- <-. apply lookup_insert_ne. intros ->. congruence.
Qed.

Lemma apply_to_targets_stable f constraint sts v :
  v ∉ targets_of constraint →
  (apply_to_targets f constraint sts).1 !! v = sts !! v.
Proof.
  intros Hv. unfold apply_to_targets.
  destruct (sts !! default ""%string (c_source constraint)) as [src|]; [| done].
  apply (fold_left_rel (stable_at v) _ _ _ _) with (s := (sts, 0)).
  intros [s d] t Ht. unfold stable_at. simpl.
  destruct (s !! t) as [st|] eqn:Hst; [| done].
  destruct (locked st); [done |]. simpl.
  apply lookup_insert_ne. by intros ->.
Qed.

Lemma constraint_step_inactive acc constraint :
  is_active constraint = false → constraint_step acc constraint = acc.
Proof.
  unfold is_active, constraint_step. destruct acc as [sts d].
  intros [-> ->]%orb_false_iff. done.
Qed.

Lemma constraint_step_stable sts d constraint v :
  (is_active constraint = true → v ∉ targets_of constraint) →
  (constraint_step (sts, d) constraint).1 !! v = sts !! v.
Proof.
  intros Hv. destruct (is_active constraint) eqn:Hact.
  - specialize (Hv eq_refl). unfold constraint_step.
    destruct (String.eqb _ "ATTACK").
    + pose proof (apply_to_targets_stable inhibit constraint sts v Hv) as H.
      unfold _apply_attack. by destruct (apply_to_targets inhibit constraint sts).
    + destruct (String.eqb _ "SUPPORT"); [| done].
      pose proof (apply_to_targets_stable support constraint sts v Hv) as H.
      unfold _apply_support. by destruct (apply_to_targets support constraint sts).
  - by rewrite constraint_step_inactive.
Qed.

Lemma untouched_static self self' v :
  same_static self self' → untouched self v → untouched self' v.
Proof. unfold same_static. by intros ->. Qed.

Lemma inference_loop_stable n v : ∀ self self' k,
  untouched self v →
  inference_loop self n = Ok (self', k) →
  _states self' !! v = _states self !! v.
Proof.
  induction n as [|n IH]; simpl; intros self self' k Hun Hrun.
  - by injection Hrun as <- <-.
  - apply bind_Ok in Hrun as ([self1 d1] & Hfw & Hrun).
    pose proof (_forward_pass_evolves _ _ _ Hfw) as [Hs1 _].
    assert (H1 : _states self1 !! v = _states self !! v).
    { unfold _forward_pass in Hfw.
      apply bind_Ok in Hfw as ([sts d0] & Hfe & [= <- <-]). simpl.
      eapply (for_each_rel (stable_at v)) in Hfe; [exact Hfe | apply _ | apply _ |].
      intros [? ?] ? [? ?] _ Hstep. unfold stable_at. simpl.
      eapply forward_var_stable; [apply Hun | exact Hstep]. }
    pose proof (untouched_static _ _ v Hs1 Hun) as Hun1.
    pose proof (_apply_constraints_evolves self1) as [Hs2 _].
    assert (H2 : _states (_apply_constraints self1).1 !! v = _states self1 !! v).
    { unfold _apply_constraints.
      pose proof (fold_left_rel (stable_at v) constraint_step
                    (ODict.values (_constraints self1)) _ _) as H.
      specialize (H (λ s c Hc, match s with
                               | (sts, d) => constraint_step_stable sts d c v
                                               (proj2 Hun1 c Hc)
                               end)).
      specialize (H (_states self1, 0)).
      by destruct (fold_left _ _ _) as [sts d]. }
    pose proof (untouched_static _ _ v Hs2 Hun1) as Hun2.
    destruct (_apply_constraints self1) as [self2 d2]. simpl in *.
    destruct (Qlt_bool _ _).
    + injection Hrun as <- <-. congruence.
    + apply bind_Ok in Hrun as ([self3 k3] & Hrec & [= <- <-]).
      apply IH in Hrec; [| done]. congruence.
Qed.

Lemma load_variables_constraints vs : ∀ self,
  _constraints (fold_left load_variable vs self) = _constraints self.
Proof.
  induction vs as [|[name var] vs IH]; intros self; cbn [fold_left]; [done |].
  by rewrite IH.
Qed.

Lemma init_constraints_elem schema cfg c :
  c ∈ ODict.values (_constraints (init schema cfg)) → c ∈ constraints schema.
Proof.
  destruct (init_tables schema cfg) as (_ & _ & ->).
  unfold loaded_variables. rewrite load_variables_constraints. simpl.
  assert (H : ∀ cs d,
    c ∈ ODict.values (fold_left (λ d c, ODict.set (c_id c) c d) cs d) →
    c ∈ ODict.values d ∨ c ∈ cs).
  { induction cs as [|c0 cs IH]; intros d Hin; cbn [fold_left] in Hin; [by left |].
    apply IH in Hin as [Hin|Hin]; [| right; by right].
    unfold ODict.values in Hin. apply list_elem_of_fmap in Hin as ([k c'] & -> & Hin).
    apply set_elem in Hin as [Hin|[_ ->]].
    - left. apply list_elem_of_fmap. by exists (k, c').
    - right. left. }
  intros Hin. apply H in Hin as [Hin|Hin]; [| done].
  by apply elem_of_nil in Hin.
Qed.

(** A declared variable that is not in the evidence, that no rule names as
    its output and that no attack or support constraint targets is returned
    by [run] with exactly its declared prior, locked or not. *)
Theorem isolated_variable_keeps_prior schema cfg evidence iterations v var self' out :
  declared schema v = Some var →
  evidence_of evidence v = None →
  (∀ r, r ∈ rules schema → r_output r ≠ Some v) →
  (∀ c, c ∈ constraints schema → is_active c = true → v ∉ targets_of c) →
  run (init schema cfg) evidence iterations = Ok (self', out) →
  out !! v = Some (default (1 # 2) (v_prior var)).
Proof.
  intros Hd Hev Hrules Hcs Hrun.
  destruct (init_loaded schema cfg) as (Hl & [Hix _] & _).
  apply run_inv in Hrun as (k & Hrun).
  apply run_counting_inv in Hrun as [Hloop ->]; [| done].
  apply (inference_loop_stable _ v) in Hloop.
  - unfold _get_all_values. rewrite lookup_fmap, Hloop. simpl.
    by rewrite lock_evidence_lookup, Hev, init_states, Hd.
  - split; simpl.
    + destruct (_var_to_output_rules (init schema cfg) !! v) as [[|id ids]|] eqn:Hv;
        try done.
      destruct (Hix v (id :: ids) id Hv) as [_ (r & Hr & _ & Ho)]; [left |].
      by destruct (Hrules r Hr).
    + intros c Hc. apply Hcs. by apply (init_constraints_elem schema cfg).
Qed.

Lemma isolated_variable_keeps_prior_witness :
  ∃ self' out,
    run (init Scenarios.single_implication None) None (Some 2%Z) = Ok (self', out) ∧
    out !! "A"%string = Some (3 # 10).
Proof.
  remember (run (init Scenarios.single_implication None) None (Some 2%Z)) as r
    eqn:Hrun.
  destruct r as [[self' out]|e]; [| by vm_compute in Hrun].
  exists self', out. split; [done |]. symmetry in Hrun.
  apply (isolated_variable_keeps_prior Scenarios.single_implication None None
           (Some 2%Z) "A" (Scenarios.var_decl (3 # 10)) self' out);
    [reflexivity | reflexivity | | | exact Hrun].
  - intros r Hr. simpl in Hr.
    apply list_elem_of_singleton in Hr as ->. discriminate.
  - intros c Hc. simpl in Hc. by apply elem_of_nil in Hc.
Defined.

(** The constraint pass acts on ATTACK and SUPPORT constraints only: a
    constraint of any other kind, MUTEX included, changes no state and no
    delta, so the pass is the pass over the attack and support constraints
    alone. *)
Theorem inactive_constraints_are_ignored self :
  (∀ acc c, is_active c = false → constraint_step acc c = acc) ∧
  _apply_constraints self =
    (set_states self
       (fold_left constraint_step
          (filter (λ c, is_active c = true) (ODict.values (_constraints self)))
          (_states self, 0)).1,
     (fold_left constraint_step
        (filter (λ c, is_active c = true) (ODict.values (_constraints self)))
        (_states self, 0)).2).
Proof.
  split; [intros; by apply constraint_step_inactive |].
  unfold _apply_constraints.
  assert (H : ∀ cs acc,
    fold_left constraint_step cs acc =
    fold_left constraint_step (filter (λ c, is_active c = true) cs) acc).
  { induction cs as [|c cs IH]; intros acc; [done |].
    rewrite filter_cons. cbn [fold_left]. case_decide as Hact.
    - cbn [fold_left]. apply IH.
    - rewrite constraint_step_inactive by (by destruct (is_active c)). apply IH. }
  rewrite H. by destruct (fold_left _ _ _).
Qed.

End Stability.

(** ** Directions of the updates *)

Section Directions.

Implicit Types (sts : gmap string VariableState) (self : NeuroEngine).

Lemma values_rel_refl (R : Q → Q → Prop) sts :
  (∀ x, R x x) → values_rel R sts sts.
Proof. intros HR k. destruct (sts !! k); constructor. by split. Qed.

Lemma values_rel_trans (R : Q → Q → Prop) s1 s2 s3 :
  (∀ x y z, R x y → R y z → R x z) →
  values_rel R s1 s2 → values_rel R s2 s3 → values_rel R s1 s3.
Proof.
  intros HR H12 H23 k. specialize (H12 k). specialize (H23 k).
  destruct H12 as [st1 st2 [Hl12 H12]|]; inversion H23 as [? st3 [Hl23 H23']|];
    subst; constructor.
  split; [congruence | by eapply HR].
Qed.

Lemma values_rel_insert (R : Q → Q → Prop) sts k st v :
  (∀ x, R x x) → sts !! k = Some st → R (value st) v →
  values_rel R sts (<[k := with_value st v]> sts).
Proof.
  intros HR Hk Hv k'. destruct (decide (k = k')) as [<-|Hne].
  - rewrite lookup_insert_eq, Hk. constructor. by split.
  - rewrite lookup_insert_ne by done. by apply values_rel_refl.
Qed.

Lemma states_in_range_insert sts k st v :
  states_in_range sts → 0 <= v <= 1 →
  states_in_range (<[k := with_value st v]> sts).
Proof.
  intros Hr Hv k' st'. destruct (decide (k = k')) as [<-|Hne].
  - rewrite lookup_insert_eq. by intros [= <-].
  - rewrite lookup_insert_ne by done. apply Hr.
Qed.

Lemma init_states_in_range schema cfg :
  priors_in_range schema → states_in_range (_states (init schema cfg)).
Proof.
  intros Hp k st. rewrite init_states.
  destruct (declared schema k) as [var|] eqn:Hd; [| done].
  intros [= <-]. simpl. by eapply Hp, declared_elem.
Qed.

Lemma single_implication_priors :
  priors_in_range Scenarios.single_implication.
Proof.
  intros k var Hin. simpl in Hin.
  apply elem_of_cons in Hin as [[= -> ->]|Hin]; [simpl; lra |].
  apply list_elem_of_singleton in Hin as [= -> ->]. simpl; lra.
Qed.

Lemma apply_to_targets_rel (f : Q → Q → Q → Q) (R : Q → Q → Prop) constraint sts :
  (∀ x, R x x) → (∀ x y z, R x y → R y z → R x z) →
  (∀ t a w, 0 <= t <= 1 → 0 <= a <= 1 → 0 <= w <= 1 →
            R t (f t a w) ∧ 0 <= f t a w <= 1) →
  states_in_range sts →
  0 <= default 1 (c_weight constraint) <= 1 →
  values_rel R sts (apply_to_targets f constraint sts).1.
Proof.
  intros Hrefl Htrans Hf Hrange Hw. unfold apply_to_targets.
  destruct (sts !! default ""%string (c_source constraint)) as [src|] eqn:Hsrc;
    [| by apply values_rel_refl].
  pose proof (Hrange _ _ Hsrc) as Hsrc_range.
  set (Racc := λ a b : gmap string VariableState * Q,
         states_in_range a.1 → states_in_range b.1 ∧ values_rel R a.1 b.1).
  assert (HR1 : Reflexive Racc).
  { intros a Ha. split; [done | by apply values_rel_refl]. }
  assert (HR2 : Transitive Racc).
  { intros a b c Hab Hbc Ha. destruct (Hab Ha) as [Hb Hab'].
    destruct (Hbc Hb) as [Hc Hbc']. split; [done |].
    by eapply values_rel_trans. }
  match goal with
  | |- values_rel R sts (fold_left ?step ?xs ?s0).1 =>
      pose proof (fold_left_rel Racc step xs HR1 HR2) as Hfold
  end.
  refine (proj2 (Hfold _ (sts, 0) Hrange)). clear Hfold.
  intros [s d] t _ Hs. simpl in *.
  destruct (s !! t) as [st|] eqn:Ht; [| split; [done | by apply values_rel_refl]].
  destruct (locked st); [split; [done | by apply values_rel_refl] |]. simpl.
  assert (Hsv : 0 <= default (value src)
                       (value <$> s !! default ""%string (c_source constraint)) <= 1).
  { destruct (s !! default ""%string (c_source constraint)) as [st'|] eqn:Hs';
      simpl; [by apply (Hs _ _ Hs') | done]. }
  destruct (Hf (value st) _ (default 1 (c_weight constraint))
              (Hs _ _ Ht) Hsv Hw) as [HR Hfr].
  split.
  - by apply states_in_range_insert.
  - by apply values_rel_insert.
Qed.

(** On states that hold truth values and for a constraint weight in [0,1],
    [_apply_attack] never raises the value of any variable and
    [_apply_support] never lowers one; both keep the lock flags and leave
    truth values. *)
Theorem attack_lowers_support_raises constraint sts :
  states_in_range sts →
  0 <= default 1 (c_weight constraint) <= 1 →
  values_rel (λ old new, new <= old) sts (_apply_attack constraint sts).1 ∧
  values_rel (λ old new, old <= new) sts (_apply_support constraint sts).1 ∧
  states_in_range (_apply_attack constraint sts).1 ∧
  states_in_range (_apply_support constraint sts).1.
Proof.
  intros Hrange Hw. split; [| split; [| split]].
  - apply apply_to_targets_rel; try done.
    + intros x. lra.
    + intros x y z ? ?. lra.
    + intros t a w Ht Ha Hw'.
      destruct (inhibit_support_bounds t a w Ht Ha Hw') as [H _].
      split; [done | apply clamp_range].
  - apply apply_to_targets_rel; try done.
    + intros x. lra.
    + intros x y z ? ?. lra.
    + intros t a w Ht Ha Hw'.
      destruct (inhibit_support_bounds t a w Ht Ha Hw') as [_ H].
      split; [done | apply clamp_range].
  - intros k st. eapply evolves_range; [| exact Hrange].
    apply apply_to_targets_evolves, inhibit_range.
  - intros k st. eapply evolves_range; [| exact Hrange].
    apply apply_to_targets_evolves, support_range.
Qed.

Lemma attack_lowers_support_raises_witness :
  values_rel (λ old new, new <= old)
    (_states Scenarios.engine_ab)
    (_apply_attack {| c_id := "c"; c_type := Some "ATTACK"%string;
                      c_source := Some "A"%string;
                      c_target := Some (TStr "B"); c_weight := Some (1 # 2) |}
       (_states Scenarios.engine_ab)).1.
Proof.
  apply (attack_lowers_support_raises _ (_states Scenarios.engine_ab)).
  - apply init_states_in_range, single_implication_priors.
  - simpl. lra.
Defined.


End Directions.

Section Frozen.


End Frozen.

(** ** Training *)

Section Training.

Implicit Types (self : NeuroEngine).

Lemma retrained_refl rs : retrained rs rs.
Proof. intros id. destruct (rs !! id); constructor. by left. Qed.

Lemma retrained_trans rs1 rs2 rs3 :
  retrained rs1 rs2 → retrained rs2 rs3 → retrained rs1 rs3.
Proof.
  intros H12 H23 id. specialize (H12 id). specialize (H23 id).
  destruct H12 as [r1 r2 H12|]; inversion H23 as [? r3 H23'|]; subst; constructor.
  destruct H12 as [->|(Hnf & w & Hw & ->)]; [done |].
  destruct H23' as [->|(Hnf' & w' & Hw' & ->)].
  - right. eauto.
  - right. split; [done |]. exists w'. by split.
Qed.

#[global] Instance trained_refl : Reflexive trained.
Proof. intros a. repeat split; try done. apply retrained_refl. Qed.

#[global] Instance trained_trans : Transitive trained.
Proof.
  intros a b c (? & ? & ? & ? & ? & Hab) (? & ? & ? & ? & ? & Hbc).
  repeat split; try congruence. by eapply retrained_trans.
Qed.

#[global] Instance trained_acc_refl : Reflexive trained_acc.
Proof. intros a. unfold trained_acc. reflexivity. Qed.

#[global] Instance trained_acc_trans : Transitive trained_acc.
Proof. intros a b c. unfold trained_acc. apply trained_trans. Qed.

Lemma same_static_trained self self' : same_static self self' → trained self self'.
Proof. unfold same_static. intros ->. repeat split; try done. apply retrained_refl. Qed.

Lemma _update_weights_trained self target_var error inputs :
  trained self (_update_weights self target_var error inputs).
Proof.
  unfold _update_weights.
  generalize (default [] (_var_to_output_rules self !! target_var)) as ids.
  intros ids. revert self.
  induction ids as [|rid ids IH]; intros self; cbn [fold_left]; [reflexivity |].
  match goal with
  | |- trained _ (fold_left _ _ ?s1) =>
      assert (Hstep : trained self s1); [| etrans; [exact Hstep | apply IH]]
  end.
  destruct (_rules self !! rid) as [r|] eqn:Hr; [| reflexivity].
  assert (Hupd : ∀ w, r_learnable r ≠ Some false → 0 <= w <= 1 →
            trained self (set_rules self (<[rid := with_weight r w]> (_rules self)))).
  { intros w Hnf Hw. repeat split; try done. simpl. intros id.
    destruct (decide (rid = id)) as [<-|Hne].
    - rewrite lookup_insert_eq, Hr. constructor. right. eauto.
    - rewrite lookup_insert_ne by done. apply retrained_refl. }
  destruct (r_learnable r) as [[|]|] eqn:Hl; [| reflexivity |];
    apply Hupd; try done; apply clamp_range.
Qed.

Lemma sqr_nonneg (e : Q) : 0 <= e * e.
Proof.
  destruct (Qlt_le_dec e 0) as [Hlt|Hge].
  - assert (H : e * e == (- e) * (- e)) by ring. rewrite H.
    apply Qmult_le_0_compat; lra.
  - by apply Qmult_le_0_compat.
Qed.

Lemma train_example_trained acc example acc' :
  train_example acc example = Ok acc' →
  trained acc.1 acc'.1 ∧ acc.2 <= acc'.2.
Proof.
  destruct acc as [self loss]. unfold train_example.
  intros ([self1 out] & Hrun & [= <-])%bind_Ok.
  apply run_same_static, same_static_trained in Hrun. simpl.
  set (R := λ a b : NeuroEngine * Q, trained a.1 b.1 ∧ a.2 <= b.2).
  assert (HR1 : Reflexive R) by (intros a; split; [reflexivity | lra]).
  assert (HR2 : Transitive R).
  { intros a b c [? ?] [? ?]. split; [by etrans | lra]. }
  match goal with
  | |- trained self (fold_left ?step ?xs ?s0).1 ∧ _ =>
      pose proof (fold_left_rel R step xs HR1 HR2) as Hfold
  end.
  destruct (Hfold) with (s := (self1, loss)) as [Ht Hl].
  - intros [s l] [tv tval] _. split; simpl.
    + apply _update_weights_trained.
    + pose proof (sqr_nonneg (tval - default (1 # 2) (out !! tv))). lra.
  - simpl in *. split; [by etrans | done].
Qed.

Lemma train_epochs_trained data n : ∀ self final_loss self' loss,
  0 <= final_loss →
  train_epochs self data n final_loss = Ok (self', loss) →
  trained self self' ∧ 0 <= loss.
Proof.
  induction n as [|n IH]; intros self fl self' loss Hfl; simpl.
  - intros [= <- <-]. split; [reflexivity | done].
  - intros ([self1 l1] & Hdata & Hrest)%bind_Ok.
    set (R := λ a b : NeuroEngine * Q, trained a.1 b.1 ∧ a.2 <= b.2).
    assert (HR1 : Reflexive R) by (intros a; split; [reflexivity | lra]).
    assert (HR2 : Transitive R).
    { intros a b c [? ?] [? ?]. split; [by etrans | lra]. }
    apply (for_each_rel R _ _ HR1 HR2) in Hdata;
      [| intros ? ? ? _; apply train_example_trained].
    destruct Hdata as [Ht Hl]. simpl in Ht, Hl.
    assert (Hloss : 0 <= l1 / match data with [] => 1 | _ :: _ => py_len data end).
    { apply Qle_shift_div_l; [| lra].
      destruct data as [|ex data]; [lra |].
      rewrite py_len_cons. pose proof (py_len_nonneg data). lra. }
    destruct (Qlt_bool _ _).
    + injection Hrest as <- <-. done.
    + apply IH in Hrest as [Ht' Hl']; [| done]. split; [by etrans | done].
Qed.

(** [train] changes nothing in the engine but the variable states and the
    weights of rules: every stored rule is the rule it was, or that rule
    with its weight replaced by a weight in [0,1], the latter only for rules
    that are not marked [learnable = false].  The configuration, the
    variables, the constraints and both indexes are kept, and the returned
    loss is non-negative. *)
Theorem train_only_retrains self data epochs self' loss :
  train self data epochs = Ok (self', loss) →
  trained self self' ∧
  0 <= loss ∧
  (∀ id r, _rules self !! id = Some r → r_learnable r = Some false →
           _rules self' !! id = Some r) ∧
  (∀ id r', _rules self' !! id = Some r' →
     ∃ r, _rules self !! id = Some r ∧
          r_id r' = r_id r ∧ r_type r' = r_type r ∧ r_inputs r' = r_inputs r ∧
          r_output r' = r_output r ∧ r_op r' = r_op r ∧
          r_learnable r' = r_learnable r ∧
          (r_weight r' = r_weight r ∨ ∃ w, r_weight r' = Some w ∧ 0 <= w <= 1)).
Proof.
  unfold train. intros Htrain.
  apply train_epochs_trained in Htrain as [Ht Hl]; [| lra].
  split; [done | split; [done | split]].
  - intros id r Hr Hfrozen. destruct Ht as (_ & _ & _ & _ & _ & Hre).
    specialize (Hre id). rewrite Hr in Hre.
    inversion Hre as [? r' [->|(Hnf & _)] |]; subst; [done | congruence].
  - intros id r' Hr'. destruct Ht as (_ & _ & _ & _ & _ & Hre).
    specialize (Hre id). rewrite Hr' in Hre.
    destruct (_rules self !! id) as [r|] eqn:Hr; [| inversion Hre].
    exists r. split; [done |].
    inversion Hre as [? ? [Heq|(Hnf & w & Hw & Heq)] |]; subst.
    + repeat split; try done. by left.
    + repeat split; try done. right. eauto.
Qed.

Lemma train_only_retrains_witness :
  ∃ self' loss,
    train MoreScenarios.frozen_rule_engine [Scenarios.one_example] 1
      = Ok (self', loss) ∧
    _rules self' !! "a_to_b"%string = Some MoreScenarios.frozen_rule.
Proof.
  remember (train MoreScenarios.frozen_rule_engine [Scenarios.one_example] 1) as r
    eqn:Ht.
  destruct r as [[self' loss]|e]; [| by vm_compute in Ht].
  exists self', loss. split; [done |]. symmetry in Ht.
  destruct (train_only_retrains _ _ _ _ _ Ht) as (_ & _ & Hfrozen & _).
  apply Hfrozen; [vm_compute; reflexivity | reflexivity].
Defined.

(** Without epochs or without examples [train] does no work: it returns the
    engine as it is and a loss of 0, and does not even run an inference. *)
Theorem train_without_work self data epochs :
  (epochs <= 0)%Z ∨ data = [] →
  ∃ loss, train self data epochs = Ok (self, loss) ∧ loss == 0.
Proof.
  unfold train. intros [Hep | ->].
  - replace (Z.to_nat epochs) with O by lia. simpl. eexists. split; [done | reflexivity].
  - destruct (Z.to_nat epochs) as [|n]; simpl.
    + eexists. split; [done | reflexivity].
    + eexists. split; [reflexivity | reflexivity].
Qed.

Lemma train_without_work_witness :
  ∃ loss, train Scenarios.engine_ab [] 100 = Ok (Scenarios.engine_ab, loss) ∧ loss == 0.
Proof. apply train_without_work. by right. Defined.

End Training.

(** * Further properties of the bridge *)

Section BridgeSchema.

Import Service.

Lemma get_set_is_Some {V} k k' (v : V) d :
  is_Some (ODict.get k (ODict.set k' v d)) ↔ k = k' ∨ is_Some (ODict.get k d).
Proof. by rewrite !get_is_Some, keys_set_elem. Qed.

Lemma fold_set_is_Some {X V} (g : X → string) (h : X → V) xs k : ∀ d,
  is_Some (ODict.get k (fold_left (λ d x, ODict.set (g x) (h x) d) xs d)) ↔
  is_Some (ODict.get k d) ∨ k ∈ map g xs.
Proof.
  induction xs as [|x xs IH]; intros d; cbn [fold_left map].
  - split; [by left | intros [?|?%elem_of_nil]; done].
  - rewrite IH, get_set_is_Some, elem_of_cons. tauto.
Qed.

Lemma fold_set_elem {X V} (g : X → string) (h : X → V) xs k v : ∀ d,
  (k, v) ∈ fold_left (λ d x, ODict.set (g x) (h x) d) xs d →
  (k, v) ∈ d ∨ ∃ x, x ∈ xs ∧ k = g x ∧ v = h x.
Proof.
  induction xs as [|x xs IH]; intros d Hin; cbn [fold_left] in Hin; [by left |].
  apply IH in Hin as [Hin|(x' & Hx' & ? & ?)].
  - apply set_elem in Hin as [?|[-> ->]]; [by left |].
    right. exists x. split; [left | done].
  - right. exists x'. split; [by right | done].
Qed.

Lemma declared_is_Some schema v :
  is_Some (declared schema v) ↔ v ∈ (variables schema).*1.
Proof.
  unfold declared, ODict.of_items.
  rewrite (fold_set_is_Some (λ kv : string * VariableDecl, kv.1) (λ kv, kv.2)).
  split; [intros [[? ?]|?]; done | by right].
Qed.

(** The variables of the schema of a context are the names of its nodes. *)
Lemma to_neuro_json_declared context v :
  is_Some (declared (to_neuro_json context) v) ↔
  ∃ id, id ∈ node_ids context ∧ v = ("node_" ++ id)%string.
Proof.
  rewrite declared_is_Some. unfold to_neuro_json. simpl.
  change ((?l).*1) with (ODict.keys l). rewrite <- get_is_Some.
  rewrite (fold_set_is_Some (λ kv : string * Node, _node_to_var_name kv.2)
             (λ kv, {| v_type := Some "bool"%string; v_prior := Some (n_prior kv.2);
                       v_description := None;
                       v_locked := Some (n_is_locked kv.2) |})).
  unfold node_ids. split.
  - intros [[? ?]|Hin]; [done |].
    apply list_elem_of_fmap in Hin as (kv & -> & Hkv).
    exists (n_id kv.2). split; [| done]. apply list_elem_of_fmap. by exists kv.
  - intros (id & Hid & ->). right.
    apply list_elem_of_fmap in Hid as (kv & -> & Hkv).
    apply list_elem_of_fmap. by exists kv.
Qed.

Lemma node_declared context k node :
  ODict.get k (nodes context) = Some node →
  is_Some (declared (to_neuro_json context) (_node_to_var_name node)).
Proof.
  intros Hin%get_Some_elem. apply to_neuro_json_declared.
  exists (n_id node). split; [| done]. unfold node_ids.
  apply list_elem_of_fmap. by exists (k, node).
Qed.

Lemma convert_association_origin context cv kv :
  kv ∈ associations context →
  (∀ r, r ∈ cv_rules cv → rule_from_edge context r) →
  (∀ c, c ∈ cv_constraints cv → constraint_from_edge context c) →
  (∀ r, r ∈ cv_rules (convert_association context cv kv) →
        rule_from_edge context r) ∧
  (∀ c, c ∈ cv_constraints (convert_association context cv kv) →
        constraint_from_edge context c).
Proof.
  intros Hkv Hr Hc. unfold convert_association.
  assert (Ha : kv.2 ∈ ODict.values (associations context)).
  { apply list_elem_of_fmap. by exists kv. }
  destruct (a_logic_meta kv.2) as [lm|] eqn:Hlm; [| done].
  destruct (ODict.get (a_source_id kv.2) (nodes context)) as [src|] eqn:Hsrc;
    [| done].
  destruct (ODict.get (a_target_id kv.2) (nodes context)) as [dst|] eqn:Hdst;
    [| done].
  destruct (String.eqb_spec (lm_type lm) "IMPLIES") as [Hty|_].
  { split; [| done]. simpl. intros r [Hin|Hin%list_elem_of_singleton]%elem_of_app;
      [by apply Hr |].
    subst r. exists kv.2, lm, src, dst. repeat split; try done. by left. }
  destruct (String.eqb_spec (lm_type lm) "ATTACKS") as [Hty|_].
  { split; [done |]. simpl. intros c [Hin|Hin%list_elem_of_singleton]%elem_of_app;
      [by apply Hc |].
    subst c. exists kv.2, lm, src, dst. repeat split; try done. by left. }
  destruct (String.eqb_spec (lm_type lm) "SUPPORTS") as [Hty|_].
  { split; [done |]. simpl. intros c [Hin|Hin%list_elem_of_singleton]%elem_of_app;
      [by apply Hc |].
    subst c. exists kv.2, lm, src, dst. repeat split; try done. by right. }
  destruct (String.eqb_spec (lm_type lm) "DEPENDS") as [Hty|_]; [| done].
  split; [| done]. simpl. intros r [Hin|Hin%list_elem_of_singleton]%elem_of_app;
    [by apply Hr |].
  subst r. exists kv.2, lm, src, dst. repeat split; try done. by right.
Qed.

Lemma convert_fold_origin context kvs : ∀ cv,
  (∀ kv, kv ∈ kvs → kv ∈ associations context) →
  (∀ r, r ∈ cv_rules cv → rule_from_edge context r) →
  (∀ c, c ∈ cv_constraints cv → constraint_from_edge context c) →
  (∀ r, r ∈ cv_rules (fold_left (convert_association context) kvs cv) →
        rule_from_edge context r) ∧
  (∀ c, c ∈ cv_constraints (fold_left (convert_association context) kvs cv) →
        constraint_from_edge context c).
Proof.
  induction kvs as [|kv kvs IH]; intros cv Hsub Hr Hc; cbn [fold_left]; [done |].
  destruct (convert_association_origin context cv kv) as [Hr' Hc'];
    [apply Hsub; left | done | done |].
  apply IH; [| done | done]. intros ? ?. apply Hsub. by right.
Qed.

Lemma to_neuro_json_from_edges context :
  (∀ r, r ∈ rules (to_neuro_json context) → rule_from_edge context r) ∧
  (∀ c, c ∈ constraints (to_neuro_json context) → constraint_from_edge context c).
Proof.
  unfold to_neuro_json. simpl.
  apply convert_fold_origin; [done | |]; intros ? Hin; by apply elem_of_nil in Hin.
Qed.

(** Every rule of the schema that [to_neuro_json] builds is the translation
    of an IMPLIES or DEPENDS edge whose two endpoints are nodes of the
    context: an IMPLICATION from the source's variable to the target's, with
    the edge's operator and learnable flag, and the edge's weight (halved for
    DEPENDS).  Every constraint is the translation of an ATTACKS or SUPPORTS
    edge with both endpoints in the context.  Edges without logic metadata,
    with an endpoint outside the context, or of another kind (MUTEX
    included) produce nothing. *)
Theorem to_neuro_json_origin context :
  (∀ r, r ∈ rules (to_neuro_json context) → rule_from_edge context r) ∧
  (∀ c, c ∈ constraints (to_neuro_json context) → constraint_from_edge context c).
Proof.
  unfold to_neuro_json. simpl.
  assert (H : ∀ kvs cv,
    (∀ kv, kv ∈ kvs → kv ∈ associations context) →
    (∀ r, r ∈ cv_rules cv → rule_from_edge context r) →
    (∀ c, c ∈ cv_constraints cv → constraint_from_edge context c) →
    (∀ r, r ∈ cv_rules (fold_left (convert_association context) kvs cv) →
          rule_from_edge context r) ∧
    (∀ c, c ∈ cv_constraints (fold_left (convert_association context) kvs cv) →
          constraint_from_edge context c)).
  { induction kvs as [|kv kvs IH]; intros cv Hsub Hr Hc; cbn [fold_left]; [done |].
    destruct (convert_association_origin context cv kv) as [Hr' Hc'];
      [apply Hsub; left | done | done |].
    apply IH; [| done | done]. intros ? ?. apply Hsub. by right. }
  apply H; [done | |]; intros ? Hin; by apply elem_of_nil in Hin.
Qed.

(** The schema of a context has no dangling names: the input and the output
    of every rule and the source and the target of every constraint are
    declared variables, and the declared variables are exactly the names
    [node_<id>] of the nodes of the context. *)
Theorem to_neuro_json_resolves context :
  (∀ r, r ∈ rules (to_neuro_json context) →
     ∃ i o, r_inputs r = Some [i] ∧ r_output r = Some o ∧
            is_Some (declared (to_neuro_json context) i) ∧
            is_Some (declared (to_neuro_json context) o)) ∧
  (∀ c, c ∈ constraints (to_neuro_json context) →
     is_active c = true ∧
     ∃ s t, c_source c = Some s ∧ c_target c = Some (TStr t) ∧
            is_Some (declared (to_neuro_json context) s) ∧
            is_Some (declared (to_neuro_json context) t)) ∧
  (∀ v, is_Some (declared (to_neuro_json context) v) ↔
        ∃ id, id ∈ node_ids context ∧ v = ("node_" ++ id)%string).
Proof.
  destruct (to_neuro_json_from_edges context) as [Hr Hc].
  split; [| split; [| apply to_neuro_json_declared]].
  - intros r (a & lm & src & dst & _ & _ & Hsrc & Hdst & _ & Hi & Ho & _)%Hr.
    exists (_node_to_var_name src), (_node_to_var_name dst).
    repeat split; try done; by eapply node_declared.
  - intros c (a & lm & src & dst & _ & _ & Hsrc & Hdst & Hs & Ht & _ & Hty)%Hc.
    split.
    + unfold is_active. destruct Hty as [[_ ->]|[_ ->]]; done.
    + exists (_node_to_var_name src), (_node_to_var_name dst).
      repeat split; try done; by eapply node_declared.
Qed.

End BridgeSchema.

Section BridgeResults.

Import Service.

Lemma to_var_evidence_lookup schema evidence id :
  to_var_evidence schema evidence !! ("node_" ++ id)%string =
  if ODict.get ("node_" ++ id)%string (variables schema) is Some _
  then evidence_of evidence id else None.
Proof.
  destruct evidence as [ev|]; simpl.
  2:{ rewrite lookup_empty. by destruct (ODict.get _ _). }
  unfold evidence_of. simpl.
  apply (map_fold_weak_ind (λ r (m : gmap string Q),
    r !! ("node_" ++ id)%string =
    if ODict.get ("node_" ++ id)%string (variables schema) is Some _
    then m !! id else None)).
  - rewrite !lookup_empty. by destruct (ODict.get _ _).
  - intros i x m r Hi IH. destruct (decide (i = id)) as [->|Hne].
    + rewrite lookup_insert_eq.
      destruct (ODict.get ("node_" ++ id)%string (variables schema)) eqn:Hg; [| done].
      by rewrite lookup_insert_eq.
    + rewrite (lookup_insert_ne m) by done. rewrite <- IH.
      destruct (ODict.get ("node_" ++ i)%string (variables schema)); [| done].
      apply lookup_insert_ne. by intros ?%var_name_inj.
Qed.

Lemma to_neuro_json_priors context :
  (∀ kv, kv ∈ nodes context → 0 <= n_prior kv.2 <= 1) →
  priors_in_range (to_neuro_json context).
Proof.
  intros Hp k var Hin. unfold to_neuro_json in Hin. simpl in Hin.
  apply (fold_set_elem (λ kv : string * Node, _node_to_var_name kv.2)
           (λ kv, {| v_type := Some "bool"%string; v_prior := Some (n_prior kv.2);
                     v_description := None;
                     v_locked := Some (n_is_locked kv.2) |})) in Hin
    as [Hin|(kv & Hkv & _ & ->)]; [by apply elem_of_nil in Hin |].
  simpl. by apply Hp.
Qed.

Lemma run_inference_lookup self context evidence iterations engine' out :
  run (engine_for self context iterations)
      (Some (to_var_evidence (to_neuro_json context) evidence)) iterations
    = Ok (engine', out) →
  (∀ id, to_node_results out !! id = out !! ("node_" ++ id)%string) ∧
  (∀ id, is_Some (out !! ("node_" ++ id)%string) ↔ id ∈ node_ids context).
Proof.
  unfold engine_for. intros Hrun.
  pose proof (run_output_keys _ _ _ _ _ _ Hrun) as Hkeys. split.
  - intros id. apply to_node_results_lookup. intros k Hk.
    apply Hkeys, to_neuro_json_declared in Hk as (x & _ & ->). eauto.
  - intros id. rewrite Hkeys, to_neuro_json_declared. split.
    + by intros (id' & Hid' & ->%var_name_inj).
    + eauto.
Qed.

Lemma run_inference_keys self context evidence iterations res :
  run_inference self context evidence iterations = Ok res →
  ∀ id, is_Some (res !! id) ↔ id ∈ node_ids context.
Proof.
  unfold run_inference. intros ([engine' out] & Hrun & [= <-])%bind_Ok id.
  destruct (run_inference_lookup _ _ _ _ _ _ Hrun) as [Hlookup Hkeys].
  by rewrite Hlookup.
Qed.

(** The map returned by [run_inference] has exactly the ids of the nodes of
    the context as keys, so evidence for any other id is dropped; a node
    named in the evidence is returned at its clamped evidence value; and
    when the node priors are truth values, so are all returned values. *)
Theorem run_inference_results self context evidence iterations res :
  run_inference self context evidence iterations = Ok res →
  (∀ id, is_Some (res !! id) ↔ id ∈ node_ids context) ∧
  (∀ id e, id ∈ node_ids context → evidence_of evidence id = Some e →
           res !! id = Some (clamp e)) ∧
  ((∀ kv, kv ∈ nodes context → 0 <= n_prior kv.2 <= 1) →
   ∀ id x, res !! id = Some x → 0 <= x <= 1).
Proof.
  unfold run_inference, engine_for.
  intros ([engine' out] & Hrun & [= <-])%bind_Ok.
  pose proof (run_output_keys _ _ _ _ _ _ Hrun) as Hkeys.
  assert (Hlookup : ∀ id, to_node_results out !! id = out !! ("node_" ++ id)%string).
  { intros id. apply to_node_results_lookup. intros k Hk.
    apply Hkeys, to_neuro_json_declared in Hk as (x & _ & ->). eauto. }
  assert (Hdecl : ∀ id, is_Some (declared (to_neuro_json context) ("node_" ++ id)%string)
                        ↔ id ∈ node_ids context).
  { intros id. rewrite to_neuro_json_declared. split.
    - by intros (id' & Hid' & ->%var_name_inj).
    - eauto. }
  split; [| split].
  - intros id. by rewrite Hlookup, Hkeys, Hdecl.
  - intros id e Hid Hev. rewrite Hlookup.
    pose proof (proj2 (Hdecl id) Hid) as Hvar.
    eapply run_output_evidence; [exact Hvar | | exact Hrun].
    unfold evidence_of at 1. simpl. rewrite to_var_evidence_lookup.
    assert (Hg : is_Some (ODict.get ("node_" ++ id)%string
                            (variables (to_neuro_json context)))).
    { apply get_is_Some. change (ODict.keys ?l) with (l.*1).
      apply declared_is_Some. eauto. }
    destruct Hg as [? ->]. done.
  - intros Hp id x. rewrite Hlookup.
    apply (run_output_range _ _ _ _ _ _ (to_neuro_json_priors context Hp) Hrun).
Qed.

Lemma run_inference_results_witness :
  ∃ res,
    run_inference create_neuro_service Scenarios.two_nodes
      (Some {["b"%string := 3 # 2; "z"%string := 1]}) (Some 1%Z) = Ok res ∧
    res !! "b"%string = Some (clamp (3 # 2)) ∧ res !! "z"%string = None.
Proof.
  remember (run_inference create_neuro_service Scenarios.two_nodes
              (Some {["b"%string := 3 # 2; "z"%string := 1]}) (Some 1%Z)) as r
    eqn:Hrun.
  destruct r as [res|e]; [| by vm_compute in Hrun].
  exists res. split; [done |]. symmetry in Hrun.
  destruct (run_inference_results _ _ _ _ _ Hrun) as (Hkeys & Hev & _).
  split.
  - apply Hev; [| reflexivity]. simpl. right. left.
  - apply eq_None_not_Some. rewrite Hkeys. simpl.
    intros [?|[?|?%elem_of_nil]%elem_of_cons]%elem_of_cons; done.
Defined.

(** [run_inference] never raises when every IMPLIES and DEPENDS edge of
    the context carries one of the operators IDENTITY, AND, OR, NOT,
    WEIGHTED (in any letter case): whatever the evidence, the iterations
    argument and the other edges are, it returns a result. *)
Theorem run_inference_never_raises self context evidence iterations :
  (∀ a lm, a ∈ ODict.values (associations context) →
           a_logic_meta a = Some lm →
           lm_type lm = "IMPLIES"%string ∨ lm_type lm = "DEPENDS"%string →
           known_op (lm_op lm) = true) →
  ∃ res, run_inference self context evidence iterations = Ok res.
Proof.
  intros Hops. unfold run_inference, engine_for.
  edestruct (run_total (to_neuro_json context))
    as (engine' & out & ->); [| simpl; eauto].
  intros r Hr _. destruct (to_neuro_json_from_edges context) as [Horigin _].
  destruct (Horigin r Hr) as (a & lm & _ & _ & Ha & Hlm & _ & _ & _ & _ & _ & Hop & _ & Hty).
  rewrite Hop. simpl. apply (Hops a lm Ha Hlm).
  destruct Hty as [[? _]|[? _]]; [by left | by right].
Qed.

Lemma run_inference_never_raises_witness :
  ∃ res, run_inference create_neuro_service MoreScenarios.penguin
           (Some {["penguin"%string := 1]}) None = Ok res.
Proof.
  apply run_inference_never_raises.
  intros a lm Ha Hlm _. simpl in Ha.
  repeat (apply elem_of_cons in Ha as [->|Ha];
          [injection Hlm as <-; reflexivity |]).
  by apply elem_of_nil in Ha.
Defined.

Lemma extract_context_node_ids ns assocs center id :
  id ∈ node_ids (extract_context ns assocs center) ↔ ∃ n, n ∈ ns ∧ n_id n = id.
Proof.
  unfold node_ids, extract_context, ODict.of_items. simpl.
  assert (Hentries : ∀ k n,
    (k, n) ∈ fold_left (λ d (kv : string * Node), ODict.set kv.1 kv.2 d)
               (map (λ n, (n_id n, n)) ns) [] →
    k = n_id n ∧ n ∈ ns).
  { intros k n Hin.
    apply (fold_set_elem (λ kv : string * Node, kv.1) (λ kv, kv.2)) in Hin
      as [Hin|(kv & Hkv & -> & ->)]; [by apply elem_of_nil in Hin |].
    apply list_elem_of_fmap in Hkv as (n0 & -> & Hn0). done. }
  split.
  - intros ([k n] & -> & Hin)%list_elem_of_fmap.
    destruct (Hentries k n Hin) as [_ Hn]. eauto.
  - intros (n & Hn & <-).
    assert (Hs : is_Some (ODict.get (n_id n)
      (fold_left (λ d (kv : string * Node), ODict.set kv.1 kv.2 d)
         (map (λ n, (n_id n, n)) ns) []))).
    { apply (fold_set_is_Some (λ kv : string * Node, kv.1) (λ kv, kv.2)).
      right. rewrite map_map. simpl. apply list_elem_of_fmap. eauto. }
    destruct Hs as [n' Hn']. apply get_Some_elem in Hn'.
    destruct (Hentries _ _ Hn') as [Hk _].
    apply list_elem_of_fmap. exists (n_id n, n'). split; [done | done].
Qed.

(** [run_local_inference] returns the empty map for an empty list of nodes,
    and otherwise a map whose keys are exactly the ids of the given nodes. *)
Theorem run_local_inference_keys ns assocs evidence res :
  run_local_inference ns assocs evidence = Ok res →
  (ns = [] → res = ∅) ∧
  (∀ id, is_Some (res !! id) ↔ ∃ n, n ∈ ns ∧ n_id n = id).
Proof.
  unfold run_local_inference. destruct ns as [|first ns].
  - intros [= <-]. split; [done |]. intros id. rewrite lookup_empty. split.
    + by intros [? ?].
    + by intros (n & ?%elem_of_nil & _).
  - intros Hrun. split; [done |]. intros id.
    rewrite (run_inference_keys _ _ _ _ _ Hrun).
    apply extract_context_node_ids.
Qed.

Lemma run_local_inference_keys_witness :
  ∃ res,
    run_local_inference [Scenarios.node_of "a" (1 # 5); Scenarios.node_of "b" (4 # 5)]
      [] None = Ok res ∧
    is_Some (res !! "a"%string) ∧ res !! "c"%string = None.
Proof.
  remember (run_local_inference
              [Scenarios.node_of "a" (1 # 5); Scenarios.node_of "b" (4 # 5)] [] None)
    as r eqn:Hrun.
  destruct r as [res|e]; [| by vm_compute in Hrun].
  exists res. split; [done |]. symmetry in Hrun.
  destruct (run_local_inference_keys _ _ _ _ Hrun) as [_ Hkeys]. split.
  - apply Hkeys. eexists. split; [left | done].
  - apply eq_None_not_Some. rewrite Hkeys.
    intros (n & Hn & Hid). simpl in Hn.
    repeat (apply elem_of_cons in Hn as [->|Hn]; [discriminate Hid |]).
    by apply elem_of_nil in Hn.
Defined.

End BridgeResults.

Section BridgeIdentifiers.

Import Service.

Lemma app_String c s t : (String c s ++ t)%string = String c (s ++ t)%string.
Proof. reflexivity. Qed.

Lemma app_cancel_l (p x y : string) : (p ++ x = p ++ y)%string → x = y.
Proof.
  induction p as [|a p IH]; intros H; [exact H |].
  apply IH. rewrite !app_String in H. by injection H.
Qed.

(** A decimal numeral is determined by any string that starts with it and
    goes on with an underscore. *)
Lemma digits_then_underscore d : ∀ d' s s',
  (NilEmpty.string_of_uint d ++ String "_" s =
   NilEmpty.string_of_uint d' ++ String "_" s')%string →
  d = d'.
Proof.
  induction d as [|d IH|d IH|d IH|d IH|d IH|d IH|d IH|d IH|d IH|d IH];
    intros [|d'|d'|d'|d'|d'|d'|d'|d'|d'|d'] s s' H;
    cbn [NilEmpty.string_of_uint] in H; rewrite ?app_String in H;
    try discriminate H; try reflexivity;
    injection H as H; f_equal; by eapply IH.
Qed.

Lemma numbered_id_inj (p s s' : string) (n n' : nat) :
  (p ++ str_of_nat n ++ "_" ++ s = p ++ str_of_nat n' ++ "_" ++ s')%string →
  n = n'.
Proof.
  intros H%app_cancel_l. unfold str_of_nat in H.
  change ("_" +:+ s) with (String "_" s) in H.
  change ("_" +:+ s') with (String "_" s') in H.
  apply digits_then_underscore in H. by apply Unsigned.to_uint_inj.
Qed.

Lemma convert_association_ids context cv kv :
  let cv' := convert_association context cv kv in
  (NoDup (r_id <$> cv_rules cv) ∧
   ∀ r, r ∈ cv_rules cv → ∃ p n s,
     (p = "rule_" ∨ p = "depends_")%string ∧ (n ≤ rule_counter cv)%nat ∧
     r_id r = (p ++ str_of_nat n ++ "_" ++ s)%string) →
  (NoDup (c_id <$> cv_constraints cv) ∧
   ∀ c, c ∈ cv_constraints cv → ∃ p n s,
     (p = "attack_" ∨ p = "support_")%string ∧ (n ≤ constraint_counter cv)%nat ∧
     c_id c = (p ++ str_of_nat n ++ "_" ++ s)%string) →
  (NoDup (r_id <$> cv_rules cv') ∧
   ∀ r, r ∈ cv_rules cv' → ∃ p n s,
     (p = "rule_" ∨ p = "depends_")%string ∧ (n ≤ rule_counter cv')%nat ∧
     r_id r = (p ++ str_of_nat n ++ "_" ++ s)%string) ∧
  (NoDup (c_id <$> cv_constraints cv') ∧
   ∀ c, c ∈ cv_constraints cv' → ∃ p n s,
     (p = "attack_" ∨ p = "support_")%string ∧ (n ≤ constraint_counter cv')%nat ∧
     c_id c = (p ++ str_of_nat n ++ "_" ++ s)%string).
Proof.
  intros cv' [Hrnd Hr] [Hcnd Hc]. subst cv'. unfold convert_association.
  destruct (a_logic_meta kv.2) as [lm|]; [| done].
  destruct (ODict.get (a_source_id kv.2) (nodes context)) as [src|]; [| done].
  destruct (ODict.get (a_target_id kv.2) (nodes context)) as [dst|]; [| done].
  assert (Hfresh_r : ∀ p s, (p = "rule_" ∨ p = "depends_")%string →
    (p ++ str_of_nat (S (rule_counter cv)) ++ "_" ++ s)%string ∉ r_id <$> cv_rules cv).
  { intros p s Hp (r & Hid & Hin)%list_elem_of_fmap.
    destruct (Hr r Hin) as (p' & n & s' & Hp' & Hn & Hid'). rewrite Hid' in Hid.
    destruct Hp as [-> | ->], Hp' as [-> | ->];
      try (apply numbered_id_inj in Hid; lia);
      rewrite !app_String in Hid; discriminate Hid. }
  assert (Hfresh_c : ∀ p s, (p = "attack_" ∨ p = "support_")%string →
    (p ++ str_of_nat (S (constraint_counter cv)) ++ "_" ++ s)%string
      ∉ c_id <$> cv_constraints cv).
  { intros p s Hp (c & Hid & Hin)%list_elem_of_fmap.
    destruct (Hc c Hin) as (p' & n & s' & Hp' & Hn & Hid'). rewrite Hid' in Hid.
    destruct Hp as [-> | ->], Hp' as [-> | ->];
      try (apply numbered_id_inj in Hid; lia);
      rewrite !app_String in Hid; discriminate Hid. }
  assert (Hadd_r : ∀ p s w, (p = "rule_" ∨ p = "depends_")%string →
    let r0 := {| r_id := (p ++ str_of_nat (S (rule_counter cv)) ++ "_" ++ s)%string;
                 r_type := Some "IMPLICATION"%string;
                 r_inputs := Some [_node_to_var_name src];
                 r_output := Some (_node_to_var_name dst);
                 r_op := Some (lm_op lm); r_weight := Some w;
                 r_learnable := Some (lm_learnable lm) |} in
    NoDup (r_id <$> cv_rules cv ++ [r0]) ∧
    ∀ r, r ∈ cv_rules cv ++ [r0] → ∃ p n s,
      (p = "rule_" ∨ p = "depends_")%string ∧ (n ≤ S (rule_counter cv))%nat ∧
      r_id r = (p ++ str_of_nat n ++ "_" ++ s)%string).
  { intros p s w Hp r0. split.
    - rewrite fmap_app. apply NoDup_app. split; [done | split].
      + intros id Hid [->|?%elem_of_nil]%elem_of_cons; [| done].
        by apply (Hfresh_r p s Hp).
      + apply NoDup_singleton.
    - intros r [Hin | ->%list_elem_of_singleton]%elem_of_app.
      + destruct (Hr r Hin) as (p' & n & s' & ? & ? & ?).
        exists p', n, s'. split; [done | split; [lia | done]].
      + exists p, (S (rule_counter cv)), s. by split. }
  assert (Hadd_c : ∀ p s kind, (p = "attack_" ∨ p = "support_")%string →
    let c0 := {| c_id := (p ++ str_of_nat (S (constraint_counter cv)) ++ "_" ++ s)%string;
                 c_type := Some kind;
                 c_source := Some (_node_to_var_name src);
                 c_target := Some (TStr (_node_to_var_name dst));
                 c_weight := Some (lm_weight lm) |} in
    NoDup (c_id <$> cv_constraints cv ++ [c0]) ∧
    ∀ c, c ∈ cv_constraints cv ++ [c0] → ∃ p n s,
      (p = "attack_" ∨ p = "support_")%string ∧
      (n ≤ S (constraint_counter cv))%nat ∧
      c_id c = (p ++ str_of_nat n ++ "_" ++ s)%string).
  { intros p s kind Hp c0. split.
    - rewrite fmap_app. apply NoDup_app. split; [done | split].
      + intros id Hid [->|?%elem_of_nil]%elem_of_cons; [| done].
        by apply (Hfresh_c p s Hp).
      + apply NoDup_singleton.
    - intros c [Hin | ->%list_elem_of_singleton]%elem_of_app.
      + destruct (Hc c Hin) as (p' & n & s' & ? & ? & ?).
        exists p', n, s'. split; [done | split; [lia | done]].
      + exists p, (S (constraint_counter cv)), s. by split. }
  destruct (String.eqb (lm_type lm) "IMPLIES").
  { split; [| done]. apply (Hadd_r "rule_"%string). by left. }
  destruct (String.eqb (lm_type lm) "ATTACKS").
  { split; [done |]. apply (Hadd_c "attack_"%string). by left. }
  destruct (String.eqb (lm_type lm) "SUPPORTS").
  { split; [done |]. apply (Hadd_c "support_"%string). by right. }
  destruct (String.eqb (lm_type lm) "DEPENDS"); [| done].
  split; [| done]. apply (Hadd_r "depends_"%string). by right.
Qed.

(** The rule identifiers of the schema that [to_neuro_json] builds are
    pairwise distinct, and so are its constraint identifiers, whatever the
    edge ids are: each identifier carries the value of a counter that grows
    with every rule (resp. constraint).  The engine, which keys rules and
    constraints by identifier, therefore loses none of them. *)
Theorem to_neuro_json_ids_unique context :
  NoDup (r_id <$> rules (to_neuro_json context)) ∧
  NoDup (c_id <$> constraints (to_neuro_json context)).
Proof.
  unfold to_neuro_json. simpl.
  assert (H : ∀ kvs cv,
    (NoDup (r_id <$> cv_rules cv) ∧
     ∀ r, r ∈ cv_rules cv → ∃ p n s,
       (p = "rule_" ∨ p = "depends_")%string ∧ (n ≤ rule_counter cv)%nat ∧
       r_id r = (p ++ str_of_nat n ++ "_" ++ s)%string) →
    (NoDup (c_id <$> cv_constraints cv) ∧
     ∀ c, c ∈ cv_constraints cv → ∃ p n s,
       (p = "attack_" ∨ p = "support_")%string ∧ (n ≤ constraint_counter cv)%nat ∧
       c_id c = (p ++ str_of_nat n ++ "_" ++ s)%string) →
    NoDup (r_id <$> cv_rules (fold_left (convert_association context) kvs cv)) ∧
    NoDup (c_id <$> cv_constraints (fold_left (convert_association context) kvs cv))).
  { induction kvs as [|kv kvs IH]; intros cv Hr Hc; cbn [fold_left].
    - split; [apply Hr | apply Hc].
    - destruct (convert_association_ids context cv kv Hr Hc) as [Hr' Hc'].
      by apply IH. }
  apply H; (split; [apply NoDup_nil_2 | intros ? Hin; by apply elem_of_nil in Hin]).
Qed.

End BridgeIdentifiers.

Section RuleEvaluation.

Implicit Types (sts : gmap string VariableState).

(** [_evaluate_rule] skips a rule (returns [None]) as soon as one of its
    inputs has no state, before looking at the rule's type or operator, so
    such a rule never raises; when all inputs resolve it skips the rule
    exactly when the type is none of IMPLICATION, CONJUNCTION, DISJUNCTION,
    EQUIVALENCE.  A value that it returns is always a truth value. *)
Theorem evaluate_rule_skips sts rule :
  ((∃ i, i ∈ default [] (r_inputs rule) ∧ sts !! i = None) →
   _evaluate_rule sts rule = Ok None) ∧
  ((∀ i, i ∈ default [] (r_inputs rule) → is_Some (sts !! i)) →
   (_evaluate_rule sts rule = Ok None ↔
    default "IMPLICATION"%string (r_type rule) ∉
      ["IMPLICATION"; "CONJUNCTION"; "DISJUNCTION"; "EQUIVALENCE"]%string)) ∧
  (∀ x, _evaluate_rule sts rule = Ok (Some x) → 0 <= x <= 1).
Proof.
  unfold _evaluate_rule. split; [| split].
  - intros (i & Hi & Hnone).
    destruct (mapM _ _) as [vs|] eqn:Hm; [| done].
    assert (Hs : is_Some (mapM (λ input_name, value <$> sts !! input_name)
                            (default [] (r_inputs rule)))) by eauto.
    apply mapM_is_Some in Hs.
    apply (proj1 (Forall_forall _ _)) with (x := i) in Hs; [| done].
    unfold compose in Hs. simpl in Hs. rewrite Hnone in Hs. by destruct Hs.
  - intros Hall.
    assert (Hs : is_Some (mapM (λ input_name, value <$> sts !! input_name)
                            (default [] (r_inputs rule)))).
    { apply mapM_is_Some, Forall_forall. intros i Hi. unfold compose.
      destruct (Hall i Hi) as [st ->]. simpl. eauto. }
    destruct Hs as [vs ->].
    destruct (String.eqb_spec (default "IMPLICATION"%string (r_type rule)) "IMPLICATION")
      as [->|H1].
    { split; [| intros Hn; exfalso; apply Hn; left].
      by destruct (apply_operation _ _ _). }
    destruct (String.eqb_spec (default "IMPLICATION"%string (r_type rule)) "CONJUNCTION")
      as [->|H2].
    { split; [done | intros Hn; exfalso; apply Hn; right; left]. }
    destruct (String.eqb_spec (default "IMPLICATION"%string (r_type rule)) "DISJUNCTION")
      as [->|H3].
    { split; [done | intros Hn; exfalso; apply Hn; do 2 right; left]. }
    destruct (String.eqb_spec (default "IMPLICATION"%string (r_type rule)) "EQUIVALENCE")
      as [->|H4].
    { split; [by destruct vs as [|a [|b vs]]
             | intros Hn; exfalso; apply Hn; do 3 right; left]. }
    split; [| done]. intros _ Hin.
    repeat (apply elem_of_cons in Hin as [?|Hin]; [done |]).
    by apply elem_of_nil in Hin.
  - intros x. destruct (mapM _ _) as [vs|]; [| discriminate].
    destruct (String.eqb _ "IMPLICATION").
    { destruct (apply_operation _ _ _); simpl; [| discriminate].
      intros [= <-]. apply clamp_range. }
    destruct (String.eqb _ "CONJUNCTION"); [intros [= <-]; apply clamp_range |].
    destruct (String.eqb _ "DISJUNCTION"); [intros [= <-]; apply clamp_range |].
    destruct (String.eqb _ "EQUIVALENCE"); [| discriminate].
    destruct vs as [|a [|b vs]]; intros [= <-]; apply clamp_range.
Qed.

End RuleEvaluation.
